(** * dutch.cards game-state engine: a shallow embedding of
    [server/src/composables/use-game-state.js] and its properties.

    JavaScript objects used as dictionaries ([gameState.players],
    [gameState.cardMap], a card, a command) are finite maps; arrays are lists
    whose last element is the top of a pile; code that mutates [gameState] and
    may [throw] runs in a state-and-exception monad that keeps the store as it
    was at the point of the throw.

    Three things lie outside [use-game-state.js] and enter as data:
    [generateDeck()] of [utils/deck.js] and [Math.random()] are read from an
    oracle, and the calls made on the gateway of [use-socket-connections.js]
    ([broadcastUpdate], [sendReject]) are returned as a list of effects.
    Console output is not modelled.

    A uid comes with the command, so [gameState.players[uid]] is modelled as
    the language evaluates it on a plain object: an own property first, then
    what [Object.prototype] holds under that name ([playersAt]).  The proxy
    made by [reactive] is taken to be transparent.  Card identifiers come from
    [generateDeck], not from a client: they are taken to be ordinary, none
    naming a property of [Object.prototype], so that
    [gameState.cardMap[card.id]] is an own property or [undefined].  The
    order of [Object.keys] is the enumeration order of the map; the roster
    sorts it by position, so it only shows among players of equal position,
    which the server never produces (lemma [Reachable_Inv]). *)

From Stdlib Require Import ZArith.
From stdpp Require Import gmap strings list fin_maps sorting pretty.

Local Open Scope string_scope.
Local Open Scope nat_scope.

(** ** JavaScript values and objects *)

(** The values a card or a command carries in its properties; numbers are the
    integers. *)
Inductive JsValue :=
| JsUndefined
| JsString (s : string)
| JsNumber (n : Z).

#[global] Instance JsValue_eq_dec : EqDecision JsValue.
Proof. solve_decision. Defined.

(** A card ([Card], [FaceUpCard], [FaceDownCard]) and a command are plain
    objects: property name to value.  Whatever [generateDeck] puts on a card
    besides [id] and [orientation] is its payload. *)
Abbreviation Card := (gmap string JsValue).
Abbreviation Command := (gmap string JsValue).

(** [o.k]: reading a property that is absent yields [undefined]. *)
Definition prop (k : string) (o : gmap string JsValue) : JsValue :=
  default JsUndefined (o !! k).

(** [m[v]]: a value used as a property key is converted to a string. *)
Definition toPropertyKey (v : JsValue) : string :=
  match v with
  | JsUndefined => "undefined"
  | JsString s => s
  | JsNumber n => pretty n
  end.

(** [{ ...o }] where [o] may be [undefined]: spreading [undefined] gives [{}]. *)
Definition spread (o : option (gmap string JsValue)) : gmap string JsValue :=
  default ∅ o.

(** ** The data model *)

Inductive Phase := pregame | ingame.
Inductive Status := waiting | ready.

#[global] Instance Phase_eq_dec : EqDecision Phase.
Proof. solve_decision. Defined.
#[global] Instance Status_eq_dec : EqDecision Status.
Proof. solve_decision. Defined.

Record Player := {
  status : Status;
  position : nat;
  hand : list Card;
  isOnline : bool;
}.

Record ClientCommand := {
  player : string;
  command : Command;
}.

(** The store the code works on.  The first eight fields are the properties
    of [gameState].  The last one lies outside it: it is the property
    [isOnline] of [Object.prototype], which does not exist in a fresh runtime
    ([None]), which the assignment of line 191 or 200 creates when the uid is
    [__proto__], and which [gameState.players["isOnline"]] then finds. *)
Record GameState := {
  phase : Phase;
  activePlayerUid : option string;
  actionQueue : list Command;
  cardMap : gmap string Card;
  discardPile : list Card;
  drawPile : list Card;
  players : gmap string Player;
  commands : list ClientCommand;
  prototypeIsOnline : option bool;
}.

Definition initGameState : GameState := {|
  phase := pregame;
  activePlayerUid := None;
  actionQueue := [];
  cardMap := ∅;
  discardPile := [];
  drawPile := [];
  players := ∅;
  commands := [];
  prototypeIsOnline := None;
|}.

(** Assignments to one field of [gameState] or of a player. *)
Definition set_phase (v : Phase) (gs : GameState) : GameState :=
  {| phase := v; activePlayerUid := activePlayerUid gs;
     actionQueue := actionQueue gs; cardMap := cardMap gs;
     discardPile := discardPile gs; drawPile := drawPile gs;
     players := players gs; commands := commands gs;
     prototypeIsOnline := prototypeIsOnline gs |}.

Definition set_activePlayerUid (v : option string) (gs : GameState) : GameState :=
  {| phase := phase gs; activePlayerUid := v;
     actionQueue := actionQueue gs; cardMap := cardMap gs;
     discardPile := discardPile gs; drawPile := drawPile gs;
     players := players gs; commands := commands gs;
     prototypeIsOnline := prototypeIsOnline gs |}.

Definition set_cardMap (v : gmap string Card) (gs : GameState) : GameState :=
  {| phase := phase gs; activePlayerUid := activePlayerUid gs;
     actionQueue := actionQueue gs; cardMap := v;
     discardPile := discardPile gs; drawPile := drawPile gs;
     players := players gs; commands := commands gs;
     prototypeIsOnline := prototypeIsOnline gs |}.

Definition set_discardPile (v : list Card) (gs : GameState) : GameState :=
  {| phase := phase gs; activePlayerUid := activePlayerUid gs;
     actionQueue := actionQueue gs; cardMap := cardMap gs;
     discardPile := v; drawPile := drawPile gs;
     players := players gs; commands := commands gs;
     prototypeIsOnline := prototypeIsOnline gs |}.

Definition set_drawPile (v : list Card) (gs : GameState) : GameState :=
  {| phase := phase gs; activePlayerUid := activePlayerUid gs;
     actionQueue := actionQueue gs; cardMap := cardMap gs;
     discardPile := discardPile gs; drawPile := v;
     players := players gs; commands := commands gs;
     prototypeIsOnline := prototypeIsOnline gs |}.

Definition set_players (v : gmap string Player) (gs : GameState) : GameState :=
  {| phase := phase gs; activePlayerUid := activePlayerUid gs;
     actionQueue := actionQueue gs; cardMap := cardMap gs;
     discardPile := discardPile gs; drawPile := drawPile gs;
     players := v; commands := commands gs;
     prototypeIsOnline := prototypeIsOnline gs |}.

Definition set_commands (v : list ClientCommand) (gs : GameState) : GameState :=
  {| phase := phase gs; activePlayerUid := activePlayerUid gs;
     actionQueue := actionQueue gs; cardMap := cardMap gs;
     discardPile := discardPile gs; drawPile := drawPile gs;
     players := players gs; commands := v;
     prototypeIsOnline := prototypeIsOnline gs |}.

Definition set_prototypeIsOnline (v : option bool) (gs : GameState) : GameState :=
  {| phase := phase gs; activePlayerUid := activePlayerUid gs;
     actionQueue := actionQueue gs; cardMap := cardMap gs;
     discardPile := discardPile gs; drawPile := drawPile gs;
     players := players gs; commands := commands gs;
     prototypeIsOnline := v |}.

Definition set_status (v : Status) (p : Player) : Player :=
  {| status := v; position := position p; hand := hand p; isOnline := isOnline p |}.

Definition set_position (v : nat) (p : Player) : Player :=
  {| status := status p; position := v; hand := hand p; isOnline := isOnline p |}.

Definition set_hand (v : list Card) (p : Player) : Player :=
  {| status := status p; position := position p; hand := v; isOnline := isOnline p |}.

Definition set_isOnline (v : bool) (p : Player) : Player :=
  {| status := status p; position := position p; hand := hand p; isOnline := v |}.

(** ** Running code against the store *)

(** How a piece of code ends: normally with a value, or by throwing an error
    of which only [error.message] is ever looked at. *)
Inductive Completion (A : Type) :=
| Normal (a : A)
| Throw (message : string).
Arguments Normal {A} a.
Arguments Throw {A} message.

(** Code that reads and writes [gameState]: the store it leaves behind is
    returned on both completions, so a throw keeps every write made before it. *)
Definition Proc (A : Type) : Type := GameState → GameState * Completion A.

Definition ret {A} (a : A) : Proc A := λ gs, (gs, Normal a).

Definition throw {A} (message : string) : Proc A := λ gs, (gs, Throw message).

Definition bind {A B} (m : Proc A) (k : A → Proc B) : Proc B :=
  λ gs, match m gs with
        | (gs', Normal a) => k a gs'
        | (gs', Throw message) => (gs', Throw message)
        end.

Definition gets {A} (f : GameState → A) : Proc A := λ gs, (gs, Normal (f gs)).

Definition modify (f : GameState → GameState) : Proc unit := λ gs, (f gs, Normal tt).

Notation "'let*' x ':=' m 'in' k" := (bind m (λ x, k))
  (at level 10, x name, m at level 100, k at level 200, only parsing).
Notation "m ;; k" := (bind m (λ _, k))
  (at level 100, k at level 200, right associativity, only parsing).

(** [array.forEach((element, index) => body)]: the array is read once, the
    body runs on each element in order and a throw ends the loop. *)
Fixpoint forEachFrom {A} (i : nat) (l : list A) (body : A → nat → Proc unit) : Proc unit :=
  match l with
  | [] => ret tt
  | x :: l' => body x i ;; forEachFrom (S i) l' body
  end.

Definition forEach {A} (l : list A) (body : A → nat → Proc unit) : Proc unit :=
  forEachFrom 0 l body.

(** The messages V8 gives the [TypeError] of [undefined.name] and of
    [undefined.name = v]. *)
Definition cannotRead (name : string) : string :=
  "Cannot read properties of undefined (reading '" ++ name ++ "')".

Definition cannotSet (name : string) : string :=
  "Cannot set properties of undefined (setting '" ++ name ++ "')".

(** The message of the [TypeError] of [b.name = v] for a boolean [b]: the
    file is a module, hence strict code, where an assignment to a property
    of a primitive value throws. *)
Definition cannotCreate (name : string) (b : bool) : string :=
  "Cannot create property '" ++ name ++ "' on boolean '"
    ++ (if b then "true" else "false") ++ "'".

(** [gameState.players[uid].field = ...] and [gameState.players[uid].hand.push]:
    the player object is updated in place; [gameState.players[uid]] being
    [undefined] is a [TypeError] with the given message. *)
Definition updatePlayer (uid : string) (message : string) (f : Player → Player) : Proc unit :=
  λ gs, match players gs !! uid with
        | Some p => (set_players (<[uid := f p]> (players gs)) gs, Normal tt)
        | None => (gs, Throw message)
        end.

(** ** Looking a uid up in [gameState.players] *)

(** The properties every plain object inherits from [Object.prototype]:
    eleven functions and the accessor [__proto__], which yields
    [Object.prototype] itself. *)
Definition objectPrototypeNames : list string :=
  ["constructor"; "hasOwnProperty"; "isPrototypeOf"; "propertyIsEnumerable";
   "toLocaleString"; "toString"; "valueOf";
   "__defineGetter__"; "__defineSetter__"; "__lookupGetter__"; "__lookupSetter__";
   "__proto__"].

(** What [gameState.players[uid]] evaluates to: a player object; one of the
    built-in objects above; the boolean that [Object.prototype] holds under
    [isOnline]; or [undefined]. *)
Inductive Member :=
| memberPlayer (p : Player)
| memberBuiltin
| memberBoolean (b : bool)
| memberUndefined.

(** What an object without own property [name] yields for it. *)
Definition inherited (name : string) (gs : GameState) : Member :=
  if decide (name ∈ objectPrototypeNames) then memberBuiltin
  else if decide (name = "isOnline") then
    match prototypeIsOnline gs with
    | Some b => memberBoolean b
    | None => memberUndefined
    end
  else memberUndefined.

Definition playersAt (uid : string) (gs : GameState) : Member :=
  match players gs !! uid with
  | Some p => memberPlayer p
  | None => inherited uid gs
  end.

(** [gameState.players[uid].isOnline = v].  On a player object it sets the
    flag.  On [Object.prototype] (uid [__proto__]) it creates or overwrites
    the inherited [isOnline]; on one of the eleven functions it lands on that
    function, which nothing here reads back, so it is not recorded.  On a
    boolean it throws. *)
Definition setIsOnline (uid : string) (v : bool) : Proc unit :=
  let* target := gets (playersAt uid) in
  match target with
  | memberPlayer _ => updatePlayer uid (cannotSet "isOnline") (set_isOnline v)
  | memberBuiltin =>
      if decide (uid = "__proto__")
      then modify (set_prototypeIsOnline (Some v))
      else ret tt
  | memberBoolean b => throw (cannotCreate "isOnline" b)
  | memberUndefined => throw (cannotSet "isOnline")
  end.

(** ** The roster *)

(** An element of [playersArray]: the flat object [{ ...player, uid }]. *)
Record Seat := {
  uid : string;
  seated : Player;
}.

(** [Array.prototype.sort((a, b) => a.position - b.position)] is a stable sort
    on [position]. *)
Fixpoint insertSeat (x : Seat) (l : list Seat) : list Seat :=
  match l with
  | [] => [x]
  | y :: l' =>
      if decide (position (seated x) ≤ position (seated y))%nat
      then x :: l
      else y :: insertSeat x l'
  end.

Definition sortByPosition (l : list Seat) : list Seat := foldr insertSeat [] l.

(** [Object.keys(gameState.players).map((uid) => ({ ...players[uid], uid }))]:
    the keys are enumerated in the order of the map. *)
Definition seats (ps : gmap string Player) : list Seat :=
  (λ kv, {| uid := kv.1; seated := kv.2 |}) <$> map_to_list ps.

Definition roster (ps : gmap string Player) : list Seat :=
  sortByPosition (seats ps).

(** The computed [playersArray.value], evaluated afresh on each read. *)
Definition playersArray (gs : GameState) : list Seat := roster (players gs).

Definition addPlayer (uid : string) : Proc unit :=
  let* position := gets (λ gs, length (playersArray gs)) in
  let newPlayer :=
    {| status := waiting; position := position; hand := []; isOnline := true |} in
  modify (λ gs, set_players (<[uid := newPlayer]> (players gs)) gs).

Definition removePlayer (uid : string) : Proc unit :=
  modify (λ gs, set_players (delete uid (players gs)) gs) ;;
  let* arr := gets playersArray in
  forEach arr
    (λ '{| uid := uid |} i, updatePlayer uid (cannotSet "position") (set_position i)).

(** ** Cards *)

Definition toCard (gs : GameState) (card : Card) : option Card :=
  cardMap gs !! toPropertyKey (prop "id" card).

Definition toFaceUp (gs : GameState) (card : Card) : Card :=
  <["orientation" := JsString "up"]>
    (spread (cardMap gs !! toPropertyKey (prop "id" card))).

Definition toFaceDown (card : Card) : Card :=
  {[ "id" := prop "id" card; "orientation" := JsString "down" ]}.

(** ** The projected view *)

Record PileView := {
  topCard : option Card;
  count : nat;
}.

Module ClientState.
Record t := {
  phase : Phase;
  activePlayerUid : option string;
  actionQueue : list Command;
  discardPile : PileView;
  drawPile : PileView;
  players : list Seat;
}.
End ClientState.

(** The top of a pile is read at index [count - 1] under the test
    [count > 0], so the element is there. *)
Definition evalClientState (gs : GameState) (player : string) : ClientState.t :=
  let discardPileCount := length (discardPile gs) in
  let discardPile' :=
    {| topCard :=
         if decide (0 < discardPileCount)%nat
         then Some (<["orientation" := JsString "up"]>
                      (spread (discardPile gs !! (discardPileCount - 1)%nat)))
         else None;
       count := discardPileCount |} in
  let drawPileCount := length (drawPile gs) in
  let drawPile' :=
    {| topCard :=
         if decide (0 < drawPileCount)%nat
         then toFaceDown <$> drawPile gs !! (drawPileCount - 1)%nat
         else None;
       count := drawPileCount |} in
  let players' :=
    (λ playerI,
       let hand' :=
         (λ card, if decide (prop "orientation" card = JsString "up")
                  then toFaceUp gs card
                  else toFaceDown card) <$> hand (seated playerI) in
       {| uid := uid playerI; seated := set_hand hand' (seated playerI) |})
      <$> playersArray gs in
  {| ClientState.phase := phase gs;
     ClientState.activePlayerUid := activePlayerUid gs;
     ClientState.actionQueue := [];
     ClientState.discardPile := discardPile';
     ClientState.drawPile := drawPile';
     ClientState.players := players' |}.

(** ** Starting the game *)

(** A value of [Math.random()]: the fraction
    [numerator / (numerator + shortfall + 1)], which lies in [0, 1). *)
Record UnitInterval := {
  numerator : nat;
  shortfall : nat;
}.

(** [(n * Math.random()) | 0] for an array length [n]. *)
Definition scaleFloor (n : nat) (r : UnitInterval) : nat :=
  ((n * numerator r) / (numerator r + shortfall r + 1))%nat.

(** What one run of [startGame] obtains from outside the store: the object
    [{ deck, cardMap }] returned by [generateDeck()] of [utils/deck.js], which
    is not part of the sources at hand, and the value of [Math.random()]. *)
Record Oracle := {
  generateDeck : list Card * gmap string Card;
  mathRandom : UnitInterval;
}.

Definition CARDS_PER_HAND : nat := 4.

(** [gameState.drawPile.pop()]: [undefined] on an empty pile. *)
Definition popDrawPile : Proc (option Card) :=
  λ gs, (set_drawPile (removelast (drawPile gs)) gs, Normal (last (drawPile gs))).

(** The body of the inner [forEach] of the deal. *)
Definition dealCard (uid : string) : Proc unit :=
  let* card := popDrawPile in
  match card with
  | None => throw "Overdraw from draw pile"
  | Some card =>
      updatePlayer uid (cannotRead "hand")
        (λ p, set_hand (hand p ++ [<["orientation" := JsString "down"]> card]) p)
  end.

(** [for (let i = 1; i <= n; i++) body]. *)
Fixpoint times (n : nat) (body : Proc unit) : Proc unit :=
  match n with
  | O => ret tt
  | S n' => body ;; times n' body
  end.

Definition startGame (o : Oracle) (startingPlayer : option string) : Proc unit :=
  let* n := gets (λ gs, length (playersArray gs)) in
  if decide (n ≤ 1)%nat then throw "Need at least two players to start game" else
  modify (set_phase ingame) ;;
  let* arr := gets playersArray in
  let randomPlayer := arr !! scaleFloor (length arr) (mathRandom o) in
  match startingPlayer with
  | Some u => modify (set_activePlayerUid (Some u))
  | None =>
      match randomPlayer with
      | Some s => modify (set_activePlayerUid (Some (uid s)))
      | None => throw (cannotRead "uid")
      end
  end ;;
  let '(deck, cardMap') := generateDeck o in
  modify (set_drawPile deck) ;;
  modify (set_cardMap cardMap') ;;
  times CARDS_PER_HAND
    (let* arr := gets playersArray in
     forEach arr (λ s _, dealCard (uid s))) ;;
  let* card := popDrawPile in
  match card with
  | None => throw "Overdraw from draw pile"
  | Some card => modify (λ gs, set_discardPile (discardPile gs ++ [card]) gs)
  end.

(** ** Commands *)

Module Reject.
Record t := {
  id : string;
  commandId : JsValue;
  reason : string;
}.
End Reject.

(** The calls made on the gateway of [use-socket-connections.js]. *)
Inductive Effect :=
| broadcastUpdate (clientStates : gmap string ClientState.t)
| sendReject (player : string) (message : Reject.t).

(** The [switch (command.id)] inside the [try] block.  In [toggle-ready] the
    status of a built-in object or of a boolean is [undefined], so neither
    test of lines 215-219 holds and nothing is written. *)
Definition dispatch (o : Oracle) (player : string) (command : Command) : Proc unit :=
  let id := prop "id" command in
  if decide (id = JsString "connect-to-room") then
    let* known := gets (playersAt player) in
    match known with
    | memberUndefined =>
        let* ph := gets phase in
        if decide (ph = pregame) then addPlayer player else ret tt
    | _ => setIsOnline player true
    end
  else if decide (id = JsString "disconnect-from-room") then
    let* known := gets (playersAt player) in
    match known with
    | memberUndefined => ret tt
    | _ =>
        let* ph := gets phase in
        if decide (ph = ingame)
        then setIsOnline player false
        else removePlayer player
    end
  else if decide (id = JsString "toggle-ready") then
    let* ph := gets phase in
    if decide (ph = ingame) then throw "Game has already started" else
    let* me := gets (playersAt player) in
    match me with
    | memberUndefined => throw (cannotRead "status")
    | memberPlayer p =>
        if decide (status p = waiting)
        then updatePlayer player (cannotSet "status") (set_status ready)
        else if decide (status p = ready)
        then updatePlayer player (cannotSet "status") (set_status waiting)
        else ret tt
    | memberBuiltin | memberBoolean _ => ret tt
    end ;;
    let* arr := gets playersArray in
    if forallb (λ s, bool_decide (status (seated s) = ready)) arr
    then startGame o None
    else ret tt
  else if decide (id = JsString "restart-game") then ret tt
  else if decide (id = JsString "call-dutch") then ret tt
  else if decide (id = JsString "draw-discard-pile") then ret tt
  else if decide (id = JsString "draw-draw-pile") then ret tt
  else if decide (id = JsString "match-discard") then ret tt
  else if decide (id = JsString "peek") then ret tt
  else if decide (id = JsString "replace-discard") then ret tt
  else if decide (id = JsString "swap") then ret tt
  else ret tt.

(** The object built by the [reduce] over [Object.keys(gameState.players)]. *)
Definition clientStates (gs : GameState) : gmap string ClientState.t :=
  foldl (λ obj uid, <[uid := evalClientState gs uid]> obj) ∅
        ((map_to_list (players gs)).*1).

(** One call of [executeCommand]: the store afterwards and the calls made on
    the gateway.  Console output is left out. *)
Definition executeCommand (o : Oracle) (cc : ClientCommand) (gs : GameState)
  : GameState * list Effect :=
  match dispatch o (player cc) (command cc) gs with
  | (gs', Normal _) =>
      (set_commands (commands gs' ++ [cc]) gs', [broadcastUpdate (clientStates gs')])
  | (gs', Throw message) =>
      (gs',
       [sendReject (player cc)
          {| Reject.id := "reject";
             Reject.commandId := prop "id" (command cc);
             Reject.reason := message |}])
  end.

(** The server processes commands one at a time, each to completion. *)
Definition step (gs : GameState) (x : Oracle * ClientCommand) : GameState :=
  (executeCommand x.1 x.2 gs).1.

Definition run (gs : GameState) (xs : list (Oracle * ClientCommand)) : GameState :=
  foldl step gs xs.


(** ** Vocabulary of the properties *)

Definition seatPos (s : Seat) : nat := position (seated s).

Definition byPosition (a b : Seat) : Prop := seatPos a ≤ seatPos b.

(** Positions are dense: they are the numbers [0 .. n-1], each taken once. *)
Definition positions (ps : gmap string Player) : list nat :=
  (λ kv, position kv.2) <$> map_to_list ps.

Definition dense (ps : gmap string Player) : Prop :=
  positions ps ≡ₚ seq 0 (size ps).

(** An invariant of a piece of code: it holds of the store the code leaves,
    on either completion, whenever it held before. *)
Definition preserves {A} (I : GameState → Prop) (m : Proc A) : Prop :=
  ∀ gs, I gs → I (m gs).1.

(** What the renumbering loop of [removePlayer] writes: the seat at index [j]
    of the array gets position [i + j]. *)
Fixpoint renumber (i : nat) (l : list Seat) : list (string * Player) :=
  match l with
  | [] => []
  | s :: l' => (uid s, set_position i (seated s)) :: renumber (S i) l'
  end.

(** The player object after the status flip of [toggle-ready]. *)
Definition toggled (p : Player) : Player :=
  set_status (match status p with waiting => ready | ready => waiting end) p.

(** The store after [gameState.players[uid].isOnline = v] has run on a
    built-in object. *)
Definition builtinWritten (uid : string) (v : bool) (gs : GameState) : GameState :=
  if decide (uid = "__proto__") then set_prototypeIsOnline (Some v) gs else gs.

(** The players after the status flip of a [toggle-ready] sent by [uid]: a
    sender who is not seated flips nothing. *)
Definition flipped (uid : string) (ps : gmap string Player) : gmap string Player :=
  match ps !! uid with
  | Some p => <[uid := toggled p]> ps
  | None => ps
  end.

(** The test [playersArray.value.every(({ status }) => status === "ready")]. *)
Definition everyReady (gs : GameState) : bool :=
  forallb (λ s, bool_decide (status (seated s) = ready)) (playersArray gs).

(** The states the server goes through. *)
Definition Reachable (gs : GameState) : Prop :=
  ∃ xs, gs = run initGameState xs.

(** Before the game starts nothing has been dealt. *)
Definition undealt (gs : GameState) : Prop :=
  discardPile gs = [] ∧ ∀ u p, players gs !! u = Some p → hand p = [].

Definition Inv (gs : GameState) : Prop :=
  dense (players gs) ∧ (phase gs = pregame → undealt gs).

(** The identifiers of the [switch] whose case is an empty stub, and the
    whole command vocabulary. *)
Definition stubIds : list string :=
  ["restart-game"; "call-dutch"; "draw-discard-pile"; "draw-draw-pile";
   "match-discard"; "peek"; "replace-discard"; "swap"].

Definition vocabulary : list string :=
  ["connect-to-room"; "disconnect-from-room"; "toggle-ready"] ++ stubIds.

(** Sequences of commands: who sent them, and which are [toggle-ready]. *)
Definition issuers (xs : list (Oracle * ClientCommand)) : list string :=
  (λ x, player x.2) <$> xs.

Definition isToggle (x : Oracle * ClientCommand) : Prop :=
  prop "id" (command x.2) = JsString "toggle-ready".

Definition isConnectOrDisconnect (x : Oracle * ClientCommand) : Prop :=
  prop "id" (command x.2) = JsString "connect-to-room" ∨
  prop "id" (command x.2) = JsString "disconnect-from-room".

(** The rejection built in the [catch] block. *)
Definition rejection (cc : ClientCommand) (reason : string) : Effect :=
  sendReject (player cc)
    {| Reject.id := "reject";
       Reject.commandId := prop "id" (command cc);
       Reject.reason := reason |}.

(** The cards on the table: draw pile, discard pile and all hands. *)
Definition handCards (ps : gmap string Player) : list Card :=
  mjoin ((λ kv, hand kv.2) <$> map_to_list ps).

(** A hand card as the store would hold it if cards that are not face up
    kept nothing but their identifier and orientation. *)
Definition veilCard (card : Card) : Card :=
  if decide (prop "orientation" card = JsString "up") then card else toFaceDown card.

(** The keys of the card map that belong to a hand card lying face up. *)
Definition faceUpKeys (gs : GameState) : gset string :=
  list_to_set
    ((λ card, toPropertyKey (prop "id" card)) <$>
     filter (λ card, prop "orientation" card = JsString "up")
            (handCards (players gs))).

(** The store with the payload of its hidden cards erased: every draw-pile
    card and every hand card that is not face up keeps nothing but its
    identifier and orientation, and the card map keeps no entry but those of
    the hand cards lying face up. *)
Definition veil (gs : GameState) : GameState :=
  set_cardMap (filter (λ kv, kv.1 ∈ faceUpKeys gs) (cardMap gs))
    (set_drawPile (toFaceDown <$> drawPile gs)
       (set_players ((λ p, set_hand (veilCard <$> hand p) p) <$> players gs) gs)).

(** Every object a view holds: the queued actions, the top cards of the two
    piles and the hand cards. *)
Definition viewObjects (v : ClientState.t) : list (gmap string JsValue) :=
  ClientState.actionQueue v ++
  option_list (topCard (ClientState.discardPile v)) ++
  option_list (topCard (ClientState.drawPile v)) ++
  mjoin ((λ s, hand (seated s)) <$> ClientState.players v).

Definition cardsOf (gs : GameState) : list Card :=
  drawPile gs ++ discardPile gs ++ handCards (players gs).

Definition cardId (card : Card) : JsValue := prop "id" card.

Definition cardIds (gs : GameState) : list JsValue := cardId <$> cardsOf gs.

(** The copy [{ ...card, orientation: "down" }] that is pushed onto a hand. *)
Definition faceDown (card : Card) : Card :=
  <["orientation" := JsString "down"]> card.

(** One round of the deal, seen from a player: when the round starts with the
    first [m] cards of the deck still in the draw pile, the player at position
    [j] is handed card [m - 1 - j] of the deck. *)
Definition pushCard (deck : list Card) (m : nat) (p : Player) : Player :=
  match deck !! (m - 1 - position p) with
  | Some card => set_hand (hand p ++ [faceDown card]) p
  | None => p
  end.

Definition pushCardBelow (deck : list Card) (m k : nat) (p : Player) : Player :=
  if decide (position p < k) then pushCard deck m p else p.

(** The part of [startGame] that moves cards: the rounds of the deal and the
    first discard. *)
Definition dealRound : Proc unit :=
  let* arr := gets playersArray in
  forEach arr (λ s _, dealCard (uid s)).

Definition dealing : Proc unit :=
  times CARDS_PER_HAND dealRound ;;
  let* card := popDrawPile in
  match card with
  | None => throw "Overdraw from draw pile"
  | Some card => modify (λ gs, set_discardPile (discardPile gs ++ [card]) gs)
  end.

(** The four rounds of the deal, seen from a player, for a deck of [N] cards
    dealt to [P] players. *)
Definition dealt (deck : list Card) (P : nat) (p : Player) : Player :=
  let N := length deck in
  pushCard deck (N - 3 * P)
    (pushCard deck (N - 2 * P) (pushCard deck (N - P) (pushCard deck N p))).

(** The cards on the table are those of the list [L], and the players are
    those of the set [D]. *)
Definition conserved (L : list JsValue) (D : gset string) (gs : GameState) : Prop :=
  cardIds gs ≡ₚ L ∧ dom (players gs) = D.

(** ** Vocabulary of the further properties *)

Definition isConnect (x : Oracle * ClientCommand) : Prop :=
  prop "id" (command x.2) = JsString "connect-to-room".

(** A uid under which [Object.prototype] holds nothing. *)
Definition ordinaryUid (uid : string) : Prop := uid ∉ objectPrototypeNames.

(** The player object [addPlayer] creates for the seat at position [i]. *)
Definition joined (i : nat) : Player :=
  {| status := waiting; position := i; hand := []; isOnline := true |}.

(** The players with their connectivity flag masked. *)
Definition ignoringOnline (ps : gmap string Player) : gmap string Player :=
  set_isOnline true <$> ps.

(** Two stores that differ at most in the connectivity flags (those of the
    players and the inherited one) and the log. *)
Definition sameTable (gs g : GameState) : Prop :=
  phase g = phase gs ∧
  activePlayerUid g = activePlayerUid gs ∧
  cardMap g = cardMap gs ∧
  discardPile g = discardPile gs ∧
  drawPile g = drawPile gs ∧
  ignoringOnline (players g) = ignoringOnline (players gs).

(** The seat a remaining player has after the one at position [k] left. *)
Definition closeGap (k : nat) (p : Player) : Player :=
  set_position (if decide (position p < k) then position p else position p - 1) p.

(** Nothing of a game is in the store. *)
Definition pristine (gs : GameState) : Prop :=
  activePlayerUid gs = None ∧ cardMap gs = ∅ ∧
  drawPile gs = [] ∧ discardPile gs = [] ∧
  ∀ u p, players gs !! u = Some p → hand p = [] ∧ isOnline p = true.

(** The active player is one of the seated players. *)
Definition activeSeated (gs : GameState) : Prop :=
  ∃ u, activePlayerUid gs = Some u ∧ is_Some (players gs !! u).

(** A piece of the deal keeps the set of players [D] and throws nothing but
    an overdraw. *)
Definition dealsSafely {A} (D : gset string) (m : Proc A) : Prop :=
  ∀ gs, dom (players gs) = D →
        dom (players (m gs).1) = D ∧
        ∀ message, (m gs).2 = Throw message → message = "Overdraw from draw pile".

(** A piece of the deal that, when it completes normally, has taken [n]
    cards from the draw pile and kept the set of players [D]. *)
Definition consumes {A} (n : nat) (D : gset string) (m : Proc A) : Prop :=
  ∀ gs g a, dom (players gs) = D → m gs = (g, Normal a) →
            length (drawPile g) + n = length (drawPile gs) ∧ dom (players g) = D.

(** What the phase tells about the rest of the store. *)
Definition phaseInv (gs : GameState) : Prop :=
  (phase gs = pregame → pristine gs) ∧
  (phase gs = ingame → 2 ≤ size (players gs) ∧ activeSeated gs).

(** The deck an oracle hands out has pairwise distinct identifiers. *)
Definition distinctIds (x : Oracle * ClientCommand) : Prop :=
  NoDup (cardId <$> (generateDeck x.1).1).

(** What [startGame] has written once it is past its guard, whatever
    happens later in the deal: the phase, the card map [cm], the active player
    [a], and nothing of the players [ps0] but cards added at the end of
    their hands. *)
Definition started (cm : gmap string Card) (a : option string)
    (ps0 : gmap string Player) (g : GameState) : Prop :=
  phase g = ingame ∧ cardMap g = cm ∧ activePlayerUid g = a ∧
  dom (players g) = dom ps0 ∧
  ∀ u p, ps0 !! u = Some p →
         ∃ cards, players g !! u = Some (set_hand (hand p ++ cards) p).

(** ** Sample data *)

Definition sampleCard (i : nat) : Card :=
  {[ "id" := JsNumber (Z.of_nat i);
     "rank" := JsNumber (Z.of_nat (i `mod` 13));
     "suit" := JsString "spades" ]}.

Definition sampleDeck (n : nat) : list Card := sampleCard <$> seq 0 n.

Definition sampleOracle (n : nat) : Oracle :=
  {| generateDeck :=
       (sampleDeck n,
        list_to_map ((λ c, (toPropertyKey (prop "id" c), c)) <$> sampleDeck n));
     mathRandom := {| numerator := 1; shortfall := 1 |} |}.

Definition send (o : Oracle) (p i : string) : Oracle * ClientCommand :=
  (o, {| player := p; command := {[ "id" := JsString i ]} |}).

(** Two players seated in the lobby, and the game they start. *)
Definition sampleLobby : GameState :=
  run initGameState
    [send (sampleOracle 0) "A" "connect-to-room";
     send (sampleOracle 0) "B" "connect-to-room"].

Definition sampleGame : GameState :=
  run sampleLobby
    [send (sampleOracle 10) "B" "toggle-ready";
     send (sampleOracle 10) "A" "toggle-ready"].

(** * Properties *)

(** ** The sorted roster *)

#[local] Instance byPosition_trans : Transitive byPosition.
Proof. unfold byPosition. intros a b c. lia. Qed.

Lemma insertSeat_Permutation x l : insertSeat x l ≡ₚ x :: l.
Proof.
  induction l as [|y l IH]; simpl; [done|].
  case_decide; [done|]. rewrite IH. apply Permutation_swap.
Qed.

Lemma sortByPosition_Permutation l : sortByPosition l ≡ₚ l.
Proof.
  induction l as [|x l IH]; simpl; [done|].
  by rewrite insertSeat_Permutation, IH.
Qed.

Lemma insertSeat_Sorted x l :
  Sorted byPosition l → Sorted byPosition (insertSeat x l).
Proof.
  induction 1 as [|y l Hl IH Hy]; simpl.
  - repeat constructor.
  - case_decide as Hxy.
    + constructor; [by constructor|]. by constructor.
    + constructor; [done|].
      assert (byPosition y x) by (unfold byPosition, seatPos; lia).
      destruct Hy as [|z l' Hz]; simpl in *; [by constructor|].
      case_decide; by constructor.
Qed.

Lemma sortByPosition_Sorted l : StronglySorted byPosition (sortByPosition l).
Proof.
  apply Sorted_StronglySorted; [apply _|].
  induction l; simpl; [constructor|by apply insertSeat_Sorted].
Qed.

Lemma insertSeat_fmap (f : Seat → Seat) x t :
  (∀ s, seatPos (f s) = seatPos s) →
  insertSeat (f x) (f <$> t) = f <$> insertSeat x t.
Proof.
  intros Hf. induction t as [|y t IH]; csimpl; [done|].
  pose proof (Hf x) as Hx. pose proof (Hf y) as Hy. unfold seatPos in Hx, Hy.
  rewrite Hx, Hy. case_decide; csimpl; [done|]. by rewrite IH.
Qed.

(** Sorting commutes with any change of the seats that keeps positions. *)
Lemma sortByPosition_fmap (f : Seat → Seat) l :
  (∀ s, seatPos (f s) = seatPos s) →
  sortByPosition (f <$> l) = f <$> sortByPosition l.
Proof.
  intros Hf. unfold sortByPosition.
  induction l as [|x l IH]; csimpl; [done|].
  rewrite IH. by apply insertSeat_fmap.
Qed.

Lemma roster_Permutation ps : roster ps ≡ₚ seats ps.
Proof. apply sortByPosition_Permutation. Qed.

Lemma length_roster ps : length (roster ps) = size ps.
Proof.
  rewrite roster_Permutation. unfold seats.
  by rewrite length_fmap, length_map_to_list.
Qed.

Lemma elem_of_seats ps s : s ∈ seats ps ↔ ps !! uid s = Some (seated s).
Proof.
  unfold seats. rewrite list_elem_of_fmap. split.
  - intros ([u p] & -> & Hin). by apply elem_of_map_to_list in Hin.
  - intros Hs. exists (uid s, seated s). split; [by destruct s|].
    by apply elem_of_map_to_list.
Qed.

Lemma elem_of_roster ps s : s ∈ roster ps ↔ ps !! uid s = Some (seated s).
Proof. by rewrite roster_Permutation, elem_of_seats. Qed.

Lemma uid_seats ps : uid <$> seats ps = (map_to_list ps).*1.
Proof. unfold seats. rewrite <-list_fmap_compose. done. Qed.

Lemma NoDup_uid_roster ps : NoDup (uid <$> roster ps).
Proof.
  rewrite roster_Permutation, uid_seats. apply NoDup_fst_map_to_list.
Qed.

(** Changing players without touching their positions changes the roster
    seat by seat. *)
Lemma roster_fmap (f : Player → Player) ps :
  (∀ p, position (f p) = position p) →
  roster (f <$> ps) =
  (λ s, {| uid := uid s; seated := f (seated s) |}) <$> roster ps.
Proof.
  intros Hf. unfold roster. rewrite <-sortByPosition_fmap.
  - f_equal. unfold seats. rewrite map_to_list_fmap, <-!list_fmap_compose.
    apply list_fmap_ext. by intros _ [u p] _.
  - intros s. unfold seatPos. simpl. apply Hf.
Qed.

Lemma seatPos_roster ps : seatPos <$> roster ps ≡ₚ positions ps.
Proof.
  rewrite roster_Permutation. unfold seats, positions.
  by rewrite <-list_fmap_compose.
Qed.

Lemma StronglySorted_seq i n : StronglySorted le (seq i n).
Proof.
  revert i. induction n as [|n IH]; intros i; simpl; constructor; [apply IH|].
  apply Forall_forall. intros x Hx%list_elem_of_In%in_seq. lia.
Qed.

Lemma dense_roster ps : dense ps → seatPos <$> roster ps = seq 0 (size ps).
Proof.
  intros Hd. apply (StronglySorted_unique le).
  - apply (StronglySorted_fmap seatPos byPosition le); [done|].
    apply sortByPosition_Sorted.
  - apply StronglySorted_seq.
  - by rewrite seatPos_roster.
Qed.

Lemma dense_roster_lookup ps i s :
  dense ps → roster ps !! i = Some s → seatPos s = i.
Proof.
  intros Hd Hi. pose proof (dense_roster ps Hd) as Heq.
  assert ((seatPos <$> roster ps) !! i = Some (seatPos s)) as Hl
    by (by rewrite list_lookup_fmap, Hi).
  rewrite Heq in Hl. apply lookup_seq in Hl. lia.
Qed.

(** In a dense roster the seat at index [i] is the player at position [i]. *)
Lemma roster_lookup ps i s :
  dense ps →
  roster ps !! i = Some s ↔ ps !! uid s = Some (seated s) ∧ position (seated s) = i.
Proof.
  intros Hd. split.
  - intros Hi. split; [|by apply (dense_roster_lookup ps)].
    apply elem_of_roster. by eapply list_elem_of_lookup_2.
  - intros [Hs Hp]. apply elem_of_roster, list_elem_of_lookup in Hs as [j Hj].
    pose proof (dense_roster_lookup ps j s Hd Hj) as E. unfold seatPos in E.
    by rewrite <-Hp, E.
Qed.

(** ** Invariants of code run against the store *)

Lemma preserves_ret {A} I (a : A) : preserves I (ret a).
Proof. by intros gs H. Qed.

Lemma preserves_throw {A} I message : preserves I (@throw A message).
Proof. by intros gs H. Qed.

Lemma preserves_gets {A} I (f : GameState → A) : preserves I (gets f).
Proof. by intros gs H. Qed.

Lemma preserves_modify I f :
  (∀ gs, I gs → I (f gs)) → preserves I (modify f).
Proof. intros Hf gs H. by apply Hf. Qed.

Lemma preserves_bind {A B} I (m : Proc A) (k : A → Proc B) :
  preserves I m → (∀ a, preserves I (k a)) → preserves I (bind m k).
Proof.
  intros Hm Hk gs H. unfold bind. specialize (Hm gs H).
  destruct (m gs) as [gs' [a|message]]; simpl in *; [by apply Hk|done].
Qed.

Lemma preserves_forEachFrom {A} I (l : list A) body i :
  (∀ x j, preserves I (body x j)) → preserves I (forEachFrom i l body).
Proof.
  intros Hb. revert i. induction l as [|x l IH]; intros i; simpl.
  - apply preserves_ret.
  - apply preserves_bind; [apply Hb|intros _; apply IH].
Qed.

Lemma preserves_times I n body :
  preserves I body → preserves I (times n body).
Proof.
  intros Hb. induction n as [|n IH]; simpl.
  - apply preserves_ret.
  - by apply preserves_bind.
Qed.

Lemma preserves_updatePlayer I uid message f :
  (∀ gs p, I gs → players gs !! uid = Some p →
           I (set_players (<[uid := f p]> (players gs)) gs)) →
  preserves I (updatePlayer uid message f).
Proof.
  intros Hf gs H. unfold updatePlayer.
  destruct (players gs !! uid) eqn:E; simpl; [by apply Hf|done].
Qed.

Lemma preserves_popDrawPile I :
  (∀ gs, I gs → I (set_drawPile (removelast (drawPile gs)) gs)) →
  preserves I popDrawPile.
Proof. intros Hf gs H. by apply Hf. Qed.

(** Walks through the control structure of a procedure; what is left are
    the single writes. *)
Ltac preserves_step :=
  lazymatch goal with
  | |- preserves _ (ret _) => apply preserves_ret
  | |- preserves _ (throw _) => apply preserves_throw
  | |- preserves _ (gets _) => apply preserves_gets
  | |- preserves _ (bind _ _) => apply preserves_bind; [|intros ?]
  | |- preserves _ (forEachFrom _ _ _) => apply preserves_forEachFrom; intros ? ?
  | |- preserves _ (times _ _) => apply preserves_times
  | |- preserves _ (modify _) => apply preserves_modify; intros ? ?
  | |- preserves _ (updatePlayer _ _ _) => apply preserves_updatePlayer; intros ? ? ? ?
  | |- preserves _ popDrawPile => apply preserves_popDrawPile; intros ? ?
  | |- preserves _ (if decide _ then _ else _) => case_decide
  | |- preserves _ (if ?b then _ else _) => destruct b
  | |- preserves _ (match ?x with _ => _ end) => destruct x
  | |- preserves _ ((match ?x with _ => _ end) _) => destruct x; cbv beta
  end.

Ltac preserves_walk := repeat preserves_step.

(** ** Field updates *)

Lemma set_players_id gs : set_players (players gs) gs = gs.
Proof. by destruct gs. Qed.

Lemma bind_modify {B} f (k : unit → Proc B) gs :
  bind (modify f) k gs = k tt (f gs).
Proof. done. Qed.

Lemma bind_gets {A B} (f : GameState → A) (k : A → Proc B) gs :
  bind (gets f) k gs = k (f gs) gs.
Proof. done. Qed.

(** ** Dense positions under the writes of the roster *)

Lemma positions_insert_keep ps u p p' :
  ps !! u = Some p → position p' = position p →
  positions (<[u := p']> ps) ≡ₚ positions ps.
Proof.
  intros Hu Hp. unfold positions.
  rewrite <-(insert_delete_eq ps u p').
  rewrite map_to_list_insert by apply lookup_delete_eq.
  rewrite <-(map_to_list_delete ps u p Hu). csimpl. by rewrite Hp.
Qed.

Lemma dense_insert_keep ps u p p' :
  ps !! u = Some p → position p' = position p →
  dense ps → dense (<[u := p']> ps).
Proof.
  intros Hu Hp Hd. unfold dense.
  rewrite (positions_insert_keep ps u p p' Hu Hp).
  rewrite map_size_insert_Some by eauto. done.
Qed.

Lemma dense_insert_new ps u p :
  ps !! u = None → position p = size ps →
  dense ps → dense (<[u := p]> ps).
Proof.
  intros Hu Hp Hd. unfold dense, positions in *.
  rewrite map_to_list_insert by done.
  rewrite map_size_insert_None by done.
  rewrite seq_S, fmap_cons, Hd. simpl. rewrite Hp. apply Permutation_cons_append.
Qed.

Lemma dense_position_lt ps u p : dense ps → ps !! u = Some p → position p < size ps.
Proof.
  intros Hd Hu.
  assert (position p ∈ positions ps) as Hin.
  { unfold positions. apply list_elem_of_fmap. exists (u, p).
    split; [done|]. by apply elem_of_map_to_list. }
  unfold dense in Hd. rewrite Hd in Hin.
  apply list_elem_of_In, in_seq in Hin. lia.
Qed.

Lemma dense_position_inj ps u v p q :
  dense ps → ps !! u = Some p → ps !! v = Some q →
  position p = position q → u = v.
Proof.
  intros Hd Hu Hv Hpq.
  assert (roster ps !! position p = Some {| uid := u; seated := p |}) as H1
    by (by apply roster_lookup).
  assert (roster ps !! position p = Some {| uid := v; seated := q |}) as H2
    by (by apply roster_lookup).
  congruence.
Qed.

(** ** Joining and leaving *)

Lemma addPlayer_eq u gs :
  addPlayer u gs =
  (set_players
     (<[u := {| status := waiting; position := size (players gs);
                hand := []; isOnline := true |}]> (players gs)) gs,
   Normal tt).
Proof.
  unfold addPlayer. rewrite bind_gets. unfold playersArray.
  by rewrite length_roster.
Qed.

Lemma renumber_keys i l : (renumber i l).*1 = uid <$> l.
Proof. revert i. induction l as [|s l IH]; intros i; csimpl; [done|]. by rewrite IH. Qed.

Lemma length_renumber i l : length (renumber i l) = length l.
Proof. by rewrite <-(length_fmap fst), renumber_keys, length_fmap. Qed.

Lemma renumber_positions i l :
  (λ kv, position kv.2) <$> renumber i l = seq i (length l).
Proof. revert i. induction l as [|s l IH]; intros i; csimpl; [done|]. by rewrite IH. Qed.

Lemma elem_of_renumber i l u p :
  (u, p) ∈ renumber i l ↔
  ∃ j s, l !! j = Some s ∧ u = uid s ∧ p = set_position (i + j) (seated s).
Proof.
  revert i. induction l as [|s l IH]; intros i; simpl.
  - rewrite elem_of_nil. split; [done|]. by intros (j & t & Hj & _).
  - rewrite elem_of_cons, IH. split.
    + intros [[= -> ->]|(j & t & Hj & -> & ->)].
      * exists 0, s. by rewrite Nat.add_0_r.
      * exists (S j), t. by rewrite Nat.add_succ_r.
    + intros ([|j] & t & Hj & -> & ->); simpl in Hj.
      * left. simplify_eq. by rewrite Nat.add_0_r.
      * right. exists j, t. by rewrite Nat.add_succ_r.
Qed.

Lemma forEachFrom_renumber message l i gs :
  NoDup (uid <$> l) →
  (∀ s, s ∈ l → players gs !! uid s = Some (seated s)) →
  forEachFrom i l (λ s j, updatePlayer (uid s) message (set_position j)) gs =
  (set_players (list_to_map (renumber i l) ∪ players gs) gs, Normal tt).
Proof.
  revert i gs. induction l as [|x l IH]; intros i gs Hnd Hin; csimpl.
  - by rewrite (left_id_L ∅ (∪)), set_players_id.
  - rewrite fmap_cons in Hnd. apply NoDup_cons in Hnd as [Hx Hnd].
    unfold bind at 1, updatePlayer at 1.
    rewrite (Hin x) by left. rewrite IH; [|done|]; simpl.
    + unfold set_players; simpl. do 2 f_equal.
      rewrite <-insert_union_l. symmetry. apply insert_union_r.
      apply not_elem_of_list_to_map. by rewrite renumber_keys.
    + intros s Hs. rewrite lookup_insert_ne; [apply Hin; by right|].
      intros E. apply Hx. rewrite E. by apply list_elem_of_fmap_2.
Qed.

Lemma forEachFrom_ext {A} (l : list A) i body body' gs :
  (∀ x j g, body x j g = body' x j g) →
  forEachFrom i l body gs = forEachFrom i l body' gs.
Proof.
  intros Hb. revert i gs. induction l as [|x l IH]; intros i gs; simpl; [done|].
  unfold bind. rewrite Hb. destruct (body' x i gs) as [g [[]|m]]; [apply IH|done].
Qed.

Lemma removePlayer_eq u gs :
  removePlayer u gs =
  (set_players (list_to_map (renumber 0 (roster (delete u (players gs))))) gs,
   Normal tt).
Proof.
  unfold removePlayer. rewrite bind_modify, bind_gets. unfold forEach, playersArray.
  simpl players.
  rewrite (forEachFrom_ext _ _ _
             (λ s j, updatePlayer (uid s) (cannotSet "position") (set_position j)))
    by (by intros [] ? ?).
  rewrite forEachFrom_renumber; simpl.
  - unfold set_players; simpl. do 2 f_equal. apply map_eq. intros k.
    rewrite lookup_union. destruct (delete u (players gs) !! k) as [p|] eqn:E.
    + assert (is_Some (list_to_map (M := gmap string Player)
                (renumber 0 (roster (delete u (players gs)))) !! k)) as [q Hq].
      { apply not_eq_None_Some. intros Hn%not_elem_of_list_to_map.
        apply Hn. rewrite renumber_keys.
        apply (list_elem_of_fmap_2 uid _ {| uid := k; seated := p |}).
        by apply elem_of_roster. }
      by rewrite Hq.
    + by rewrite (right_id None _).
  - apply NoDup_uid_roster.
  - intros s Hs. by apply elem_of_roster.
Qed.

Lemma renumbered_lookup ps u p :
  list_to_map (M := gmap string Player) (renumber 0 (roster ps)) !! u = Some p ↔
  ∃ j s, roster ps !! j = Some s ∧ u = uid s ∧ p = set_position j (seated s).
Proof.
  rewrite <-elem_of_list_to_map, elem_of_renumber; [done|].
  rewrite renumber_keys. apply NoDup_uid_roster.
Qed.

Lemma dense_renumbered ps :
  dense (list_to_map (renumber 0 (roster ps))).
Proof.
  assert (map_to_list (list_to_map (M := gmap string Player)
            (renumber 0 (roster ps))) ≡ₚ renumber 0 (roster ps)) as Hp.
  { apply map_to_list_to_map. rewrite renumber_keys. apply NoDup_uid_roster. }
  unfold dense, positions.
  rewrite <-length_map_to_list, Hp, renumber_positions.
  by rewrite length_renumber.
Qed.

(** ** The branches of the dispatch *)

(** An invariant that no write of [dispatch] can break: it does not look at
    the players or the cards, and it survives the phase becoming [ingame]. *)
Lemma preserves_dispatch I o pl c :
  (∀ gs ps, I gs → I (set_players ps gs)) →
  (∀ gs, I gs → I (set_phase ingame gs)) →
  (∀ gs v, I gs → I (set_activePlayerUid v gs)) →
  (∀ gs v, I gs → I (set_drawPile v gs)) →
  (∀ gs v, I gs → I (set_cardMap v gs)) →
  (∀ gs v, I gs → I (set_discardPile v gs)) →
  (∀ gs v, I gs → I (set_prototypeIsOnline v gs)) →
  preserves I (dispatch o pl c).
Proof.
  intros ? ? ? ? ? ? ?.
  unfold dispatch, setIsOnline, addPlayer, removePlayer, startGame, forEach, dealCard.
  preserves_walk; auto.
Qed.

Lemma dispatch_commands o pl c gs : commands (dispatch o pl c gs).1 = commands gs.
Proof. by apply (preserves_dispatch (λ g, commands g = commands gs)). Qed.

Lemma dispatch_ingame o pl c gs :
  phase gs = ingame → phase (dispatch o pl c gs).1 = ingame.
Proof. by apply (preserves_dispatch (λ g, phase g = ingame)). Qed.

Lemma dispatch_other o pl c gs :
  prop "id" c ≠ JsString "connect-to-room" ∧
  prop "id" c ≠ JsString "disconnect-from-room" ∧
  prop "id" c ≠ JsString "toggle-ready" →
  dispatch o pl c gs = (gs, Normal tt).
Proof. intros (? & ? & ?). unfold dispatch. by repeat case_decide. Qed.

(** ** Looking a uid up *)

Lemma inherited_not_player name gs p : inherited name gs ≠ memberPlayer p.
Proof.
  unfold inherited. repeat case_decide; try done.
  by destruct (prototypeIsOnline gs).
Qed.

Lemma playersAt_seated uid gs p :
  players gs !! uid = Some p → playersAt uid gs = memberPlayer p.
Proof. intros H. unfold playersAt. by rewrite H. Qed.

Lemma playersAt_player uid gs p :
  playersAt uid gs = memberPlayer p ↔ players gs !! uid = Some p.
Proof.
  unfold playersAt. destruct (players gs !! uid) as [q|]; split; try congruence.
  intros H. by apply inherited_not_player in H.
Qed.

Lemma playersAt_not_player uid gs :
  (∀ p, playersAt uid gs ≠ memberPlayer p) → players gs !! uid = None.
Proof.
  intros H. destruct (players gs !! uid) as [p|] eqn:E; [|done].
  by apply playersAt_seated, H in E.
Qed.

(** A uid that names no property of [Object.prototype] is [undefined] in
    [gameState.players] unless it is seated, as long as nothing has been
    written to [Object.prototype]. *)
Lemma inherited_ordinary name gs :
  name ∉ objectPrototypeNames → prototypeIsOnline gs = None →
  inherited name gs = memberUndefined.
Proof.
  intros Hn Hp. unfold inherited. rewrite decide_False by done.
  rewrite Hp. by case_decide.
Qed.

Lemma set_prototypeIsOnline_id gs :
  set_prototypeIsOnline (prototypeIsOnline gs) gs = gs.
Proof. by destruct gs. Qed.

Lemma builtinWritten_eq uid v gs :
  ∃ w, builtinWritten uid v gs = set_prototypeIsOnline w gs.
Proof.
  unfold builtinWritten. case_decide; [by eexists|].
  exists (prototypeIsOnline gs). by rewrite set_prototypeIsOnline_id.
Qed.

Lemma flipped_seated uid ps p :
  ps !! uid = Some p → flipped uid ps = <[uid := toggled p]> ps.
Proof. intros H. unfold flipped. by rewrite H. Qed.

Lemma flipped_unseated uid ps : ps !! uid = None → flipped uid ps = ps.
Proof. intros H. unfold flipped. by rewrite H. Qed.

(** The flip changes nothing of a player but the status. *)
Lemma flipped_lookup uid ps v q :
  flipped uid ps !! v = Some q →
  ∃ p, ps !! v = Some p ∧ position q = position p ∧ hand q = hand p ∧
       isOnline q = isOnline p.
Proof.
  unfold flipped. destruct (ps !! uid) as [p|] eqn:E; [|by eauto].
  intros [[-> <-]|[_ Hq]]%lookup_insert_Some; eauto.
Qed.

Lemma size_flipped uid ps : size (flipped uid ps) = size ps.
Proof.
  unfold flipped. destruct (ps !! uid) as [p|] eqn:E; [|done].
  apply map_size_insert_Some. eauto.
Qed.

Lemma dom_flipped uid (ps : gmap string Player) : dom (flipped uid ps) = dom ps.
Proof.
  unfold flipped. destruct (ps !! uid) as [p|] eqn:E; [|done].
  rewrite dom_insert_L.
  apply subseteq_union_1_L, singleton_subseteq_l. by eapply elem_of_dom_2.
Qed.

Lemma dense_flipped uid ps : dense ps → dense (flipped uid ps).
Proof.
  unfold flipped. destruct (ps !! uid) as [p|] eqn:E; [|done].
  by apply (dense_insert_keep ps uid p).
Qed.

Lemma dispatch_connect o pl c gs :
  prop "id" c = JsString "connect-to-room" →
  dispatch o pl c gs =
  match players gs !! pl with
  | Some p => (set_players (<[pl := set_isOnline true p]> (players gs)) gs, Normal tt)
  | None =>
      match inherited pl gs with
      | memberUndefined =>
          if decide (phase gs = pregame) then addPlayer pl gs else (gs, Normal tt)
      | memberBoolean b => (gs, Throw (cannotCreate "isOnline" b))
      | _ => (builtinWritten pl true gs, Normal tt)
      end
  end.
Proof.
  intros Hid. unfold dispatch. rewrite Hid, decide_True by done.
  unfold setIsOnline, playersAt. rewrite bind_gets.
  destruct (players gs !! pl) as [p|] eqn:E.
  - rewrite bind_gets, E. unfold updatePlayer. by rewrite E.
  - destruct (inherited pl gs) as [p| |b|] eqn:Hi.
    + by apply inherited_not_player in Hi.
    + rewrite bind_gets, E, Hi. unfold builtinWritten. by case_decide.
    + by rewrite bind_gets, E, Hi.
    + rewrite bind_gets. by case_decide.
Qed.

Lemma dispatch_disconnect o pl c gs :
  prop "id" c = JsString "disconnect-from-room" →
  dispatch o pl c gs =
  match players gs !! pl with
  | Some p =>
      if decide (phase gs = ingame)
      then (set_players (<[pl := set_isOnline false p]> (players gs)) gs, Normal tt)
      else removePlayer pl gs
  | None =>
      match inherited pl gs with
      | memberUndefined => (gs, Normal tt)
      | memberBoolean b =>
          if decide (phase gs = ingame)
          then (gs, Throw (cannotCreate "isOnline" b))
          else removePlayer pl gs
      | _ =>
          if decide (phase gs = ingame)
          then (builtinWritten pl false gs, Normal tt)
          else removePlayer pl gs
      end
  end.
Proof.
  intros Hid. unfold dispatch. rewrite Hid.
  rewrite decide_False, decide_True by done.
  unfold setIsOnline, playersAt. rewrite bind_gets.
  destruct (players gs !! pl) as [p|] eqn:E.
  - rewrite bind_gets. case_decide; [|done].
    rewrite bind_gets, E. unfold updatePlayer. by rewrite E.
  - destruct (inherited pl gs) as [p| |b|] eqn:Hi.
    + by apply inherited_not_player in Hi.
    + rewrite bind_gets. case_decide; [|done].
      rewrite bind_gets, E, Hi. unfold builtinWritten. by case_decide.
    + rewrite bind_gets. case_decide; [|done].
      by rewrite bind_gets, E, Hi.
    + done.
Qed.

Lemma dispatch_toggle o pl c gs :
  prop "id" c = JsString "toggle-ready" →
  dispatch o pl c gs =
  if decide (phase gs = ingame) then (gs, Throw "Game has already started")
  else match playersAt pl gs with
       | memberUndefined => (gs, Throw (cannotRead "status"))
       | _ =>
           let gs1 := set_players (flipped pl (players gs)) gs in
           if everyReady gs1 then startGame o None gs1 else (gs1, Normal tt)
       end.
Proof.
  intros Hid. unfold dispatch. rewrite Hid.
  rewrite !decide_False, decide_True by done.
  rewrite bind_gets. case_decide; [done|].
  rewrite bind_gets. unfold everyReady.
  destruct (playersAt pl gs) as [p| |b|] eqn:Hat; [| | |done].
  - apply playersAt_player in Hat. rewrite (flipped_seated _ _ _ Hat).
    unfold bind at 1. unfold toggled.
    destruct (status p) eqn:Hs;
      [rewrite decide_True by done|rewrite decide_False, decide_True by done];
      unfold updatePlayer; rewrite Hat; cbv beta iota zeta; rewrite bind_gets;
      by destruct (forallb _ _).
  - rewrite flipped_unseated, set_players_id
      by (apply playersAt_not_player; congruence).
    unfold bind at 1, ret. cbv beta iota zeta. rewrite bind_gets.
    by destruct (forallb _ _).
  - rewrite flipped_unseated, set_players_id
      by (apply playersAt_not_player; congruence).
    unfold bind at 1, ret. cbv beta iota zeta. rewrite bind_gets.
    by destruct (forallb _ _).
Qed.

Lemma dispatch_toggle_seated o pl c gs p :
  prop "id" c = JsString "toggle-ready" →
  players gs !! pl = Some p →
  dispatch o pl c gs =
  if decide (phase gs = ingame) then (gs, Throw "Game has already started")
  else let gs1 := set_players (<[pl := toggled p]> (players gs)) gs in
       if everyReady gs1 then startGame o None gs1 else (gs1, Normal tt).
Proof.
  intros Hid Hp. rewrite dispatch_toggle by done.
  by rewrite (playersAt_seated _ _ _ Hp), (flipped_seated _ _ _ Hp).
Qed.

Lemma players_builtinWritten uid v gs : players (builtinWritten uid v gs) = players gs.
Proof. unfold builtinWritten. by case_decide. Qed.

Lemma phase_builtinWritten uid v gs : phase (builtinWritten uid v gs) = phase gs.
Proof. unfold builtinWritten. by case_decide. Qed.

(** What [connect-to-room] and [disconnect-from-room] do to the phase and to
    the players. *)
Lemma dispatch_connect_players o pl c gs :
  prop "id" c = JsString "connect-to-room" →
  phase (dispatch o pl c gs).1 = phase gs ∧
  players (dispatch o pl c gs).1 =
  match players gs !! pl with
  | Some p => <[pl := set_isOnline true p]> (players gs)
  | None =>
      match inherited pl gs with
      | memberUndefined =>
          if decide (phase gs = pregame)
          then <[pl := joined (size (players gs))]> (players gs)
          else players gs
      | _ => players gs
      end
  end.
Proof.
  intros Hid. rewrite dispatch_connect by done.
  destruct (players gs !! pl); [done|].
  destruct (inherited pl gs); simpl;
    rewrite ?players_builtinWritten, ?phase_builtinWritten; try done.
  case_decide; [|done]. by rewrite addPlayer_eq.
Qed.

Lemma dispatch_disconnect_players o pl c gs :
  prop "id" c = JsString "disconnect-from-room" →
  phase (dispatch o pl c gs).1 = phase gs ∧
  players (dispatch o pl c gs).1 =
  match players gs !! pl with
  | Some p =>
      if decide (phase gs = ingame)
      then <[pl := set_isOnline false p]> (players gs)
      else players (removePlayer pl gs).1
  | None =>
      match inherited pl gs with
      | memberUndefined => players gs
      | _ =>
          if decide (phase gs = ingame)
          then players gs
          else players (removePlayer pl gs).1
      end
  end.
Proof.
  intros Hid. rewrite dispatch_disconnect by done.
  assert (phase (removePlayer pl gs).1 = phase gs) as Hrem
    by (by rewrite removePlayer_eq).
  destruct (players gs !! pl); [by case_decide|].
  destruct (inherited pl gs); try case_decide; simpl;
    by rewrite ?players_builtinWritten, ?phase_builtinWritten.
Qed.

Lemma everyReady_spec gs :
  everyReady gs = true ↔ ∀ u p, players gs !! u = Some p → status p = ready.
Proof.
  unfold everyReady, playersArray. rewrite forallb_forall. split.
  - intros H u p Hu.
    specialize (H {| uid := u; seated := p |}). rewrite bool_decide_eq_true in H.
    apply H. by apply list_elem_of_In, elem_of_roster.
  - intros H s Hs%list_elem_of_In%elem_of_roster.
    apply bool_decide_eq_true. by eapply H.
Qed.

(** ** Starting the game: the guard and the phase *)

Lemma startGame_few o sp gs :
  size (players gs) ≤ 1 →
  startGame o sp gs = (gs, Throw "Need at least two players to start game").
Proof.
  intros Hn. unfold startGame. rewrite bind_gets. unfold playersArray.
  rewrite length_roster. by rewrite decide_True.
Qed.

Lemma startGame_ingame o sp gs :
  2 ≤ size (players gs) → phase (startGame o sp gs).1 = ingame.
Proof.
  intros Hn. unfold startGame. rewrite bind_gets.
  case_decide as Hlen.
  { unfold playersArray in Hlen. rewrite length_roster in Hlen. lia. }
  rewrite bind_modify.
  match goal with
  | |- phase (?m _).1 = _ => assert (preserves (λ g, phase g = ingame) m) as Hm
  end.
  { unfold forEach, dealCard. preserves_walk; auto. }
  by apply Hm.
Qed.

Lemma startGame_dense o sp : preserves (λ g, dense (players g)) (startGame o sp).
Proof.
  unfold startGame, forEach, dealCard. preserves_walk; auto.
  simpl. by eapply dense_insert_keep.
Qed.

(** ** The broadcast *)

Lemma foldl_insert_lookup {V} (f : string → V) ks (m : gmap string V) u :
  foldl (λ obj k, <[k := f k]> obj) m ks !! u =
  if decide (u ∈ ks) then Some (f u) else m !! u.
Proof.
  revert m. induction ks as [|k ks IH]; intros m; cbn [foldl].
  - by rewrite decide_False by apply not_elem_of_nil.
  - rewrite IH. destruct (decide (u ∈ ks)) as [Hin|Hin].
    + by rewrite decide_True by (by right).
    + destruct (decide (k = u)) as [->|Hne].
      * rewrite decide_True by left. apply lookup_insert_eq.
      * rewrite decide_False by (by intros [?|?]%elem_of_cons).
        by apply lookup_insert_ne.
Qed.

(** Every known player, and nobody else, is sent a view. *)
Lemma clientStates_lookup gs u :
  clientStates gs !! u = (λ _, evalClientState gs u) <$> players gs !! u.
Proof.
  unfold clientStates. rewrite foldl_insert_lookup, lookup_empty.
  destruct (players gs !! u) as [p|] eqn:E; simpl.
  - rewrite decide_True; [done|].
    apply list_elem_of_fmap. exists (u, p). split; [done|].
    by apply elem_of_map_to_list.
  - rewrite decide_False; [done|].
    intros ([u' p] & -> & Hin)%list_elem_of_fmap.
    apply elem_of_map_to_list in Hin. simpl in E. congruence.
Qed.

Lemma executeCommand_ok o cc gs g :
  dispatch o (player cc) (command cc) gs = (g, Normal tt) →
  executeCommand o cc gs =
  (set_commands (commands g ++ [cc]) g, [broadcastUpdate (clientStates g)]).
Proof. intros H. unfold executeCommand. by rewrite H. Qed.

Lemma executeCommand_throw o cc gs g message :
  dispatch o (player cc) (command cc) gs = (g, Throw message) →
  executeCommand o cc gs = (g, [rejection cc message]).
Proof. intros H. unfold executeCommand. by rewrite H. Qed.

(** ** C10: the view does not depend on the viewer *)

(** C10. [evalClientState] is a function of the store alone: it returns the
    same view for any two viewer identifiers (and, being a function, the same
    view each time it is evaluated on the same store), so the object handed
    to [broadcastUpdate] maps every known player to one and the same view. *)
Theorem evalClientState_viewer_independent (gs : GameState) :
  (∀ u v, evalClientState gs u = evalClientState gs v) ∧
  (∀ u v, clientStates gs !! u = (λ _, evalClientState gs v) <$> players gs !! u).
Proof.
  split; [done|]. intros u v. by rewrite clientStates_lookup.
Qed.

(** ** C9: stub and unrecognised commands *)

Lemma stub_not_core i :
  i ∈ stubIds →
  i ≠ "connect-to-room" ∧ i ≠ "disconnect-from-room" ∧ i ≠ "toggle-ready".
Proof.
  unfold stubIds. rewrite !elem_of_cons, elem_of_nil.
  intros H. repeat destruct H as [->|H]; done.
Qed.

Lemma other_ids (c : Command) :
  ((∃ i, i ∈ stubIds ∧ prop "id" c = JsString i) ∨
   (∀ i, i ∈ vocabulary → prop "id" c ≠ JsString i)) →
  prop "id" c ≠ JsString "connect-to-room" ∧
  prop "id" c ≠ JsString "disconnect-from-room" ∧
  prop "id" c ≠ JsString "toggle-ready".
Proof.
  intros [(i & Hi & ->)|Hi].
  - apply stub_not_core in Hi as (? & ? & ?). repeat split; congruence.
  - repeat split; apply Hi; unfold vocabulary; set_solver.
Qed.

(** C9. A command whose identifier is one of the eight stubs, or is outside
    the vocabulary, changes nothing in the store but the command log, to which
    the [{player, command}] pair is appended, and broadcasts to every known
    player the view projected from that unchanged store. *)
Theorem stub_command_broadcasts_unchanged_state o cc gs :
  ((∃ i, i ∈ stubIds ∧ prop "id" (command cc) = JsString i) ∨
   (∀ i, i ∈ vocabulary → prop "id" (command cc) ≠ JsString i)) →
  executeCommand o cc gs =
    (set_commands (commands gs ++ [cc]) gs, [broadcastUpdate (clientStates gs)]) ∧
  (∀ u, clientStates gs !! u = (λ _, evalClientState gs u) <$> players gs !! u).
Proof.
  intros Hid. split; [|apply clientStates_lookup].
  apply executeCommand_ok. by apply dispatch_other, other_ids.
Qed.

Lemma stub_command_broadcasts_unchanged_state_witness :
  ((∃ i, i ∈ stubIds ∧
         prop "id" (command (send (sampleOracle 10) "A" "peek").2) = JsString i) ∨
   (∀ i, i ∈ vocabulary →
         prop "id" (command (send (sampleOracle 10) "A" "peek").2) ≠ JsString i)) ∧
  executeCommand (sampleOracle 10) (send (sampleOracle 10) "A" "peek").2 sampleGame =
    (set_commands
       (commands sampleGame ++ [(send (sampleOracle 10) "A" "peek").2]) sampleGame,
     [broadcastUpdate (clientStates sampleGame)]).
Proof.
  assert ((∃ i, i ∈ stubIds ∧
             prop "id" (command (send (sampleOracle 10) "A" "peek").2) = JsString i) ∨
          (∀ i, i ∈ vocabulary →
             prop "id" (command (send (sampleOracle 10) "A" "peek").2) ≠ JsString i))
    as H.
  { left. exists "peek". split; [|reflexivity].
    unfold stubIds. rewrite !elem_of_cons. tauto. }
  split; [exact H|].
  exact (proj1 (stub_command_broadcasts_unchanged_state _ _ sampleGame H)).
Defined.

(** ** The view, part by part *)

Lemma view_drawPile gs viewer :
  ClientState.drawPile (evalClientState gs viewer) =
  {| topCard := toFaceDown <$> last (drawPile gs);
     count := length (drawPile gs) |}.
Proof.
  simpl. f_equal. rewrite last_lookup. case_decide as Hn.
  - by replace (pred (length (drawPile gs))) with (length (drawPile gs) - 1) by lia.
  - destruct (drawPile gs); [done|simpl in Hn; lia].
Qed.

Lemma view_discardPile gs viewer :
  ClientState.discardPile (evalClientState gs viewer) =
  {| topCard := (λ card, <["orientation" := JsString "up"]> card)
                  <$> last (discardPile gs);
     count := length (discardPile gs) |}.
Proof.
  simpl. f_equal. rewrite last_lookup. case_decide as Hn.
  - replace (pred (length (discardPile gs))) with (length (discardPile gs) - 1)
      by lia.
    destruct (lookup_lt_is_Some_2 (discardPile gs) (length (discardPile gs) - 1))
      as [c Hc]; [lia|]. by rewrite Hc.
  - destruct (discardPile gs); [done|simpl in Hn; lia].
Qed.

Lemma view_players_lookup gs viewer i :
  ClientState.players (evalClientState gs viewer) !! i =
  (λ s, {| uid := uid s;
           seated :=
             set_hand
               ((λ card, if decide (prop "orientation" card = JsString "up")
                         then toFaceUp gs card else toFaceDown card)
                  <$> hand (seated s)) (seated s) |})
    <$> playersArray gs !! i.
Proof. simpl. by rewrite list_lookup_fmap. Qed.

(** ** C2: what the view shows of hidden cards *)

Lemma toFaceDown_dom card : dom (toFaceDown card) = {[ "id"; "orientation" ]}.
Proof. unfold toFaceDown. by rewrite dom_insert_L, dom_singleton_L. Qed.

Lemma toFaceDown_orientation card :
  prop "orientation" (toFaceDown card) = JsString "down".
Proof. done. Qed.

Lemma elem_of_handCards ps card :
  card ∈ handCards ps ↔ ∃ u p, ps !! u = Some p ∧ card ∈ hand p.
Proof.
  unfold handCards. rewrite list_elem_of_join. split.
  - intros (l & Hc & ([u p] & -> & Hin%elem_of_map_to_list)%list_elem_of_fmap).
    eauto.
  - intros (u & p & Hp & Hc). exists (hand p). split; [done|].
    apply list_elem_of_fmap. exists (u, p). by rewrite elem_of_map_to_list.
Qed.

Lemma elem_of_faceUpKeys gs k :
  k ∈ faceUpKeys gs ↔
  ∃ u p card, players gs !! u = Some p ∧ card ∈ hand p ∧
              prop "orientation" card = JsString "up" ∧
              toPropertyKey (prop "id" card) = k.
Proof.
  unfold faceUpKeys. rewrite elem_of_list_to_set, list_elem_of_fmap. split.
  - intros (card & -> & [Hup (u & p & Hp & Hc)%elem_of_handCards]%list_elem_of_filter).
    eauto 10.
  - intros (u & p & card & Hp & Hc & Hup & <-). exists card. split; [done|].
    apply list_elem_of_filter. split; [done|]. apply elem_of_handCards. eauto.
Qed.

(** The erased store holds the card-map entries the view looks up. *)
Lemma toFaceUp_veil gs u p card :
  players gs !! u = Some p → card ∈ hand p →
  prop "orientation" card = JsString "up" →
  toFaceUp (veil gs) card = toFaceUp gs card.
Proof.
  intros Hp Hc Hup. unfold toFaceUp. f_equal. f_equal. simpl.
  assert (toPropertyKey (prop "id" card) ∈ faceUpKeys gs) as Hk
    by (apply elem_of_faceUpKeys; eauto 10).
  destruct (cardMap gs !! toPropertyKey (prop "id" card)) as [entry|] eqn:E.
  - by apply map_lookup_filter_Some_2.
  - apply map_lookup_filter_None_2. by left.
Qed.

Lemma evalClientState_veil gs viewer viewer' :
  evalClientState (veil gs) viewer' = evalClientState gs viewer.
Proof.
  unfold evalClientState at 1 2. unfold playersArray.
  cbn [veil phase activePlayerUid discardPile drawPile players
       set_cardMap set_drawPile set_players].
  rewrite !length_fmap. f_equal.
  - f_equal. case_decide; [|done].
    rewrite list_lookup_fmap. by destruct (drawPile gs !! _).
  - rewrite roster_fmap by done. rewrite <-list_fmap_compose.
    apply list_fmap_ext. intros i s Hs.
    assert (players gs !! uid s = Some (seated s)) as Hseat
      by (apply elem_of_roster; by eapply list_elem_of_lookup_2).
    unfold set_hand. cbn. do 2 f_equal.
    rewrite <-list_fmap_compose. apply list_fmap_ext. intros j card Hcard. cbn.
    unfold veilCard.
    destruct (decide (prop "orientation" card = JsString "up")) as [Hup|Hdn].
    + rewrite decide_True by done.
      apply (toFaceUp_veil gs (uid s) (seated s)); [done| |done].
      by eapply list_elem_of_lookup_2.
    + by rewrite toFaceDown_orientation, decide_False.
Qed.

(** C2. In the view of any store and for any viewer, a hand card that is not
    face up appears as [{ id, orientation: "down" }] and nothing else, and of
    the draw pile only the top card appears, in that same reduced form, with
    the number of cards.  Every object the view holds, in any of its
    fields, is the top of the discard pile turned face up, or the card-map
    entry of a hand card that lies face up, or the reduced form of the
    draw-pile top or of a hand card that is not face up.  And the
    view is a function of the erased store [veil gs], in which no draw-pile
    card and no hand card that is not face up has anything but identifier
    and orientation, and in which the card map has no entry but under the
    identifier of a hand card lying face up: two stores that agree once
    erased give the same view. *)
Theorem evalClientState_hides_face_down_payload (gs : GameState) (viewer : string) :
  let v := evalClientState gs viewer in
  (∀ card, dom (toFaceDown card) = {[ "id"; "orientation" ]} ∧
           toFaceDown card !! "id" = Some (prop "id" card) ∧
           toFaceDown card !! "orientation" = Some (JsString "down")) ∧
  topCard (ClientState.drawPile v) = toFaceDown <$> last (drawPile gs) ∧
  count (ClientState.drawPile v) = length (drawPile gs) ∧
  length (ClientState.players v) = length (playersArray gs) ∧
  (∀ i s j card,
     playersArray gs !! i = Some s →
     hand (seated s) !! j = Some card →
     prop "orientation" card ≠ JsString "up" →
     ∃ s', ClientState.players v !! i = Some s' ∧ uid s' = uid s ∧
           length (hand (seated s')) = length (hand (seated s)) ∧
           hand (seated s') !! j = Some (toFaceDown card)) ∧
  (∀ shown, shown ∈ viewObjects v →
     (∃ top, last (discardPile gs) = Some top ∧
             shown = <["orientation" := JsString "up"]> top) ∨
     (∃ u p card, players gs !! u = Some p ∧ card ∈ hand p ∧
                  prop "orientation" card = JsString "up" ∧
                  shown = toFaceUp gs card) ∨
     (∃ card,
        (last (drawPile gs) = Some card ∨
         ∃ u p, players gs !! u = Some p ∧ card ∈ hand p ∧
                prop "orientation" card ≠ JsString "up") ∧
        shown = toFaceDown card)) ∧
  (∀ card, card ∈ drawPile (veil gs) → dom card = {[ "id"; "orientation" ]}) ∧
  (∀ u p card,
     players (veil gs) !! u = Some p → card ∈ hand p →
     prop "orientation" card ≠ JsString "up" →
     dom card = {[ "id"; "orientation" ]}) ∧
  (∀ k, k ∈ dom (cardMap (veil gs)) →
     ∃ u p card, players gs !! u = Some p ∧ card ∈ hand p ∧
                 prop "orientation" card = JsString "up" ∧
                 toPropertyKey (prop "id" card) = k) ∧
  (∀ gs' viewer',
     veil gs' = veil gs → evalClientState gs' viewer' = v).
Proof.
  intros v.
  split; [intros card; split; [apply toFaceDown_dom|done]|].
  split; [|split; [|split; [|split; [|split; [|split; [|split; [|split]]]]]]].
  - simpl. rewrite last_lookup. case_decide as Hn.
    + by replace (pred (length (drawPile gs))) with (length (drawPile gs) - 1) by lia.
    + destruct (drawPile gs); [done|simpl in Hn; lia].
  - done.
  - simpl. by rewrite length_fmap.
  - intros i s j card Hs Hc Hup. simpl. rewrite list_lookup_fmap, Hs. simpl.
    eexists. split; [done|]. simpl. rewrite length_fmap, list_lookup_fmap, Hc.
    simpl. by rewrite decide_False.
  - intros shown. unfold viewObjects, v.
    rewrite view_discardPile, view_drawPile. cbn [topCard ClientState.actionQueue
      evalClientState ClientState.players].
    rewrite !elem_of_app. intros [Hq|[Hdisc|[Hdraw|Hhand]]].
    + by apply elem_of_nil in Hq.
    + left. destruct (last (discardPile gs)) as [top|]; simpl in Hdisc.
      * apply list_elem_of_singleton in Hdisc. eauto.
      * by apply elem_of_nil in Hdisc.
    + right; right. destruct (last (drawPile gs)) as [card|]; simpl in Hdraw.
      * apply list_elem_of_singleton in Hdraw. eauto.
      * by apply elem_of_nil in Hdraw.
    + apply list_elem_of_join in Hhand as (l & Hshown & Hl).
      apply list_elem_of_fmap in Hl as (s' & -> & Hs').
      apply list_elem_of_fmap in Hs' as (s & -> & Hs). simpl in Hshown.
      apply list_elem_of_fmap in Hshown as (card & -> & Hcard).
      apply elem_of_roster in Hs.
      case_decide as Hup; [right; left; eauto 10|right; right; eauto 10].
  - intros card. simpl. intros (c & -> & _)%list_elem_of_fmap.
    apply toFaceDown_dom.
  - intros u p card. simpl. rewrite lookup_fmap.
    destruct (players gs !! u) as [p0|]; [|done]. simpl. intros [= <-]. simpl.
    intros (c & -> & _)%list_elem_of_fmap. unfold veilCard.
    case_decide; [done|]. intros _. apply toFaceDown_dom.
  - intros k. simpl. intros [entry [_ Hk]%map_lookup_filter_Some]%elem_of_dom.
    by apply elem_of_faceUpKeys.
  - intros gs' viewer' Hveil. unfold v.
    by rewrite <-(evalClientState_veil gs' viewer' viewer'), Hveil,
               (evalClientState_veil gs viewer viewer').
Qed.

Lemma evalClientState_hides_face_down_payload_witness :
  (veil (set_cardMap ∅ sampleGame) = veil sampleGame ∧
   evalClientState (set_cardMap ∅ sampleGame) "A" = evalClientState sampleGame "B") ∧
  ∃ s card,
    playersArray sampleGame !! 0 = Some s ∧
    hand (seated s) !! 0 = Some card ∧
    prop "orientation" card ≠ JsString "up" ∧
    ∃ s', ClientState.players (evalClientState sampleGame "B") !! 0 = Some s' ∧
          uid s' = uid s ∧
          length (hand (seated s')) = length (hand (seated s)) ∧
          hand (seated s') !! 0 = Some (toFaceDown card).
Proof.
  pose proof (evalClientState_hides_face_down_payload sampleGame "B")
    as (_ & _ & _ & _ & H & _ & _ & _ & _ & Hveil).
  assert (veil (set_cardMap ∅ sampleGame) = veil sampleGame) as Hsame
    by (vm_compute; reflexivity).
  split; [split; [exact Hsame|exact (Hveil _ "A" Hsame)]|].
  assert (is_Some (playersArray sampleGame !! 0)) as [s Hs]
    by (vm_compute; eauto).
  assert (is_Some (hand (seated s) !! 0)) as [card Hc].
  { revert Hs. vm_compute. intros [= <-]. eauto. }
  assert (prop "orientation" card ≠ JsString "up") as Hup.
  { revert Hs Hc. vm_compute. intros [= <-] [= <-]. discriminate. }
  exists s, card. repeat split; [exact Hs|exact Hc|exact Hup|].
  exact (H 0 s 0 card Hs Hc Hup).
Defined.

(** ** C8: failures end as rejections *)

(** C8. Whatever [executeCommand] is given, it ends in exactly one of two
    ways: one broadcast, with the command appended to the log; or one
    rejection [{id: "reject", commandId, reason}] addressed to the player who
    sent the command, with no broadcast and the log as it was.  Every error
    thrown by the dispatch ends the second way with its message as the reason;
    this includes the [TypeError] of a [toggle-ready] sent before the game by a
    uid for which [gameState.players[uid]] is [undefined], which also leaves
    the store untouched. *)
Theorem executeCommand_rejects_every_failure o cc gs :
  let r := executeCommand o cc gs in
  ((∃ m, r.2 = [broadcastUpdate m] ∧ commands r.1 = (commands gs ++ [cc])%list) ∨
   (∃ reason, r.2 = [rejection cc reason] ∧ commands r.1 = commands gs)) ∧
  (∀ g message,
     dispatch o (player cc) (command cc) gs = (g, Throw message) →
     r = (g, [rejection cc message]) ∧ commands g = commands gs) ∧
  (prop "id" (command cc) = JsString "toggle-ready" →
   phase gs = pregame →
   playersAt (player cc) gs = memberUndefined →
   r = (gs, [rejection cc (cannotRead "status")])).
Proof.
  intros r. split; [|split].
  - pose proof (dispatch_commands o (player cc) (command cc) gs) as Hc.
    unfold r, executeCommand.
    destruct (dispatch o (player cc) (command cc) gs) as [g [[]|message]];
      simpl in *.
    + left. eexists. by rewrite Hc.
    + right. by exists message.
  - intros g message Hd. split; [by apply executeCommand_throw|].
    pose proof (dispatch_commands o (player cc) (command cc) gs) as Hc.
    by rewrite Hd in Hc.
  - intros Hid Hph Hno. apply executeCommand_throw.
    rewrite dispatch_toggle by done.
    rewrite decide_False by congruence. by rewrite Hno.
Qed.

Lemma executeCommand_rejects_every_failure_witness :
  prop "id" (command (send (sampleOracle 10) "Z" "toggle-ready").2)
    = JsString "toggle-ready" ∧
  phase sampleLobby = pregame ∧
  playersAt (player (send (sampleOracle 10) "Z" "toggle-ready").2) sampleLobby
    = memberUndefined ∧
  executeCommand (sampleOracle 10) (send (sampleOracle 10) "Z" "toggle-ready").2
    sampleLobby =
  (sampleLobby,
   [rejection (send (sampleOracle 10) "Z" "toggle-ready").2 (cannotRead "status")]).
Proof.
  assert (playersAt (player (send (sampleOracle 10) "Z" "toggle-ready").2)
            sampleLobby = memberUndefined) as Hno
    by (vm_compute; reflexivity).
  split; [reflexivity|]. split; [reflexivity|]. split; [exact Hno|].
  exact (proj2 (proj2 (executeCommand_rejects_every_failure
                         (sampleOracle 10)
                         (send (sampleOracle 10) "Z" "toggle-ready").2
                         sampleLobby))
               eq_refl eq_refl Hno).
Defined.

(** ** C5: fewer than two players *)

(** C5. With fewer than two seated players [startGame] throws "Need at least
    two players to start game" and leaves the store, hence the phase, as it
    was; a [toggle-ready] that reaches the auto-start in such a lobby is
    rejected with that reason and the phase stays [pregame]. *)
Theorem startGame_needs_two_players o gs :
  size (players gs) < 2 →
  (∀ startingPlayer,
     startGame o startingPlayer gs =
     (gs, Throw "Need at least two players to start game")) ∧
  (∀ cc p,
     prop "id" (command cc) = JsString "toggle-ready" →
     phase gs = pregame →
     players gs !! player cc = Some p →
     status p = waiting →
     (executeCommand o cc gs).2 =
       [rejection cc "Need at least two players to start game"] ∧
     phase (executeCommand o cc gs).1 = pregame).
Proof.
  intros Hn. split.
  - intros sp. apply startGame_few. lia.
  - intros cc p Hid Hph Hp Hw.
    assert (size (players gs) = 1) as Hsz.
    { assert (size (players gs) ≠ 0); [|lia].
      intros Hz%map_size_empty_inv. by rewrite Hz, lookup_empty in Hp. }
    assert (dispatch o (player cc) (command cc) gs =
            (set_players (<[player cc := toggled p]> (players gs)) gs,
             Throw "Need at least two players to start game")) as Hd.
    { rewrite (dispatch_toggle_seated _ _ _ _ p) by done.
      rewrite decide_False by congruence. cbv zeta.
      assert (everyReady
                (set_players (<[player cc := toggled p]> (players gs)) gs) = true)
        as ->.
      { apply everyReady_spec. simpl. intros u q Hq.
        destruct (decide (u = player cc)) as [->|Hne].
        - rewrite lookup_insert_eq in Hq. injection Hq as <-.
          unfold toggled. by rewrite Hw.
        - rewrite lookup_insert_ne in Hq by done. exfalso.
          assert (size (delete (player cc) (players gs)) = 0) as Hz.
          { rewrite map_size_delete, Hp. lia. }
          apply map_size_empty_inv in Hz.
          assert (delete (player cc) (players gs) !! u = Some q) as Hdel
            by (by rewrite lookup_delete_ne).
          by rewrite Hz, lookup_empty in Hdel. }
      apply startGame_few. simpl.
      rewrite map_size_insert_Some by eauto. lia. }
    rewrite (executeCommand_throw _ _ _ _ _ Hd). by simpl.
Qed.

Lemma startGame_needs_two_players_witness :
  size (players (run initGameState [send (sampleOracle 10) "A" "connect-to-room"])) < 2 ∧
  startGame (sampleOracle 10) None
    (run initGameState [send (sampleOracle 10) "A" "connect-to-room"]) =
  (run initGameState [send (sampleOracle 10) "A" "connect-to-room"],
   Throw "Need at least two players to start game").
Proof.
  assert (size (players (run initGameState
                           [send (sampleOracle 10) "A" "connect-to-room"])) < 2)
    as Hn by (vm_compute; lia).
  split; [exact Hn|].
  exact (proj1 (startGame_needs_two_players (sampleOracle 10) _ Hn) None).
Defined.

(** ** What a command leaves of the dispatch *)

Lemma executeCommand_phase o cc gs :
  phase (executeCommand o cc gs).1 = phase (dispatch o (player cc) (command cc) gs).1.
Proof.
  unfold executeCommand.
  by destruct (dispatch o (player cc) (command cc) gs) as [g [[]|message]].
Qed.

Lemma executeCommand_players o cc gs :
  players (executeCommand o cc gs).1 =
  players (dispatch o (player cc) (command cc) gs).1.
Proof.
  unfold executeCommand.
  by destruct (dispatch o (player cc) (command cc) gs) as [g [[]|message]].
Qed.

Lemma run_cons gs x xs : run gs (x :: xs) = run (step gs x) xs.
Proof. done. Qed.

Lemma run_ingame gs xs : phase gs = ingame → phase (run gs xs) = ingame.
Proof.
  revert gs. induction xs as [|x xs IH]; intros gs Hph; [done|].
  rewrite run_cons. apply IH. unfold step.
  rewrite executeCommand_phase. by apply dispatch_ingame.
Qed.

(** ** C4: the phase goes from pregame to ingame once *)

(** A [toggle-ready] of a waiting player while somebody else is still
    waiting only marks the player ready. *)
Lemma toggle_not_last o pl c gs p v q :
  prop "id" c = JsString "toggle-ready" →
  phase gs = pregame →
  players gs !! pl = Some p →
  v ≠ pl → players gs !! v = Some q → status q = waiting →
  dispatch o pl c gs =
  (set_players (<[pl := toggled p]> (players gs)) gs, Normal tt).
Proof.
  intros Hid Hph Hp Hne Hq Hw. rewrite (dispatch_toggle_seated _ _ _ _ p) by done.
  rewrite decide_False by congruence. cbv zeta.
  destruct (everyReady _) eqn:E; [|done].
  rewrite everyReady_spec in E. specialize (E v q). simpl in E.
  rewrite lookup_insert_ne in E by done. specialize (E Hq). congruence.
Qed.

(** The [toggle-ready] of the last waiting player starts the game. *)
Lemma toggle_last o pl c gs p :
  prop "id" c = JsString "toggle-ready" →
  phase gs = pregame →
  players gs !! pl = Some p → status p = waiting →
  (∀ v q, v ≠ pl → players gs !! v = Some q → status q = ready) →
  dispatch o pl c gs =
  startGame o None (set_players (<[pl := toggled p]> (players gs)) gs).
Proof.
  intros Hid Hph Hp Hw Hothers. rewrite (dispatch_toggle_seated _ _ _ _ p) by done.
  rewrite decide_False by congruence. cbv zeta.
  destruct (everyReady _) eqn:E; [done|].
  apply not_true_iff_false in E. exfalso. apply E.
  apply everyReady_spec. simpl. intros u q Hq.
  destruct (decide (u = pl)) as [->|Hne].
  - rewrite lookup_insert_eq in Hq. injection Hq as <-.
    unfold toggled. by rewrite Hw.
  - rewrite lookup_insert_ne in Hq by done. by eapply Hothers.
Qed.

Lemma toggles_reach_ingame xs gs :
  phase gs = pregame →
  2 ≤ size (players gs) →
  Forall isToggle xs →
  NoDup (issuers xs) →
  (∀ u, u ∈ issuers xs ↔ ∃ p, players gs !! u = Some p ∧ status p = waiting) →
  xs ≠ [] →
  phase (run gs xs) = ingame ∧
  ∀ k, k < length xs → phase (run gs (take k xs)) = pregame.
Proof.
  revert gs. induction xs as [|x xs IH]; intros gs Hph Hsz Htog Hnd Hwait Hne; [done|].
  apply Forall_cons in Htog as [Hx Htog].
  unfold issuers in Hnd. rewrite fmap_cons in Hnd.
  apply NoDup_cons in Hnd as [Hfresh Hnd]. fold (issuers xs) in Hfresh, Hnd.
  destruct (proj1 (Hwait (player x.2))) as (p & Hp & Hw); [by left|].
  destruct xs as [|y ys].
  - split; [|intros [|k] Hk; [done|simpl in Hk; lia]].
    rewrite run_cons. simpl. unfold step. rewrite executeCommand_phase.
    assert (∀ v q, v ≠ player x.2 → players gs !! v = Some q → status q = ready)
      as Hothers.
    { intros v q Hv Hq. destruct (status q) eqn:Hs; [|done].
      assert (v ∈ issuers [x]) as Hin by (apply Hwait; eauto).
      unfold issuers in Hin. rewrite list_fmap_singleton in Hin.
      by apply list_elem_of_singleton in Hin. }
    rewrite (toggle_last _ _ _ _ p) by done.
    apply startGame_ingame. simpl. rewrite map_size_insert_Some by eauto. done.
  - destruct (proj1 (Hwait (player y.2))) as (q & Hq & Hwq); [right; by left|].
    assert (player y.2 ≠ player x.2) as Hyx.
    { intros E. apply Hfresh. rewrite <-E. by left. }
    assert (step gs x =
            set_commands (commands gs ++ [x.2])
              (set_players (<[player x.2 := toggled p]> (players gs)) gs)) as Hstep.
    { unfold step.
      by rewrite (executeCommand_ok _ _ _ _
                    (toggle_not_last _ _ _ _ p _ q Hx Hph Hp Hyx Hq Hwq)). }
    destruct (IH (step gs x)) as [Hfin Hpre].
    + by rewrite Hstep.
    + rewrite Hstep. simpl. rewrite map_size_insert_Some by eauto. done.
    + done.
    + done.
    + intros u. rewrite Hstep. simpl. split.
      * intros Hu. assert (u ≠ player x.2) as Hux by (by intros ->).
        rewrite lookup_insert_ne by done. apply Hwait. by right.
      * intros (r & Hr & Hwr).
        destruct (decide (u = player x.2)) as [->|Hux].
        -- rewrite lookup_insert_eq in Hr. injection Hr as <-.
           unfold toggled in Hwr. by rewrite Hw in Hwr.
        -- rewrite lookup_insert_ne in Hr by done.
           assert (u ∈ issuers (x :: y :: ys)) as Hin by (apply Hwait; eauto).
           unfold issuers in Hin. rewrite fmap_cons in Hin.
           apply elem_of_cons in Hin as [?|?]; done.
    + done.
    + split; [by rewrite run_cons|].
      intros [|k] Hk; [done|]. rewrite firstn_cons, run_cons.
      apply Hpre. simpl in *. lia.
Qed.

(** C4. Once the phase is [ingame] it stays so over any sequence of commands,
    whatever they are.  In a lobby of at least two players who are all
    waiting, [toggle-ready] commands sent by the seated players, one each and
    in any order, leave the phase at [pregame] until the last of them, which
    makes it [ingame]; and every [toggle-ready] processed in phase [ingame] is
    rejected with "Game has already started" and changes nothing. *)
Theorem phase_goes_ingame_exactly_once :
  (∀ gs xs, phase gs = ingame → phase (run gs xs) = ingame) ∧
  (∀ gs xs,
     phase gs = pregame →
     2 ≤ size (players gs) →
     (∀ u p, players gs !! u = Some p → status p = waiting) →
     Forall isToggle xs →
     issuers xs ≡ₚ (map_to_list (players gs)).*1 →
     phase (run gs xs) = ingame ∧
     ∀ k, k < length xs → phase (run gs (take k xs)) = pregame) ∧
  (∀ o cc gs,
     phase gs = ingame →
     prop "id" (command cc) = JsString "toggle-ready" →
     executeCommand o cc gs = (gs, [rejection cc "Game has already started"])).
Proof.
  split; [exact run_ingame|split].
  - intros gs xs Hph Hsz Hall Htog Hperm.
    apply toggles_reach_ingame; try done.
    + rewrite Hperm. apply NoDup_fst_map_to_list.
    + intros u. rewrite Hperm, list_elem_of_fmap. split.
      * intros ([u' p] & -> & Hin%elem_of_map_to_list). eauto.
      * intros (p & Hp & _). exists (u, p). by rewrite elem_of_map_to_list.
    + intros ->. apply Permutation_nil_l in Hperm. symmetry in Hperm.
      apply fmap_nil_inv, map_to_list_empty_iff in Hperm.
      rewrite Hperm, map_size_empty in Hsz. lia.
  - intros o cc gs Hph Hid. apply executeCommand_throw.
    rewrite dispatch_toggle by done. by rewrite decide_True.
Qed.

Lemma phase_goes_ingame_exactly_once_witness :
  phase sampleLobby = pregame ∧
  2 ≤ size (players sampleLobby) ∧
  (∀ u p, players sampleLobby !! u = Some p → status p = waiting) ∧
  Forall isToggle
    [send (sampleOracle 10) "B" "toggle-ready";
     send (sampleOracle 10) "A" "toggle-ready"] ∧
  issuers [send (sampleOracle 10) "B" "toggle-ready";
           send (sampleOracle 10) "A" "toggle-ready"]
    ≡ₚ (map_to_list (players sampleLobby)).*1 ∧
  phase sampleGame = ingame ∧
  executeCommand (sampleOracle 10) (send (sampleOracle 10) "A" "toggle-ready").2
    sampleGame =
  (sampleGame,
   [rejection (send (sampleOracle 10) "A" "toggle-ready").2 "Game has already started"]).
Proof.
  destruct phase_goes_ingame_exactly_once as (_ & Hstart & Hlate).
  assert (2 ≤ size (players sampleLobby)) as Hsz by (vm_compute; lia).
  assert (∀ u p, players sampleLobby !! u = Some p → status p = waiting) as Hall.
  { change (map_Forall (λ _ p, status p = waiting) (players sampleLobby)).
    apply (bool_decide_unpack _). vm_compute. exact I. }
  assert (Forall isToggle
            [send (sampleOracle 10) "B" "toggle-ready";
             send (sampleOracle 10) "A" "toggle-ready"]) as Htog
    by (repeat constructor).
  assert (issuers [send (sampleOracle 10) "B" "toggle-ready";
                   send (sampleOracle 10) "A" "toggle-ready"]
            ≡ₚ (map_to_list (players sampleLobby)).*1) as Hperm.
  { vm_compute. first [reflexivity | apply Permutation_swap]. }
  pose proof (Hstart sampleLobby _ eq_refl Hsz Hall Htog Hperm) as [Hin _].
  split; [reflexivity|]. split; [exact Hsz|]. split; [exact Hall|].
  split; [exact Htog|]. split; [exact Hperm|]. split; [exact Hin|].
  exact (Hlate (sampleOracle 10) (send (sampleOracle 10) "A" "toggle-ready").2
               sampleGame Hin eq_refl).
Defined.

(** ** C1: a rejected command can leave its writes behind *)

(** C1 (what the code does at the failing inputs).  The only seated player
    sends [toggle-ready]: the command is rejected with "Need at least two
    players to start game", yet the player's status has gone from [waiting]
    to [ready].  With two players and a deck of three cards, the
    [toggle-ready] that starts the game is rejected with "Overdraw from draw
    pile", yet the phase is [ingame], the draw pile is empty and three cards
    are in the hands. *)
Theorem rejected_toggle_ready_leaves_writes :
  (∀ o,
     let gs := run initGameState [send o "A" "connect-to-room"] in
     let cc := (send o "A" "toggle-ready").2 in
     (executeCommand o cc gs).2 =
       [rejection cc "Need at least two players to start game"] ∧
     status <$> players gs !! "A" = Some waiting ∧
     status <$> players (executeCommand o cc gs).1 !! "A" = Some ready ∧
     (executeCommand o cc gs).1 ≠ gs) ∧
  (let gs := run sampleLobby [send (sampleOracle 3) "B" "toggle-ready"] in
   let cc := (send (sampleOracle 3) "A" "toggle-ready").2 in
   let r := executeCommand (sampleOracle 3) cc gs in
   r.2 = [rejection cc "Overdraw from draw pile"] ∧
   phase gs = pregame ∧ phase r.1 = ingame ∧
   drawPile r.1 = [] ∧
   (length ∘ hand) <$> players r.1 !! "A" = Some 2 ∧
   (length ∘ hand) <$> players r.1 !! "B" = Some 1).
Proof.
  split.
  - intros o gs cc.
    assert (status <$> players (executeCommand o cc gs).1 !! "A" = Some ready) as Hr
      by (vm_compute; reflexivity).
    split; [vm_compute; reflexivity|]. split; [vm_compute; reflexivity|].
    split; [exact Hr|].
    intros E. rewrite E in Hr. revert Hr. vm_compute. discriminate.
  - vm_compute. repeat split; reflexivity.
Qed.

(** ** The invariant of the reachable states *)

Lemma StronglySorted_lookup {A} (R : relation A) l i j a b :
  StronglySorted R l → i < j → l !! i = Some a → l !! j = Some b → R a b.
Proof.
  intros Hl. revert i j. induction Hl as [|x l Hl IH Hx]; intros i j Hij Hi Hj.
  - by rewrite lookup_nil in Hi.
  - destruct j as [|j]; [lia|]. destruct i as [|i]; simpl in *.
    + injection Hi as <-. rewrite Forall_forall in Hx. apply Hx.
      by eapply list_elem_of_lookup_2.
    + apply (IH i j); [lia|done..].
Qed.

(** What [removePlayer] leaves of a player that stays: the same player
    object, with its index in the sorted array as new position. *)
Lemma removePlayer_lookup u gs v p' :
  players (removePlayer u gs).1 !! v = Some p' ↔
  ∃ j p, roster (delete u (players gs)) !! j = Some {| uid := v; seated := p |} ∧
         v ≠ u ∧ players gs !! v = Some p ∧ p' = set_position j p.
Proof.
  rewrite removePlayer_eq. simpl. rewrite renumbered_lookup. split.
  - intros (j & [v' p] & Hj & -> & ->). simpl.
    assert (delete u (players gs) !! v' = Some p) as Hd.
    { apply (elem_of_roster _ {| uid := v'; seated := p |}).
      by eapply list_elem_of_lookup_2. }
    apply lookup_delete_Some in Hd as [? ?]. by exists j, p.
  - intros (j & p & Hj & _ & _ & ->). by exists j, {| uid := v; seated := p |}.
Qed.

Lemma removePlayer_undealt u gs : undealt gs → undealt (removePlayer u gs).1.
Proof.
  intros [Hd Hh]. split; [by rewrite removePlayer_eq|].
  intros v p' (j & p & _ & _ & Hp & ->)%removePlayer_lookup. simpl. by eapply Hh.
Qed.

Lemma Inv_builtinWritten uid v gs : Inv gs → Inv (builtinWritten uid v gs).
Proof. intros H. destruct (builtinWritten_eq uid v gs) as [w ->]. exact H. Qed.

Lemma removePlayer_Inv u gs : phase gs = pregame → Inv gs → Inv (removePlayer u gs).1.
Proof.
  intros Hph [Hd Hu]. split.
  - rewrite removePlayer_eq. simpl. apply dense_renumbered.
  - intros _. by apply removePlayer_undealt, Hu.
Qed.

Lemma Inv_flipped uid gs : Inv gs → Inv (set_players (flipped uid (players gs)) gs).
Proof.
  intros [Hd Hu]. split; simpl; [by apply dense_flipped|].
  intros Hpre. destruct (Hu Hpre) as [? Hh]. split; [done|]. simpl.
  intros u q (p & Hp & _ & -> & _)%flipped_lookup. by eapply Hh.
Qed.

Lemma dispatch_Inv o pl c gs : Inv gs → Inv (dispatch o pl c gs).1.
Proof.
  intros HInv. pose proof HInv as [Hd Hu].
  destruct (decide (prop "id" c = JsString "connect-to-room")) as [Hc|Hc];
    [|destruct (decide (prop "id" c = JsString "disconnect-from-room")) as [Hdc|Hdc];
      [|destruct (decide (prop "id" c = JsString "toggle-ready")) as [Ht|Ht]]].
  - rewrite dispatch_connect by done.
    destruct (players gs !! pl) as [p|] eqn:Hp.
    + split; simpl; [by eapply dense_insert_keep|].
      intros Hph. destruct (Hu Hph) as [? Hh]. split; [done|]. simpl.
      intros u q [[-> <-]|[_ Hq]]%lookup_insert_Some; simpl; eauto.
    + destruct (inherited pl gs); [by apply Inv_builtinWritten..|done|].
      case_decide as Hph; [|done].
      rewrite addPlayer_eq. split; simpl; [by apply dense_insert_new|].
      intros _. destruct (Hu Hph) as [? Hh]. split; [done|]. simpl.
      intros u q [[-> <-]|[_ Hq]]%lookup_insert_Some; simpl; eauto.
  - rewrite dispatch_disconnect by done.
    assert (phase gs ≠ ingame → Inv (removePlayer pl gs).1) as Hrem.
    { intros Hph. apply removePlayer_Inv; [by destruct (phase gs)|done]. }
    destruct (players gs !! pl) as [p|] eqn:Hp.
    + case_decide as Hph; [|by apply Hrem].
      split; simpl; [by eapply dense_insert_keep|]. congruence.
    + destruct (inherited pl gs); [case_decide; simpl; auto using Inv_builtinWritten..|done].
  - rewrite dispatch_toggle by done. case_decide as Hph; [done|].
    assert (phase gs = pregame) as Hpre by (by destruct (phase gs)).
    pose proof (Inv_flipped pl gs HInv) as [Hd1 Hu1].
    set (gs1 := set_players _ gs) in *.
    assert (Inv (if everyReady gs1 then startGame o None gs1 else (gs1, Normal tt)).1)
      as Hgoal.
    { destruct (everyReady gs1); [|done]. split.
      - by apply startGame_dense.
      - destruct (decide (size (players gs1) ≤ 1)) as [Hfew|Hmany].
        + by rewrite startGame_few.
        + rewrite startGame_ingame by lia. done. }
    by destruct (playersAt pl gs).
  - by rewrite dispatch_other.
Qed.

Lemma step_Inv gs x : Inv gs → Inv (step gs x).
Proof.
  intros H. apply (dispatch_Inv x.1 (player x.2) (command x.2)) in H.
  unfold step, executeCommand.
  destruct (dispatch x.1 (player x.2) (command x.2) gs) as [g [[]|message]]; done.
Qed.

Lemma initGameState_Inv : Inv initGameState.
Proof.
  split; [|split; [done|]; intros u p; simpl; by rewrite lookup_empty].
  unfold dense, positions. simpl. by rewrite map_to_list_empty.
Qed.

Lemma run_Inv gs xs : Inv gs → Inv (run gs xs).
Proof.
  revert gs. induction xs as [|x xs IH]; intros gs H; [done|].
  rewrite run_cons. by apply IH, step_Inv.
Qed.

Lemma Reachable_Inv gs : Reachable gs → Inv gs.
Proof. intros [xs ->]. apply run_Inv, initGameState_Inv. Qed.

(** ** C7: positions in the lobby *)

Lemma step_connect_disconnect_pregame gs x :
  isConnectOrDisconnect x → phase gs = pregame → phase (step gs x) = pregame.
Proof.
  intros Hx Hph. unfold step. rewrite executeCommand_phase.
  destruct Hx as [Hx|Hx].
  - destruct (dispatch_connect_players x.1 (player x.2) (command x.2) gs Hx)
      as [-> _]. done.
  - destruct (dispatch_disconnect_players x.1 (player x.2) (command x.2) gs Hx)
      as [-> _]. done.
Qed.

(** C7. Starting from the empty lobby, or from any lobby whose positions are
    dense, every sequence of [connect-to-room] and [disconnect-from-room]
    commands leaves the phase at [pregame] and the positions a permutation
    of [0 .. n-1], [n] being the number of players; and the renumbering of
    [removePlayer] keeps the remaining players, and them only, in their
    relative order. *)
Theorem lobby_positions_stay_dense :
  dense (players initGameState) ∧
  (∀ gs xs,
     phase gs = pregame →
     dense (players gs) →
     Forall isConnectOrDisconnect xs →
     phase (run gs xs) = pregame ∧
     positions (players (run gs xs)) ≡ₚ seq 0 (size (players (run gs xs)))) ∧
  (∀ uid gs,
     dom (players (removePlayer uid gs).1) = dom (players gs) ∖ {[uid]} ∧
     ∀ v w pv pw pv' pw',
       players gs !! v = Some pv →
       players gs !! w = Some pw →
       players (removePlayer uid gs).1 !! v = Some pv' →
       players (removePlayer uid gs).1 !! w = Some pw' →
       position pv < position pw →
       position pv' < position pw').
Proof.
  split; [apply initGameState_Inv|split].
  - intros gs xs. revert gs.
    induction xs as [|x xs IH]; intros gs Hph Hd Hxs; [done|].
    apply Forall_cons in Hxs as [Hx Hxs]. rewrite run_cons.
    apply IH; [by apply step_connect_disconnect_pregame| |done].
    unfold step. rewrite executeCommand_players.
    destruct Hx as [Hx|Hx].
    + destruct (dispatch_connect_players x.1 (player x.2) (command x.2) gs Hx)
        as [_ ->].
      destruct (players gs !! _) eqn:Hp; [by eapply dense_insert_keep|].
      destruct (inherited _ gs); try done.
      rewrite decide_True by done. by apply dense_insert_new.
    + destruct (dispatch_disconnect_players x.1 (player x.2) (command x.2) gs Hx)
        as [_ ->].
      assert (dense (players (removePlayer (player x.2) gs).1)) as Hrem.
      { rewrite removePlayer_eq. simpl. apply dense_renumbered. }
      destruct (players gs !! _) eqn:Hp; [by rewrite decide_False by congruence|].
      destruct (inherited _ gs); try done; by rewrite decide_False by congruence.
  - intros u gs. split.
    + apply set_eq. intros v.
      rewrite elem_of_difference, !elem_of_dom, not_elem_of_singleton.
      unfold is_Some. setoid_rewrite removePlayer_lookup. split.
      * intros (p' & j & p & _ & ? & ? & _). eauto.
      * intros [[p Hp] Hne].
        assert ({| uid := v; seated := p |} ∈ roster (delete u (players gs))) as Hin
          by (apply elem_of_roster; simpl; by rewrite lookup_delete_ne).
        apply list_elem_of_lookup in Hin as [j Hj]. eauto 10.
    + intros v w pv pw pv' pw' Hv Hw.
      intros (j & p & Hj & _ & Hp & ->)%removePlayer_lookup.
      intros (k & q & Hk & _ & Hq & ->)%removePlayer_lookup Hlt.
      simplify_eq. simpl.
      destruct (decide (j < k)) as [|Hge]; [done|]. exfalso.
      destruct (decide (j = k)) as [->|Hjk].
      * rewrite Hj in Hk. simplify_eq. lia.
      * pose proof (StronglySorted_lookup byPosition _ k j _ _
                      (sortByPosition_Sorted _) ltac:(lia) Hk Hj) as Hle.
        unfold byPosition, seatPos in Hle. simpl in Hle. lia.
Qed.

Lemma lobby_positions_stay_dense_witness :
  phase initGameState = pregame ∧
  dense (players initGameState) ∧
  Forall isConnectOrDisconnect
    [send (sampleOracle 0) "A" "connect-to-room";
     send (sampleOracle 0) "B" "connect-to-room";
     send (sampleOracle 0) "C" "connect-to-room";
     send (sampleOracle 0) "A" "disconnect-from-room"] ∧
  positions
    (players
       (run initGameState
          [send (sampleOracle 0) "A" "connect-to-room";
           send (sampleOracle 0) "B" "connect-to-room";
           send (sampleOracle 0) "C" "connect-to-room";
           send (sampleOracle 0) "A" "disconnect-from-room"]))
  ≡ₚ seq 0 2.
Proof.
  destruct lobby_positions_stay_dense as (Hinit & Hrun & _).
  assert (Forall isConnectOrDisconnect
            [send (sampleOracle 0) "A" "connect-to-room";
             send (sampleOracle 0) "B" "connect-to-room";
             send (sampleOracle 0) "C" "connect-to-room";
             send (sampleOracle 0) "A" "disconnect-from-room"]) as Hxs.
  { repeat constructor; first [by left | by right]. }
  split; [reflexivity|]. split; [exact Hinit|]. split; [exact Hxs|].
  exact (proj2 (Hrun initGameState _ eq_refl Hinit Hxs)).
Defined.

(** ** The deal *)

Lemma scaleFloor_lt n r : 0 < n → scaleFloor n r < n.
Proof.
  intros Hn. unfold scaleFloor. apply Nat.Div0.div_lt_upper_bound. nia.
Qed.

(** Popping the top of the first [n] cards of a deck. *)
Lemma take_pop {A} (d : list A) n :
  0 < n → n ≤ length d →
  ∃ c, d !! (n - 1) = Some c ∧
       last (take n d) = Some c ∧ removelast (take n d) = take (n - 1) d.
Proof.
  intros Hn Hle. destruct n as [|k]; [lia|].
  replace (S k - 1) with k by lia.
  destruct (lookup_lt_is_Some_2 d k) as [c Hc]; [lia|].
  exists c. split; [done|].
  rewrite (take_S_r _ _ _ Hc). split; [apply last_snoc|apply removelast_last].
Qed.

Lemma positions_fmap (f : Player → Player) ps :
  (∀ p, position (f p) = position p) → positions (f <$> ps) = positions ps.
Proof.
  intros Hf. unfold positions. rewrite map_to_list_fmap, <-list_fmap_compose.
  apply list_fmap_ext. intros _ [u p] _. simpl. apply Hf.
Qed.

Lemma dense_fmap (f : Player → Player) ps :
  (∀ p, position (f p) = position p) → dense ps → dense (f <$> ps).
Proof.
  intros Hf Hd. unfold dense. by rewrite positions_fmap, map_size_fmap.
Qed.

Lemma position_pushCard deck m p : position (pushCard deck m p) = position p.
Proof. unfold pushCard. by destruct (deck !! _). Qed.

Lemma deal_round_from deck m ps gs0 (l2 : list Seat) :
  dense ps → m ≤ length deck → size ps ≤ m →
  ∀ (l1 : list Seat) i,
    roster ps = (l1 ++ l2)%list →
    forEachFrom i l2 (λ s _, dealCard (uid s))
      (set_drawPile (take (m - length l1) deck)
         (set_players (pushCardBelow deck m (length l1) <$> ps) gs0)) =
    (set_drawPile (take (m - length (l1 ++ l2)%list) deck)
       (set_players (pushCardBelow deck m (length (l1 ++ l2)%list) <$> ps) gs0),
     Normal tt).
Proof.
  intros Hd Hm Hsz. induction l2 as [|s l2 IH]; intros l1 i Hl.
  - by rewrite app_nil_r.
  - assert (roster ps !! length l1 = Some s) as Hs
      by (by rewrite Hl, list_lookup_middle).
    pose proof (proj1 (roster_lookup ps _ _ Hd) Hs) as [Hps Hpos].
    assert (length l1 < size ps) as Hlt.
    { rewrite <-length_roster. by eapply lookup_lt_Some. }
    destruct (take_pop deck (m - length l1)) as (c & Hc & Hlast & Hrest); [lia..|].
    cbn [forEachFrom]. unfold bind at 1, dealCard at 1, bind at 1, popDrawPile at 1.
    cbn [drawPile set_drawPile]. rewrite Hlast. cbv beta iota.
    unfold updatePlayer at 1. cbn [players set_players set_drawPile].
    rewrite lookup_fmap, Hps. cbn [fmap option_fmap option_map].
    specialize (IH (l1 ++ [s])%list (S i)). rewrite <-!(assoc_L app) in IH.
    rewrite length_app in IH. cbn [length app] in IH.
    replace (length l1 + 1) with (S (length l1)) in IH by lia.
    rewrite <-IH by done. f_equal. unfold set_drawPile, set_players. simpl.
    f_equal; [rewrite Hrest; f_equal; lia|].
    apply map_eq. intros u. destruct (decide (u = uid s)) as [->|Hne].
    + rewrite lookup_insert_eq, lookup_fmap, Hps. simpl. f_equal.
      unfold pushCardBelow. rewrite decide_False, decide_True by lia.
      unfold pushCard. rewrite Hpos.
      replace (m - 1 - length l1) with (m - length l1 - 1) by lia.
      by rewrite Hc.
    + rewrite lookup_insert_ne, !lookup_fmap by done.
      destruct (ps !! u) as [q|] eqn:Hq; [|done]. simpl. f_equal.
      assert (position q ≠ length l1) as Hqpos.
      { intros E. apply Hne. rewrite <-Hpos in E.
        by eapply (dense_position_inj ps). }
      unfold pushCardBelow. repeat case_decide; done || lia.
Qed.

Lemma deal_round deck m gs :
  dense (players gs) → drawPile gs = take m deck →
  m ≤ length deck → size (players gs) ≤ m →
  forEach (playersArray gs) (λ s _, dealCard (uid s)) gs =
  (set_drawPile (take (m - size (players gs)) deck)
     (set_players (pushCard deck m <$> players gs) gs),
   Normal tt).
Proof.
  intros Hd Hdp Hm Hsz. unfold forEach, playersArray.
  pose proof (deal_round_from deck m (players gs) gs (roster (players gs))
                Hd Hm Hsz [] 0 eq_refl) as H.
  cbn [length app] in H. rewrite Nat.sub_0_r, length_roster in H.
  assert (gs = set_drawPile (take m deck)
                 (set_players (pushCardBelow deck m 0 <$> players gs) gs)) as Eg.
  { replace (pushCardBelow deck m 0 <$> players gs) with (players gs).
    - destruct gs; simpl in *. by rewrite Hdp.
    - symmetry. etrans; [|apply map_fmap_id].
      apply map_fmap_ext. intros u p _. unfold pushCardBelow.
      by rewrite decide_False by lia. }
  etrans; [|etrans; [exact H|]]; [by rewrite <-Eg|].
  do 3 f_equal. apply map_fmap_ext. intros u p Hp. unfold pushCardBelow.
  rewrite decide_True; [done|]. by eapply dense_position_lt.
Qed.

Lemma bind_ok {A B} (m : Proc A) (k : A → Proc B) gs g a :
  m gs = (g, Normal a) → bind m k gs = k a g.
Proof. intros H. unfold bind. by rewrite H. Qed.

Lemma dealRound_eq deck m gs :
  dense (players gs) → drawPile gs = take m deck →
  m ≤ length deck → size (players gs) ≤ m →
  dealRound gs =
  (set_drawPile (take (m - size (players gs)) deck)
     (set_players (pushCard deck m <$> players gs) gs),
   Normal tt).
Proof. intros. unfold dealRound. rewrite bind_gets. by apply deal_round. Qed.

(** Past its guard, [startGame] sets the phase and the active player, installs
    the deck and deals. *)
Lemma startGame_dealing o sp gs :
  2 ≤ size (players gs) →
  ∃ active,
    (sp = Some active ∨ (sp = None ∧ is_Some (players gs !! active))) ∧
    startGame o sp gs =
    dealing (set_cardMap (generateDeck o).2
               (set_drawPile (generateDeck o).1
                  (set_activePlayerUid (Some active) (set_phase ingame gs)))).
Proof.
  intros Hsz. unfold startGame. rewrite bind_gets.
  case_decide as Hlen.
  { unfold playersArray in Hlen. rewrite length_roster in Hlen. lia. }
  rewrite bind_modify, bind_gets. unfold playersArray at 1 2. cbn [players set_phase].
  destruct sp as [u|].
  - exists u. split; [by left|]. rewrite bind_modify.
    destruct (generateDeck o) as [deck cm]. by rewrite !bind_modify.
  - destruct (roster (players gs) !! _) as [s|] eqn:Hs.
    + exists (uid s). split.
      * right. split; [done|]. exists (seated s).
        apply elem_of_roster. by eapply list_elem_of_lookup_2.
      * rewrite bind_modify.
        destruct (generateDeck o) as [deck cm]. by rewrite !bind_modify.
    + apply lookup_ge_None in Hs.
      pose proof (scaleFloor_lt (length (roster (players gs))) (mathRandom o)).
      rewrite length_roster in *. lia.
Qed.

(** With enough cards in the draw pile the deal goes through, and this is
    where each card ends up. *)
Lemma dealing_ok gs :
  let deck := drawPile gs in
  let P := size (players gs) in
  let N := length deck in
  dense (players gs) →
  4 * P + 1 ≤ N →
  ∃ top,
    deck !! (N - 4 * P - 1) = Some top ∧
    dealing gs =
    (set_discardPile (discardPile gs ++ [top])
       (set_drawPile (take (N - 4 * P - 1) deck)
          (set_players
             (pushCard deck (N - 3 * P) <$>
                (pushCard deck (N - 2 * P) <$>
                   (pushCard deck (N - P) <$>
                      (pushCard deck N <$> players gs)))) gs)),
     Normal tt).
Proof.
  intros deck P N Hd HN.
  pose proof (position_pushCard deck) as Hpos.
  replace (N - 4 * P - 1) with (N - P - P - P - P - 1) by lia.
  replace (N - 3 * P) with (N - P - P - P) by lia.
  replace (N - 2 * P) with (N - P - P) by lia.
  set (g1 := set_drawPile (take (N - P) deck)
               (set_players (pushCard deck N <$> players gs) gs)).
  set (g2 := set_drawPile (take (N - P - P) deck)
               (set_players (pushCard deck (N - P) <$> players g1) g1)).
  set (g3 := set_drawPile (take (N - P - P - P) deck)
               (set_players (pushCard deck (N - P - P) <$> players g2) g2)).
  set (g4 := set_drawPile (take (N - P - P - P - P) deck)
               (set_players (pushCard deck (N - P - P - P) <$> players g3) g3)).
  assert (dealRound gs = (g1, Normal tt)) as H1.
  { rewrite (dealRound_eq deck N); [done|done| |done|fold P; lia].
    unfold N. by rewrite firstn_all. }
  assert (dealRound g1 = (g2, Normal tt)) as H2.
  { rewrite (dealRound_eq deck (N - P)); simpl; rewrite ?map_size_fmap; fold P;
      [done|by apply dense_fmap|done|lia|lia]. }
  assert (dealRound g2 = (g3, Normal tt)) as H3.
  { rewrite (dealRound_eq deck (N - P - P)); simpl; rewrite ?map_size_fmap; fold P;
      [done|by repeat (apply dense_fmap; [done|])|done|lia|lia]. }
  assert (dealRound g3 = (g4, Normal tt)) as H4.
  { rewrite (dealRound_eq deck (N - P - P - P)); simpl; rewrite ?map_size_fmap;
      fold P; [done|by repeat (apply dense_fmap; [done|])|done|lia|lia]. }
  destruct (take_pop deck (N - P - P - P - P)) as (top & Htop & Hlast & Hrest);
    [lia..|].
  exists top. split; [done|].
  unfold dealing, CARDS_PER_HAND. cbn [times].
  rewrite (bind_ok _ _ gs g4 tt).
  - unfold bind, popDrawPile. cbn [drawPile g4 set_drawPile].
    rewrite Hlast, Hrest. done.
  - by rewrite (bind_ok _ _ _ _ _ H1), (bind_ok _ _ _ _ _ H2),
               (bind_ok _ _ _ _ _ H3), (bind_ok _ _ _ _ _ H4).
Qed.

(** ** The command that starts the game *)

(** Only a [toggle-ready] that gets past the guard of [startGame] moves the
    phase from [pregame] to [ingame]. *)
Lemma start_inv o cc gs :
  phase gs = pregame →
  phase (executeCommand o cc gs).1 = ingame →
  2 ≤ size (players gs) ∧
  dispatch o (player cc) (command cc) gs =
  startGame o None (set_players (flipped (player cc) (players gs)) gs).
Proof.
  intros Hpre. rewrite executeCommand_phase.
  destruct (decide (prop "id" (command cc) = JsString "connect-to-room")) as [Hc|Hc];
    [|destruct (decide (prop "id" (command cc) = JsString "disconnect-from-room"))
        as [Hdc|Hdc];
      [|destruct (decide (prop "id" (command cc) = JsString "toggle-ready"))
          as [Ht|Ht]]].
  - destruct (dispatch_connect_players o (player cc) (command cc) gs Hc) as [-> _].
    congruence.
  - destruct (dispatch_disconnect_players o (player cc) (command cc) gs Hdc)
      as [-> _]. congruence.
  - rewrite dispatch_toggle by done. rewrite decide_False by congruence.
    assert (phase (if everyReady (set_players (flipped (player cc) (players gs)) gs)
                   then startGame o None
                          (set_players (flipped (player cc) (players gs)) gs)
                   else (set_players (flipped (player cc) (players gs)) gs,
                         Normal tt)).1 = ingame →
            2 ≤ size (players gs) ∧
            (if everyReady (set_players (flipped (player cc) (players gs)) gs)
             then startGame o None
                    (set_players (flipped (player cc) (players gs)) gs)
             else (set_players (flipped (player cc) (players gs)) gs, Normal tt)) =
            startGame o None (set_players (flipped (player cc) (players gs)) gs))
      as Hgoal.
    { destruct (everyReady _); [|simpl; congruence].
      intros Hin. split; [|done].
      destruct (decide (size (players gs) ≤ 1)) as [Hfew|]; [|lia].
      rewrite startGame_few in Hin; [simpl in Hin; congruence|].
      simpl. by rewrite size_flipped. }
    destruct (playersAt (player cc) gs); cbv zeta; [exact Hgoal..|simpl; congruence].
  - rewrite dispatch_other by done. simpl. congruence.
Qed.

(** The store after the command that starts the game, when the deck is large
    enough. *)
Lemma start_result o cc gs :
  let deck := (generateDeck o).1 in
  let P := size (players gs) in
  let N := length deck in
  Inv gs →
  phase gs = pregame →
  phase (executeCommand o cc gs).1 = ingame →
  4 * P + 1 ≤ N →
  ∃ top g,
    2 ≤ P ∧
    deck !! (N - 4 * P - 1) = Some top ∧
    dispatch o (player cc) (command cc) gs = (g, Normal tt) ∧
    discardPile g = [top] ∧
    drawPile g = take (N - 4 * P - 1) deck ∧
    cardMap g = (generateDeck o).2 ∧
    players g = dealt deck P <$> flipped (player cc) (players gs).
Proof.
  intros deck P N HInv Hpre Hin HN.
  destruct (start_inv o cc gs Hpre Hin) as (HP & Hdisp).
  pose proof (Inv_flipped (player cc) gs HInv) as [Hd1 _].
  destruct HInv as [Hd Hu]. destruct (Hu Hpre) as [Hdisc Hhands].
  set (gs1 := set_players (flipped (player cc) (players gs)) gs) in *.
  assert (size (players gs1) = P) as Hsz1 by (simpl; apply size_flipped).
  destruct (startGame_dealing o None gs1) as (active & _ & Hstart); [lia|].
  set (gs2 := set_cardMap _ _) in Hstart.
  destruct (dealing_ok gs2) as (top & Htop & Hdeal).
  { exact Hd1. }
  { simpl. rewrite size_flipped. done. }
  simpl in Htop, Hdeal. rewrite size_flipped in Htop, Hdeal.
  exists top. eexists. split; [done|]. split; [exact Htop|].
  split; [by rewrite Hdisp, Hstart, Hdeal|]. simpl.
  split; [by rewrite Hdisc|]. split; [done|]. split; [done|].
  unfold dealt. fold deck N P. rewrite <-!map_fmap_compose. done.
Qed.

(** ** C6: four cards each, dealt round-robin *)

Lemma faceDown_orientation card :
  prop "orientation" (faceDown card) = JsString "down".
Proof. unfold prop, faceDown. by rewrite lookup_insert_eq. Qed.

Lemma faceDown_id card : cardId (faceDown card) = cardId card.
Proof. unfold cardId, prop, faceDown. by rewrite lookup_insert_ne. Qed.

Lemma pushCard_Some deck m p card :
  deck !! (m - 1 - position p) = Some card →
  pushCard deck m p = set_hand (hand p ++ [faceDown card]) p.
Proof. intros H. unfold pushCard. by rewrite H. Qed.

Lemma dealt_hand deck P p :
  let N := length deck in
  position p < P → 4 * P + 1 ≤ N → hand p = [] →
  position (dealt deck P p) = position p ∧
  length (hand (dealt deck P p)) = 4 ∧
  ∀ k, k < 4 →
       hand (dealt deck P p) !! k =
       faceDown <$> deck !! (N - 1 - (k * P + position p)).
Proof.
  intros N Hpos HN Hhand.
  destruct (lookup_lt_is_Some_2 deck (N - 1 - position p)) as [c0 H0]; [lia|].
  destruct (lookup_lt_is_Some_2 deck (N - P - 1 - position p)) as [c1 H1]; [lia|].
  destruct (lookup_lt_is_Some_2 deck (N - 2 * P - 1 - position p)) as [c2 H2]; [lia|].
  destruct (lookup_lt_is_Some_2 deck (N - 3 * P - 1 - position p)) as [c3 H3]; [lia|].
  unfold dealt. fold N.
  rewrite (pushCard_Some deck N p c0) by done.
  rewrite (pushCard_Some deck (N - P) _ c1) by done.
  rewrite (pushCard_Some deck (N - 2 * P) _ c2) by done.
  rewrite (pushCard_Some deck (N - 3 * P) _ c3) by done.
  cbn [hand set_hand position]. rewrite Hhand. cbn [app length].
  split; [done|]. split; [done|].
  intros k Hk. destruct k as [|[|[|[|k]]]]; [..|lia]; cbn [lookup list_lookup].
  - replace (N - 1 - (0 * P + position p)) with (N - 1 - position p) by lia.
    by rewrite H0.
  - replace (N - 1 - (1 * P + position p)) with (N - P - 1 - position p) by lia.
    by rewrite H1.
  - replace (N - 1 - (2 * P + position p)) with (N - 2 * P - 1 - position p) by lia.
    by rewrite H2.
  - replace (N - 1 - (3 * P + position p)) with (N - 3 * P - 1 - position p) by lia.
    by rewrite H3.
Qed.

(** C6. When a command of the server takes the phase from [pregame] to
    [ingame], that is when [startGame] is called with [P >= 2] seated players,
    and the generated deck has [N >= 4P + 1] cards, the command succeeds and
    afterwards: the same players are seated; the player at position [j] holds
    exactly four cards, the [k]-th of them being card [N - 1 - (kP + j)] of the
    deck (the deck is dealt from its end, one card to each player in seating
    order, then round again) turned face down; the discard pile holds exactly
    the next card, and the draw pile the remaining [N - 4P - 1] cards. *)
Theorem startGame_deals_round_robin o cc gs :
  let deck := (generateDeck o).1 in
  let P := size (players gs) in
  let N := length deck in
  let gs' := (executeCommand o cc gs).1 in
  Reachable gs →
  phase gs = pregame →
  phase gs' = ingame →
  4 * P + 1 ≤ N →
  2 ≤ P ∧
  (∃ m, (executeCommand o cc gs).2 = [broadcastUpdate m]) ∧
  dom (players gs') = dom (players gs) ∧
  (∀ u p, players gs' !! u = Some p →
     position p < P ∧
     length (hand p) = 4 ∧
     Forall (λ card, prop "orientation" card = JsString "down") (hand p) ∧
     ∀ k, k < 4 →
          hand p !! k = faceDown <$> deck !! (N - 1 - (k * P + position p))) ∧
  discardPile gs' = option_list (deck !! (N - 4 * P - 1)) ∧
  length (discardPile gs') = 1 ∧
  drawPile gs' = take (N - 4 * P - 1) deck ∧
  length (drawPile gs') = N - 4 * P - 1.
Proof.
  intros deck P N gs' Hreach Hpre Hin HN.
  pose proof (Reachable_Inv gs Hreach) as HInv.
  destruct (start_result o cc gs HInv Hpre Hin HN)
    as (top & g & HP & Htop & Hdisp & Hdisc & Hdraw & _ & Hplayers).
  fold deck P N in Htop, Hdraw, Hplayers.
  assert (executeCommand o cc gs =
          (set_commands (commands g ++ [cc]) g, [broadcastUpdate (clientStates g)]))
    as Hexec by (by apply executeCommand_ok).
  unfold gs'. rewrite Hexec. cbn [fst snd players discardPile drawPile set_commands].
  split; [done|]. split; [eauto|]. split; [|split; [|split; [|split; [|split]]]].
  - by rewrite Hplayers, dom_fmap_L, dom_flipped.
  - intros u p Hp. rewrite Hplayers, lookup_fmap in Hp.
    destruct (flipped (player cc) (players gs) !! u) as [q|] eqn:Hq; [|done].
    injection Hp as <-.
    destruct HInv as [Hd Hu]. destruct (Hu Hpre) as [_ Hhands].
    assert (position q < P ∧ hand q = []) as [Hpos Hhand].
    { apply flipped_lookup in Hq as (p1 & Hp1 & -> & -> & _).
      split; [by eapply dense_position_lt|by eapply Hhands]. }
    destruct (dealt_hand deck P q Hpos HN Hhand) as (Hposd & Hlen & Hcards).
    rewrite Hposd. split; [done|]. split; [done|]. split; [|done].
    apply Forall_lookup. intros k card Hk.
    assert (k < 4) as Hk4 by (apply lookup_lt_Some in Hk; lia).
    rewrite (Hcards k Hk4) in Hk.
    apply fmap_Some in Hk as (c & _ & ->). apply faceDown_orientation.
  - by rewrite Hdisc, Htop.
  - by rewrite Hdisc.
  - done.
  - rewrite Hdraw, length_take. fold N. lia.
Qed.

Lemma startGame_deals_round_robin_witness :
  let o := sampleOracle 10 in
  let gs := run sampleLobby [send o "B" "toggle-ready"] in
  let cc := (send o "A" "toggle-ready").2 in
  Reachable gs ∧
  phase gs = pregame ∧
  phase (executeCommand o cc gs).1 = ingame ∧
  4 * size (players gs) + 1 ≤ length (generateDeck o).1 ∧
  length (discardPile (executeCommand o cc gs).1) = 1 ∧
  length (drawPile (executeCommand o cc gs).1) = 1.
Proof.
  intros o gs cc.
  assert (Reachable gs) as Hreach.
  { exists [send (sampleOracle 0) "A" "connect-to-room";
            send (sampleOracle 0) "B" "connect-to-room";
            send o "B" "toggle-ready"]. reflexivity. }
  assert (phase gs = pregame) as Hpre by (vm_compute; reflexivity).
  assert (phase (executeCommand o cc gs).1 = ingame) as Hin
    by (vm_compute; reflexivity).
  assert (4 * size (players gs) + 1 ≤ length (generateDeck o).1) as HN
    by (vm_compute; lia).
  pose proof (startGame_deals_round_robin o cc gs Hreach Hpre Hin HN)
    as (_ & _ & _ & _ & _ & Hdisc & _ & Hdraw).
  split; [exact Hreach|]. split; [exact Hpre|]. split; [exact Hin|].
  split; [exact HN|]. split; [exact Hdisc|].
  rewrite Hdraw. vm_compute. reflexivity.
Defined.

(** ** C3: every card of the deck is in exactly one place *)

Lemma handCards_insert ps u p cs :
  ps !! u = Some p →
  handCards (<[u := set_hand (hand p ++ cs) p]> ps) ≡ₚ handCards ps ++ cs.
Proof.
  intros Hu. unfold handCards.
  rewrite <-(insert_delete_eq ps u (set_hand _ _)).
  rewrite map_to_list_insert by apply lookup_delete_eq.
  rewrite <-(map_to_list_delete ps u p Hu). csimpl.
  rewrite <-!(assoc_L app). apply Permutation_app_head, Permutation_app_comm.
Qed.

Lemma handCards_empty ps :
  (∀ u p, ps !! u = Some p → hand p = []) → handCards ps = [].
Proof.
  intros H. unfold handCards.
  assert (Forall (λ kv : string * Player, hand kv.2 = []) (map_to_list ps)) as HF.
  { apply Forall_forall. intros [u p] Hin%elem_of_map_to_list. by eapply H. }
  induction HF as [|kv l Hkv _ IH]; csimpl; [done|]. by rewrite Hkv, IH.
Qed.

Lemma preserves_forEachFrom_in {A} I (l : list A) body i :
  (∀ x j, x ∈ l → preserves I (body x j)) → preserves I (forEachFrom i l body).
Proof.
  revert i. induction l as [|x l IH]; intros i Hb; simpl.
  - apply preserves_ret.
  - apply preserves_bind; [apply Hb; by left|].
    intros _. apply IH. intros y j Hy. apply Hb. by right.
Qed.

Lemma dealCard_conserved L D u :
  u ∈ D → preserves (conserved L D) (dealCard u).
Proof.
  intros Hu gs [HL HD]. unfold dealCard, bind, popDrawPile.
  destruct (last (drawPile gs)) as [c|] eqn:Hlast; simpl.
  - apply last_Some in Hlast as [d Hd].
    assert (is_Some (players gs !! u)) as [p Hp] by (by apply elem_of_dom; rewrite HD).
    unfold updatePlayer. simpl. rewrite Hp. simpl. split.
    + rewrite <-HL. unfold cardIds, cardsOf. simpl.
      rewrite Hd, removelast_last, (handCards_insert _ _ _ [faceDown c] Hp).
      rewrite !fmap_app. simpl. rewrite faceDown_id.
      rewrite <-!(assoc_L app). apply Permutation_app_head.
      rewrite (Permutation_app_comm [cardId c]).
      by rewrite <-!(assoc_L app).
    + simpl. rewrite dom_insert_L, <-HD.
      apply subseteq_union_1_L, singleton_subseteq_l. by eapply elem_of_dom_2.
  - apply last_None in Hlast. split; [|done].
    rewrite <-HL. unfold cardIds, cardsOf. simpl. by rewrite Hlast.
Qed.

Lemma dealRound_conserved L D : preserves (conserved L D) dealRound.
Proof.
  intros gs [HL HD]. unfold dealRound. rewrite bind_gets. unfold forEach.
  apply (preserves_forEachFrom_in (conserved L D) (playersArray gs) _ 0); [|done].
  intros s _ Hs. apply dealCard_conserved.
  apply elem_of_roster in Hs. rewrite <-HD. by eapply elem_of_dom_2.
Qed.

(** The deal and the first discard move cards and neither lose nor copy
    any, also when they end in an overdraw. *)
Lemma dealing_conserved L D : preserves (conserved L D) dealing.
Proof.
  unfold dealing. apply preserves_bind.
  - apply preserves_times, dealRound_conserved.
  - intros _ gs [HL HD]. unfold bind, popDrawPile.
    destruct (last (drawPile gs)) as [c|] eqn:Hlast; simpl.
    + apply last_Some in Hlast as [d Hd]. split; [|done].
      rewrite <-HL. unfold cardIds, cardsOf. simpl.
      rewrite Hd, removelast_last. apply fmap_Permutation.
      rewrite <-!(assoc_L app). apply Permutation_app_head. simpl.
      symmetry. apply Permutation_middle.
    + apply last_None in Hlast. split; [|done].
      rewrite <-HL. unfold cardIds, cardsOf. simpl. by rewrite Hlast.
Qed.

(** C3. When a command of the server takes the phase from [pregame] to
    [ingame], that is when [startGame] is called and gets past its guard, and
    the generated deck has pairwise distinct identifiers and at least
    [4P + 1] cards, the command succeeds and afterwards the identifiers found
    in the draw pile, the discard pile and the hands, taken together, are
    those of the deck, each exactly once. *)
Theorem startGame_places_every_card_once o cc gs :
  let deck := (generateDeck o).1 in
  let gs' := (executeCommand o cc gs).1 in
  Reachable gs →
  phase gs = pregame →
  phase gs' = ingame →
  NoDup (cardId <$> deck) →
  4 * size (players gs) + 1 ≤ length deck →
  (∃ m, (executeCommand o cc gs).2 = [broadcastUpdate m]) ∧
  cardIds gs' ≡ₚ cardId <$> deck ∧
  NoDup (cardIds gs').
Proof.
  intros deck gs' Hreach Hpre Hin Hnd HN.
  pose proof (Reachable_Inv gs Hreach) as HInv.
  destruct (start_result o cc gs HInv Hpre Hin HN)
    as (_ & g & _ & _ & Hok & _).
  destruct (start_inv o cc gs Hpre Hin) as (HP & Hdisp).
  destruct HInv as [_ Hu]. destruct (Hu Hpre) as [Hdisc Hhands].
  destruct (startGame_dealing o None
              (set_players (flipped (player cc) (players gs)) gs))
    as (active & _ & Hstart).
  { simpl. by rewrite size_flipped. }
  set (gs2 := set_cardMap _ _) in Hstart.
  assert (conserved (cardId <$> deck) (dom (players gs2)) gs2) as Hcons.
  { split; [|done]. unfold cardIds, cardsOf. simpl. rewrite Hdisc.
    rewrite handCards_empty; [by rewrite !app_nil_r|].
    intros u q (p & Hp & _ & -> & _)%flipped_lookup. by eapply Hhands. }
  apply dealing_conserved in Hcons as [Hperm _].
  rewrite <-Hstart, <-Hdisp, Hok in Hperm. simpl in Hperm.
  assert (executeCommand o cc gs =
          (set_commands (commands g ++ [cc]) g, [broadcastUpdate (clientStates g)]))
    as Hexec by (by apply executeCommand_ok).
  unfold gs'. rewrite Hexec. simpl.
  split; [eauto|]. split; [done|]. by rewrite Hperm.
Qed.

Lemma startGame_places_every_card_once_witness :
  let o := sampleOracle 10 in
  let gs := run sampleLobby [send o "B" "toggle-ready"] in
  let cc := (send o "A" "toggle-ready").2 in
  Reachable gs ∧
  phase gs = pregame ∧
  phase (executeCommand o cc gs).1 = ingame ∧
  NoDup (cardId <$> (generateDeck o).1) ∧
  4 * size (players gs) + 1 ≤ length (generateDeck o).1 ∧
  NoDup (cardIds (executeCommand o cc gs).1).
Proof.
  intros o gs cc.
  assert (Reachable gs) as Hreach.
  { exists [send (sampleOracle 0) "A" "connect-to-room";
            send (sampleOracle 0) "B" "connect-to-room";
            send o "B" "toggle-ready"]. reflexivity. }
  assert (phase gs = pregame) as Hpre by (vm_compute; reflexivity).
  assert (phase (executeCommand o cc gs).1 = ingame) as Hin
    by (vm_compute; reflexivity).
  assert (NoDup (cardId <$> (generateDeck o).1)) as Hnd.
  { apply (bool_decide_unpack _). vm_compute. exact I. }
  assert (4 * size (players gs) + 1 ≤ length (generateDeck o).1) as HN
    by (vm_compute; lia).
  split; [exact Hreach|]. split; [exact Hpre|]. split; [exact Hin|].
  split; [exact Hnd|]. split; [exact HN|].
  exact (proj2 (proj2 (startGame_places_every_card_once o cc gs
                         Hreach Hpre Hin Hnd HN))).
Defined.

(** * Further properties of the code *)

(** ** X1: the roster array *)

(** X1. [playersArray] lists every seated player exactly once, with the
    player object the store holds, in non-decreasing order of position. *)
Theorem playersArray_sorted_listing (gs : GameState) :
  StronglySorted byPosition (playersArray gs) ∧
  NoDup (uid <$> playersArray gs) ∧
  length (playersArray gs) = size (players gs) ∧
  ∀ s, s ∈ playersArray gs ↔ players gs !! uid s = Some (seated s).
Proof.
  unfold playersArray. split; [apply sortByPosition_Sorted|].
  split; [apply NoDup_uid_roster|]. split; [apply length_roster|].
  intros s. apply elem_of_roster.
Qed.

(** ** X2: the command log *)

Lemma step_commands gs x :
  commands (step gs x) = commands gs ∨
  commands (step gs x) = (commands gs ++ [x.2])%list.
Proof.
  pose proof (dispatch_commands x.1 (player x.2) (command x.2) gs) as Hc.
  unfold step, executeCommand.
  destruct (dispatch x.1 (player x.2) (command x.2) gs) as [g [[]|message]];
    simpl in *; [right; by rewrite Hc|by left].
Qed.

(** X2. The command log only grows at its end: after any sequence of
    commands it is the log as it was, followed by some of the commands of the
    sequence, in the order they were processed. *)
Theorem commands_append_only gs xs :
  ∃ accepted,
    commands (run gs xs) = (commands gs ++ accepted)%list ∧
    accepted `sublist_of` xs.*2.
Proof.
  revert gs. induction xs as [|x xs IH]; intros gs.
  - exists []. by rewrite app_nil_r.
  - rewrite run_cons. destruct (IH (step gs x)) as (l & Hl & Hsub).
    rewrite fmap_cons. destruct (step_commands gs x) as [E|E]; rewrite E in Hl.
    + exists l. split; [done|]. by apply sublist_cons.
    + exists (x.2 :: l). split; [by rewrite Hl, <-(assoc_L app)|].
      by apply sublist_skip.
Qed.

(** ** X3: a game in progress *)

Lemma ignoringOnline_insert ps u p b :
  ps !! u = Some p →
  ignoringOnline (<[u := set_isOnline b p]> ps) = ignoringOnline ps.
Proof.
  intros Hu. unfold ignoringOnline. rewrite fmap_insert.
  apply insert_id. by rewrite lookup_fmap, Hu.
Qed.

Lemma sameTable_refl gs : sameTable gs gs.
Proof. by repeat split. Qed.

Lemma sameTable_trans gs1 gs2 gs3 :
  sameTable gs1 gs2 → sameTable gs2 gs3 → sameTable gs1 gs3.
Proof.
  intros (?&?&?&?&?&?) (?&?&?&?&?&?). repeat split; congruence.
Qed.

Lemma sameTable_builtinWritten uid v gs : sameTable gs (builtinWritten uid v gs).
Proof. destruct (builtinWritten_eq uid v gs) as [w ->]. by repeat split. Qed.

Lemma dispatch_ingame_sameTable o pl c gs :
  phase gs = ingame → sameTable gs (dispatch o pl c gs).1.
Proof.
  intros Hph.
  assert (∀ p b, players gs !! pl = Some p →
            sameTable gs (set_players (<[pl := set_isOnline b p]> (players gs)) gs))
    as Hset.
  { intros p b Hp. repeat split; simpl. by apply ignoringOnline_insert. }
  destruct (decide (prop "id" c = JsString "connect-to-room")) as [Hc|Hc];
    [|destruct (decide (prop "id" c = JsString "disconnect-from-room")) as [Hdc|Hdc];
      [|destruct (decide (prop "id" c = JsString "toggle-ready")) as [Ht|Ht]]].
  - rewrite dispatch_connect by done.
    destruct (players gs !! pl) eqn:Hp; [by apply Hset|].
    destruct (inherited pl gs); rewrite ?decide_False by congruence;
      first [apply sameTable_refl | apply sameTable_builtinWritten].
  - rewrite dispatch_disconnect by done.
    destruct (players gs !! pl) eqn:Hp.
    + rewrite decide_True by done. by apply Hset.
    + destruct (inherited pl gs); rewrite ?decide_True by done;
        first [apply sameTable_refl | apply sameTable_builtinWritten].
  - rewrite dispatch_toggle by done. rewrite decide_True by done.
    apply sameTable_refl.
  - rewrite dispatch_other by done. apply sameTable_refl.
Qed.

Lemma step_ingame_sameTable gs x :
  phase gs = ingame → sameTable gs (step gs x).
Proof.
  intros Hph.
  pose proof (dispatch_ingame_sameTable x.1 (player x.2) (command x.2) gs Hph) as H.
  unfold step, executeCommand.
  destruct (dispatch x.1 (player x.2) (command x.2) gs) as [g [[]|message]]; done.
Qed.

Lemma run_ingame_sameTable gs xs :
  phase gs = ingame → sameTable gs (run gs xs).
Proof.
  revert gs. induction xs as [|x xs IH]; intros gs Hph; [apply sameTable_refl|].
  rewrite run_cons.
  pose proof (step_ingame_sameTable gs x Hph) as H1.
  eapply sameTable_trans; [exact H1|]. apply IH.
  destruct H1 as [-> _]. done.
Qed.

(** X3. Once the phase is [ingame], no sequence of commands changes the
    active player, the card map, the piles, or who is seated with which
    status, position and hand: apart from the log, only the [isOnline] flags
    can differ.  In particular a uid that is not seated is never added. *)
Theorem ingame_only_connectivity_changes gs xs :
  phase gs = ingame →
  sameTable gs (run gs xs) ∧
  dom (players (run gs xs)) = dom (players gs) ∧
  ∀ u p, players gs !! u = Some p →
         ∃ b, players (run gs xs) !! u = Some (set_isOnline b p).
Proof.
  intros Hph. pose proof (run_ingame_sameTable gs xs Hph) as Hs.
  split; [done|]. destruct Hs as (_ & _ & _ & _ & _ & Hps).
  split.
  - apply (f_equal dom) in Hps. unfold ignoringOnline in Hps.
    by rewrite !dom_fmap_L in Hps.
  - intros u p Hp.
    apply (f_equal (λ m, m !! u)) in Hps. unfold ignoringOnline in Hps.
    rewrite !lookup_fmap, Hp in Hps.
    destruct (players (run gs xs) !! u) as [q|]; [|done].
    exists (isOnline q). simpl in Hps. injection Hps as H1 H2 H3.
    f_equal. destruct p, q. simpl in *. by subst.
Qed.

Lemma ingame_only_connectivity_changes_witness :
  phase sampleGame = ingame ∧
  dom (players
         (run sampleGame
            [send (sampleOracle 10) "A" "disconnect-from-room";
             send (sampleOracle 10) "C" "connect-to-room";
             send (sampleOracle 10) "B" "toggle-ready"]))
  = dom (players sampleGame).
Proof.
  assert (phase sampleGame = ingame) as Hph by (vm_compute; reflexivity).
  split; [exact Hph|].
  exact (proj1 (proj2 (ingame_only_connectivity_changes sampleGame _ Hph))).
Defined.

(** ** What a command does to the inherited flag *)

Lemma dispatch_prototypeIsOnline o pl c gs :
  pl ≠ "__proto__" →
  prototypeIsOnline (dispatch o pl c gs).1 = prototypeIsOnline gs.
Proof.
  intros Hpl.
  assert (preserves (λ g, prototypeIsOnline g = prototypeIsOnline gs)
            (dispatch o pl c)) as H; [|by apply H].
  unfold dispatch, setIsOnline, addPlayer, removePlayer, startGame, forEach, dealCard.
  preserves_walk; auto; done.
Qed.

Lemma step_prototypeIsOnline gs x :
  player x.2 ≠ "__proto__" →
  prototypeIsOnline (step gs x) = prototypeIsOnline gs.
Proof.
  intros Hpl.
  pose proof (dispatch_prototypeIsOnline x.1 (player x.2) (command x.2) gs Hpl) as H.
  unfold step, executeCommand.
  by destruct (dispatch x.1 (player x.2) (command x.2) gs) as [g [[]|message]].
Qed.

(** What its own uid inherits is the same before and after a command. *)
Lemma step_inherited gs x :
  inherited (player x.2) (step gs x) = inherited (player x.2) gs.
Proof.
  unfold inherited. case_decide as Hn; [done|].
  rewrite step_prototypeIsOnline; [done|].
  intros E. apply Hn. rewrite E. unfold objectPrototypeNames.
  rewrite !elem_of_cons. tauto.
Qed.

Lemma step_connect_players gs x :
  isConnect x →
  phase (step gs x) = phase gs ∧
  players (step gs x) =
  match players gs !! player x.2 with
  | Some p => <[player x.2 := set_isOnline true p]> (players gs)
  | None =>
      match inherited (player x.2) gs with
      | memberUndefined =>
          if decide (phase gs = pregame)
          then <[player x.2 := joined (size (players gs))]> (players gs)
          else players gs
      | _ => players gs
      end
  end.
Proof.
  intros Hx. unfold step. rewrite executeCommand_players, executeCommand_phase.
  by apply dispatch_connect_players.
Qed.

Lemma step_disconnect_players gs x :
  prop "id" (command x.2) = JsString "disconnect-from-room" →
  phase (step gs x) = phase gs ∧
  players (step gs x) =
  match players gs !! player x.2 with
  | Some p =>
      if decide (phase gs = ingame)
      then <[player x.2 := set_isOnline false p]> (players gs)
      else players (removePlayer (player x.2) gs).1
  | None =>
      match inherited (player x.2) gs with
      | memberUndefined => players gs
      | _ =>
          if decide (phase gs = ingame)
          then players gs
          else players (removePlayer (player x.2) gs).1
      end
  end.
Proof.
  intros Hx. unfold step. rewrite executeCommand_players, executeCommand_phase.
  by apply dispatch_disconnect_players.
Qed.

(** ** X4: seats are given in joining order *)

Lemma step_connect_new gs x :
  isConnect x → phase gs = pregame →
  players gs !! player x.2 = None →
  inherited (player x.2) gs = memberUndefined →
  step gs x =
  set_commands (commands gs ++ [x.2])
    (set_players (<[player x.2 := joined (size (players gs))]> (players gs)) gs).
Proof.
  intros Hx Hph Hnew Hinh. unfold step.
  rewrite (executeCommand_ok _ _ _
             (set_players
                (<[player x.2 := joined (size (players gs))]> (players gs)) gs));
    [done|].
  rewrite dispatch_connect by done. rewrite Hnew, Hinh, decide_True by done.
  apply addPlayer_eq.
Qed.

Lemma connects_run xs gs :
  phase gs = pregame →
  prototypeIsOnline gs = None →
  Forall isConnect xs →
  NoDup (issuers xs) →
  Forall ordinaryUid (issuers xs) →
  (∀ u, u ∈ issuers xs → players gs !! u = None) →
  phase (run gs xs) = pregame ∧
  size (players (run gs xs)) = size (players gs) + length xs ∧
  (∀ i x, xs !! i = Some x →
          players (run gs xs) !! player x.2 = Some (joined (size (players gs) + i))) ∧
  (∀ u, u ∉ issuers xs → players (run gs xs) !! u = players gs !! u).
Proof.
  revert gs. induction xs as [|x xs IH]; intros gs Hph Hproto Hxs Hnd Hord Hnew.
  - simpl. split; [done|]. split; [lia|]. by split.
  - apply Forall_cons in Hxs as [Hx Hxs].
    unfold issuers in Hnd, Hnew, Hord. rewrite fmap_cons in Hnd, Hnew, Hord.
    apply NoDup_cons in Hnd as [Hfresh Hnd].
    apply Forall_cons in Hord as [Hordx Hord]. fold (issuers xs) in *.
    assert (players gs !! player x.2 = None) as Hu by (apply Hnew; by left).
    rewrite run_cons.
    pose proof (step_connect_new gs x Hx Hph Hu
                  (inherited_ordinary _ _ Hordx Hproto)) as Hstep.
    assert (players (step gs x) =
            <[player x.2 := joined (size (players gs))]> (players gs)) as Hp1
      by (by rewrite Hstep).
    assert (phase (step gs x) = pregame) as Hph1 by (by rewrite Hstep).
    assert (prototypeIsOnline (step gs x) = None) as Hproto1 by (by rewrite Hstep).
    destruct (IH (step gs x)) as (Hph' & Hsz & Hat & Hrest); [done..| |].
    { intros v Hv. rewrite Hp1.
      rewrite lookup_insert_ne by (intros <-; auto). apply Hnew. by right. }
    rewrite Hp1 in Hsz, Hat, Hrest.
    rewrite map_size_insert_None in Hsz, Hat by done.
    split; [done|]. split; [simpl; lia|]. split.
    + intros [|i] y Hy; simpl in Hy.
      * injection Hy as <-. rewrite Hrest by done.
        by rewrite lookup_insert_eq, Nat.add_0_r.
      * rewrite (Hat i y Hy). do 2 f_equal. lia.
    + intros v Hv. apply not_elem_of_cons in Hv as [Hvx Hv].
      rewrite Hrest by done. by rewrite lookup_insert_ne.
Qed.

(** X4. When players connect to the empty lobby of a fresh runtime with
    distinct uids, none of which names a property of [Object.prototype], the
    phase stays [pregame] and the [i]-th to connect is seated at position
    [i], waiting, with an empty hand and online.  A uid that does name such
    a property ([constructor], [toString], [__proto__], ...) is never seated
    by [connect-to-room]: the lookup finds the inherited object and the
    players and the phase stay as they are. *)
Theorem connects_seat_in_joining_order :
  (∀ xs,
     Forall isConnect xs →
     NoDup (issuers xs) →
     Forall ordinaryUid (issuers xs) →
     phase (run initGameState xs) = pregame ∧
     size (players (run initGameState xs)) = length xs ∧
     ∀ i x, xs !! i = Some x →
            players (run initGameState xs) !! player x.2 = Some (joined i)) ∧
  (∀ gs x,
     isConnect x →
     player x.2 ∈ objectPrototypeNames →
     players gs !! player x.2 = None →
     players (step gs x) = players gs ∧ phase (step gs x) = phase gs).
Proof.
  split.
  - intros xs Hxs Hnd Hord.
    destruct (connects_run xs initGameState eq_refl eq_refl Hxs Hnd Hord)
      as (Hph & Hsz & Hat & _).
    { intros u _. apply lookup_empty. }
    split; [done|]. split; [by rewrite Hsz|].
    intros i x Hx. by rewrite (Hat i x Hx).
  - intros gs x Hx Hname Hnew.
    destruct (step_connect_players gs x Hx) as [Hph Hp].
    split; [|done]. rewrite Hp, Hnew.
    unfold inherited. by rewrite decide_True.
Qed.

Lemma connects_seat_in_joining_order_witness :
  Forall isConnect
    [send (sampleOracle 0) "A" "connect-to-room";
     send (sampleOracle 0) "B" "connect-to-room";
     send (sampleOracle 0) "C" "connect-to-room"] ∧
  NoDup (issuers
    [send (sampleOracle 0) "A" "connect-to-room";
     send (sampleOracle 0) "B" "connect-to-room";
     send (sampleOracle 0) "C" "connect-to-room"]) ∧
  players
    (run initGameState
       [send (sampleOracle 0) "A" "connect-to-room";
        send (sampleOracle 0) "B" "connect-to-room";
        send (sampleOracle 0) "C" "connect-to-room"]) !! "C" = Some (joined 2) ∧
  players (step sampleLobby (send (sampleOracle 0) "constructor" "connect-to-room"))
    = players sampleLobby.
Proof.
  assert (Forall isConnect
            [send (sampleOracle 0) "A" "connect-to-room";
             send (sampleOracle 0) "B" "connect-to-room";
             send (sampleOracle 0) "C" "connect-to-room"]) as Hxs
    by (repeat constructor).
  assert (NoDup (issuers
            [send (sampleOracle 0) "A" "connect-to-room";
             send (sampleOracle 0) "B" "connect-to-room";
             send (sampleOracle 0) "C" "connect-to-room"])) as Hnd.
  { apply (bool_decide_unpack _). vm_compute. exact I. }
  assert (Forall ordinaryUid (issuers
            [send (sampleOracle 0) "A" "connect-to-room";
             send (sampleOracle 0) "B" "connect-to-room";
             send (sampleOracle 0) "C" "connect-to-room"])) as Hord.
  { apply (bool_decide_unpack _). vm_compute. exact I. }
  assert (player (send (sampleOracle 0) "constructor" "connect-to-room").2
            ∈ objectPrototypeNames) as Hname.
  { apply (bool_decide_unpack _). vm_compute. exact I. }
  assert (players sampleLobby
            !! player (send (sampleOracle 0) "constructor" "connect-to-room").2
          = None) as Hnew by (vm_compute; reflexivity).
  destruct connects_seat_in_joining_order as [Hseat Hskip].
  split; [exact Hxs|]. split; [exact Hnd|]. split.
  - exact (proj2 (proj2 (Hseat _ Hxs Hnd Hord))
             2 (send (sampleOracle 0) "C" "connect-to-room") eq_refl).
  - exact (proj1 (Hskip sampleLobby
                    (send (sampleOracle 0) "constructor" "connect-to-room")
                    eq_refl Hname Hnew)).
Defined.

(** ** X5: leaving right after joining *)

Lemma set_position_id p : set_position (position p) p = p.
Proof. by destruct p. Qed.

(** Renumbering a roster whose positions are dense changes nothing. *)
Lemma renumber_dense_id ps :
  dense ps → list_to_map (renumber 0 (roster ps)) = ps.
Proof.
  intros Hd. apply map_eq. intros v. apply option_eq. intros p.
  rewrite renumbered_lookup. split.
  - intros (j & s & Hj & -> & ->).
    apply (roster_lookup ps j s Hd) in Hj as [Hs <-].
    by rewrite set_position_id.
  - intros Hp. exists (position p), {| uid := v; seated := p |}.
    split; [by apply roster_lookup|]. by rewrite set_position_id.
Qed.

(** X5. In a lobby with dense positions, a player who connects and then
    disconnects leaves the players exactly as they were: same players, same
    positions, statuses, hands and flags. *)
Theorem connect_then_disconnect_restores_players gs x y :
  phase gs = pregame →
  dense (players gs) →
  players gs !! player x.2 = None →
  isConnect x →
  prop "id" (command y.2) = JsString "disconnect-from-room" →
  player y.2 = player x.2 →
  players (run gs [x; y]) = players gs ∧ phase (run gs [x; y]) = pregame.
Proof.
  intros Hph Hd Hnew Hx Hy Hsame.
  rewrite !run_cons. unfold run, foldl. set (g1 := step gs x).
  destruct (step_connect_players gs x Hx) as [Hph1 Hp1]. fold g1 in Hph1, Hp1.
  destruct (step_disconnect_players g1 y Hy) as [Hph2 Hp2].
  pose proof (step_inherited gs x) as Hinh. fold g1 in Hinh.
  split; [|congruence].
  assert (phase gs ≠ ingame) as Hnin by congruence.
  rewrite Hp2, Hsame, Hph1, Hinh, removePlayer_eq. simpl.
  rewrite Hnew in Hp1.
  destruct (inherited (player x.2) gs) eqn:Hi.
  1-3: rewrite Hp1, Hnew, decide_False by done;
       by rewrite delete_id, renumber_dense_id.
  rewrite decide_True in Hp1 by done.
  rewrite Hp1, lookup_insert_eq, decide_False by done.
  rewrite delete_insert_id by done. by apply renumber_dense_id.
Qed.

Lemma connect_then_disconnect_restores_players_witness :
  phase sampleLobby = pregame ∧
  dense (players sampleLobby) ∧
  players sampleLobby !! "C" = None ∧
  players
    (run sampleLobby
       [send (sampleOracle 0) "C" "connect-to-room";
        send (sampleOracle 0) "C" "disconnect-from-room"])
  = players sampleLobby.
Proof.
  assert (dense (players sampleLobby)) as Hd.
  { apply Reachable_Inv. by eexists. }
  assert (players sampleLobby !! "C" = None) as Hnew by (vm_compute; reflexivity).
  split; [reflexivity|]. split; [exact Hd|]. split; [exact Hnew|].
  exact (proj1 (connect_then_disconnect_restores_players sampleLobby
                  (send (sampleOracle 0) "C" "connect-to-room")
                  (send (sampleOracle 0) "C" "disconnect-from-room")
                  eq_refl Hd Hnew eq_refl eq_refl eq_refl)).
Defined.

(** ** X6: the seats after a player left *)

(** In a dense roster, the array without the leaver is the array with the
    leaver's seat cut out. *)
Lemma roster_delete ps u pu :
  dense ps → ps !! u = Some pu →
  roster (delete u ps) =
  (take (position pu) (roster ps) ++ drop (S (position pu)) (roster ps))%list.
Proof.
  intros Hd Hu.
  assert (roster ps !! position pu = Some {| uid := u; seated := pu |}) as Hk
    by (by apply roster_lookup).
  pose proof (take_drop_middle _ _ _ Hk) as Hmid.
  pose proof (sortByPosition_Sorted (seats ps)) as Hsorted.
  fold (roster ps) in Hsorted. rewrite <-Hmid in Hsorted.
  apply StronglySorted_app in Hsorted as (Hcross & Htake & Hrest).
  apply StronglySorted_cons in Hrest as [_ Hdrop].
  apply (StronglySorted_unique_strong byPosition).
  - intros x1 x2 H1 H2 H12 H21.
    apply elem_of_roster, lookup_delete_Some in H1 as [_ H1].
    assert (x2 ∈ roster ps) as H2'.
    { rewrite <-Hmid. rewrite elem_of_app in H2. rewrite elem_of_app, elem_of_cons.
      tauto. }
    apply elem_of_roster in H2'.
    unfold byPosition, seatPos in H12, H21.
    assert (uid x1 = uid x2) as Huid
      by (eapply (dense_position_inj ps); [done..|lia]).
    destruct x1, x2. simpl in *. subst. congruence.
  - apply sortByPosition_Sorted.
  - apply StronglySorted_app_2; [|done..].
    intros x1 x2 H1 H2. apply Hcross; [done|by right].
  - rewrite roster_Permutation.
    apply (Permutation_cons_inv (a := {| uid := u; seated := pu |})).
    rewrite Permutation_middle, Hmid, roster_Permutation. unfold seats.
    by rewrite <-(map_to_list_delete ps u pu Hu).
Qed.

(** X6. When a player leaves a lobby whose positions are dense, every other
    player keeps status, hand and connectivity flag; those seated before the
    leaver keep their position and those seated after move down by one. *)
Theorem removePlayer_closes_the_gap gs uid pu :
  dense (players gs) →
  players gs !! uid = Some pu →
  players (removePlayer uid gs).1 =
  closeGap (position pu) <$> delete uid (players gs).
Proof.
  intros Hd Hu. apply map_eq. intros v. apply option_eq. intros p'.
  rewrite removePlayer_lookup, lookup_fmap, (roster_delete _ _ _ Hd Hu).
  assert (position pu < length (roster (players gs))) as Hlen.
  { rewrite length_roster. by eapply dense_position_lt. }
  split.
  - intros (j & q & Hj & Hne & Hq & ->).
    rewrite lookup_delete_ne, Hq by done. simpl. f_equal. unfold closeGap. f_equal.
    destruct (decide (j < position pu)) as [Hlt|Hge].
    + rewrite lookup_app_l, lookup_take_lt in Hj
        by (rewrite ?length_take; lia).
      apply (dense_roster_lookup _ _ _ Hd) in Hj. unfold seatPos in Hj. simpl in Hj.
      rewrite decide_True by lia. lia.
    + rewrite lookup_app_r, lookup_drop, length_take in Hj
        by (rewrite ?length_take; lia).
      apply (dense_roster_lookup _ _ _ Hd) in Hj. unfold seatPos in Hj. simpl in Hj.
      rewrite decide_False by lia. lia.
  - intros Hp'. destruct (decide (v = uid)) as [->|Hne].
    { by rewrite lookup_delete_eq in Hp'. }
    rewrite lookup_delete_ne in Hp' by done.
    destruct (players gs !! v) as [q|] eqn:Hq; [|done].
    simpl in Hp'. injection Hp' as <-.
    assert (roster (players gs) !! position q = Some {| uid := v; seated := q |})
      as Hr by (by apply roster_lookup).
    assert (position q ≠ position pu) as Hqu.
    { intros E. apply Hne. by eapply (dense_position_inj (players gs)). }
    exists (if decide (position q < position pu) then position q else position q - 1), q.
    split; [|done].
    case_decide as Hlt.
    + rewrite lookup_app_l, lookup_take_lt by (rewrite ?length_take; lia). done.
    + rewrite lookup_app_r, lookup_drop, length_take by (rewrite ?length_take; lia).
      rewrite <-Hr. f_equal. lia.
Qed.

Lemma removePlayer_closes_the_gap_witness :
  let gs := run sampleLobby [send (sampleOracle 0) "C" "connect-to-room"] in
  dense (players gs) ∧
  players gs !! "B" = Some (joined 1) ∧
  players (removePlayer "B" gs).1 = closeGap 1 <$> delete "B" (players gs) ∧
  players (removePlayer "B" gs).1 !! "C" = Some (joined 1).
Proof.
  intros gs.
  assert (dense (players gs)) as Hd.
  { apply Reachable_Inv.
    exists [send (sampleOracle 0) "A" "connect-to-room";
            send (sampleOracle 0) "B" "connect-to-room";
            send (sampleOracle 0) "C" "connect-to-room"]. reflexivity. }
  assert (players gs !! "B" = Some (joined 1)) as Hu by (vm_compute; reflexivity).
  pose proof (removePlayer_closes_the_gap gs "B" (joined 1) Hd Hu) as H.
  split; [exact Hd|]. split; [exact Hu|]. split; [exact H|].
  rewrite H. vm_compute. reflexivity.
Defined.

(** ** X7: taking a ready signal back *)

Lemma toggled_toggled p : toggled (toggled p) = p.
Proof. by destruct p as [[] ? ? ?]. Qed.

Lemma step_toggle_not_last gs x p v q :
  isToggle x →
  phase gs = pregame →
  players gs !! player x.2 = Some p →
  v ≠ player x.2 → players gs !! v = Some q → status q = waiting →
  step gs x =
  set_commands (commands gs ++ [x.2])
    (set_players (<[player x.2 := toggled p]> (players gs)) gs).
Proof.
  intros Hx Hph Hp Hv Hq Hw. unfold step.
  by rewrite (executeCommand_ok _ _ _ _
                (toggle_not_last _ _ _ _ p v q Hx Hph Hp Hv Hq Hw)).
Qed.

(** X7. While somebody else in the lobby is still waiting, a player who
    sends [toggle-ready] twice is back where they were: both commands
    succeed and are logged, the phase stays [pregame] and the players are
    exactly as before. *)
Theorem toggle_ready_twice_restores_players gs x y p v q :
  phase gs = pregame →
  isToggle x → isToggle y → player y.2 = player x.2 →
  players gs !! player x.2 = Some p →
  v ≠ player x.2 → players gs !! v = Some q → status q = waiting →
  players (run gs [x; y]) = players gs ∧
  phase (run gs [x; y]) = pregame ∧
  commands (run gs [x; y]) = (commands gs ++ [x.2; y.2])%list.
Proof.
  intros Hph Hx Hy Hsame Hp Hv Hq Hw.
  rewrite !run_cons.
  rewrite (step_toggle_not_last gs x p v q) by done.
  rewrite (step_toggle_not_last _ y (toggled p) v q);
    [|done|done|by rewrite Hsame; simpl; rewrite lookup_insert_eq
     |by rewrite Hsame
     |by simpl; rewrite lookup_insert_ne
     |done].
  simpl. rewrite Hsame, insert_insert_eq, toggled_toggled, insert_id by done.
  by rewrite <-(assoc_L app).
Qed.

Lemma toggle_ready_twice_restores_players_witness :
  let x := send (sampleOracle 10) "A" "toggle-ready" in
  players sampleLobby !! player x.2 = Some (joined 0) ∧
  players sampleLobby !! "B" = Some (joined 1) ∧
  players (run sampleLobby [x; x]) = players sampleLobby.
Proof.
  intros x.
  assert (players sampleLobby !! player x.2 = Some (joined 0)) as Hp
    by (vm_compute; reflexivity).
  assert (players sampleLobby !! "B" = Some (joined 1)) as Hq
    by (vm_compute; reflexivity).
  split; [exact Hp|]. split; [exact Hq|].
  refine (proj1 (toggle_ready_twice_restores_players sampleLobby x x
                   (joined 0) "B" (joined 1)
                   eq_refl eq_refl eq_refl eq_refl Hp _ Hq eq_refl)).
  discriminate.
Defined.

(** ** The deal on any store: what it throws and what it takes *)

Lemma dom_insert_present (ps : gmap string Player) u p q :
  ps !! u = Some p → dom (<[u := q]> ps) = dom ps.
Proof.
  intros Hu. rewrite dom_insert_L.
  apply subseteq_union_1_L, singleton_subseteq_l. by eapply elem_of_dom_2.
Qed.

Lemma dealsSafely_bind {A B} D (m : Proc A) (k : A → Proc B) :
  dealsSafely D m → (∀ a, dealsSafely D (k a)) → dealsSafely D (bind m k).
Proof.
  intros Hm Hk gs HD. unfold bind. destruct (Hm gs HD) as [HD' Hthrow].
  destruct (m gs) as [g [a|message]]; simpl in *; [by apply Hk|].
  split; [done|]. intros ? [= <-]. by apply Hthrow.
Qed.

Lemma dealsSafely_forEachFrom {A} D (l : list A) body i :
  (∀ x j, x ∈ l → dealsSafely D (body x j)) → dealsSafely D (forEachFrom i l body).
Proof.
  revert i. induction l as [|x l IH]; intros i Hb; simpl.
  - by intros gs HD.
  - apply dealsSafely_bind; [apply Hb; by left|].
    intros _. apply IH. intros y j Hy. apply Hb. by right.
Qed.

Lemma dealsSafely_times D n body :
  dealsSafely D body → dealsSafely D (times n body).
Proof.
  intros Hb. induction n as [|n IH]; simpl; [by intros gs HD|].
  by apply dealsSafely_bind.
Qed.

Lemma dealsSafely_dealCard D u : u ∈ D → dealsSafely D (dealCard u).
Proof.
  intros Hu gs HD. unfold dealCard, bind, popDrawPile.
  destruct (last (drawPile gs)) as [c|]; simpl.
  - assert (is_Some (players gs !! u)) as [p Hp] by (by apply elem_of_dom; rewrite HD).
    unfold updatePlayer. simpl. rewrite Hp. simpl.
    split; [by rewrite (dom_insert_present _ _ p)|done].
  - split; [done|]. by intros ? [= <-].
Qed.

Lemma dealsSafely_dealRound D : dealsSafely D dealRound.
Proof.
  intros gs HD. unfold dealRound. rewrite bind_gets. unfold forEach.
  apply (dealsSafely_forEachFrom D (playersArray gs) _ 0); [|done].
  intros s _ Hs. apply dealsSafely_dealCard.
  apply elem_of_roster in Hs. rewrite <-HD. by eapply elem_of_dom_2.
Qed.

Lemma dealsSafely_dealing D : dealsSafely D dealing.
Proof.
  unfold dealing. apply dealsSafely_bind.
  - apply dealsSafely_times, dealsSafely_dealRound.
  - intros _ gs HD. unfold bind, popDrawPile.
    destruct (last (drawPile gs)) as [c|]; simpl; [done|].
    split; [done|]. by intros ? [= <-].
Qed.

Lemma consumes_bind {A B} n1 n2 D (m : Proc A) (k : A → Proc B) :
  consumes n1 D m → (∀ a, consumes n2 D (k a)) → consumes (n1 + n2) D (bind m k).
Proof.
  intros Hm Hk gs g b HD. unfold bind.
  destruct (m gs) as [g1 [a|message]] eqn:E; [|done].
  intros Hk1. destruct (Hm gs g1 a HD E) as [Hn1 HD1].
  destruct (Hk a g1 g b HD1 Hk1) as [Hn2 HD2]. split; [lia|done].
Qed.

Lemma consumes_forEachFrom {A} D (l : list A) body i :
  (∀ x j, x ∈ l → consumes 1 D (body x j)) →
  consumes (length l) D (forEachFrom i l body).
Proof.
  revert i. induction l as [|x l IH]; intros i Hb; simpl.
  - intros gs g a HD [= <- _]. split; [lia|done].
  - apply (consumes_bind 1 (length l)); [apply Hb; by left|].
    intros _. apply IH. intros y j Hy. apply Hb. by right.
Qed.

Lemma consumes_dealCard D u : u ∈ D → consumes 1 D (dealCard u).
Proof.
  intros Hu gs g a HD. unfold dealCard, bind, popDrawPile.
  destruct (last (drawPile gs)) as [c|] eqn:Hlast; simpl; [|done].
  apply last_Some in Hlast as [d Hd].
  assert (is_Some (players gs !! u)) as [p Hp] by (by apply elem_of_dom; rewrite HD).
  unfold updatePlayer. simpl. rewrite Hp. intros [= <- _]. simpl.
  rewrite Hd, removelast_last, length_app. simpl.
  split; [done|]. by rewrite (dom_insert_present _ _ p).
Qed.

Lemma consumes_dealRound D : consumes (size D) D dealRound.
Proof.
  intros gs g a HD. unfold dealRound. rewrite bind_gets. unfold forEach.
  intros Hrun.
  assert (size D = length (playersArray gs)) as ->.
  { unfold playersArray. by rewrite length_roster, <-HD, size_dom. }
  apply (consumes_forEachFrom D (playersArray gs)
           (λ s _, dealCard (uid s)) 0) with (a := a); [|done..].
  intros s _ Hs. apply consumes_dealCard.
  apply elem_of_roster in Hs. rewrite <-HD. by eapply elem_of_dom_2.
Qed.

Lemma consumes_times D n k body :
  consumes k D body → consumes (n * k) D (times n body).
Proof.
  intros Hb. induction n as [|n IH]; simpl.
  - intros gs g a HD [= <- _]. split; [lia|done].
  - by apply consumes_bind.
Qed.

Lemma consumes_dealing D : consumes (CARDS_PER_HAND * size D + 1) D dealing.
Proof.
  unfold dealing. apply consumes_bind.
  - apply consumes_times, consumes_dealRound.
  - intros _ gs g a HD. unfold bind, popDrawPile.
    destruct (last (drawPile gs)) as [c|] eqn:Hlast; simpl; [|done].
    apply last_Some in Hlast as [d Hd]. intros [= <- _]. simpl.
    rewrite Hd, removelast_last, length_app. simpl. done.
Qed.

(** [startGame] throws nothing but its two errors, and completes only with
    at least two players and [4P + 1] cards. *)
Lemma startGame_throws o sp gs g message :
  startGame o sp gs = (g, Throw message) →
  (size (players gs) ≤ 1 ∧ message = "Need at least two players to start game") ∨
  (2 ≤ size (players gs) ∧ message = "Overdraw from draw pile").
Proof.
  intros H. destruct (decide (size (players gs) ≤ 1)) as [Hfew|Hmany].
  - left. split; [done|]. rewrite startGame_few in H by done. by injection H as _ <-.
  - right. split; [lia|].
    destruct (startGame_dealing o sp gs) as (active & _ & Hstart); [lia|].
    rewrite Hstart in H.
    eapply (dealsSafely_dealing (dom (players gs))); [|by rewrite H]. done.
Qed.

Lemma startGame_normal o sp gs g :
  startGame o sp gs = (g, Normal tt) →
  2 ≤ size (players gs) ∧
  CARDS_PER_HAND * size (players gs) + 1 ≤ length (generateDeck o).1.
Proof.
  intros H. destruct (decide (size (players gs) ≤ 1)) as [Hfew|Hmany].
  { by rewrite startGame_few in H. }
  split; [lia|].
  destruct (startGame_dealing o sp gs) as (active & _ & Hstart); [lia|].
  rewrite Hstart in H.
  apply (consumes_dealing (dom (players gs))) in H as [Hn _]; [|done].
  cbn [drawPile set_cardMap set_drawPile] in Hn. rewrite size_dom in Hn. lia.
Qed.

(** ** X8: which commands are rejected, and why *)

Lemma playersAt_boolean uid gs b :
  playersAt uid gs = memberBoolean b ↔
  uid = "isOnline" ∧ players gs !! uid = None ∧ prototypeIsOnline gs = Some b.
Proof.
  unfold playersAt, inherited. destruct (players gs !! uid) as [p|].
  { split; [done|]. by intros (_ & ? & _). }
  case_decide as Hn.
  { split; [done|]. intros (-> & _ & _). exfalso. revert Hn.
    unfold objectPrototypeNames. rewrite !elem_of_cons, elem_of_nil.
    intros H. repeat destruct H as [H|H]; done. }
  case_decide as Hu.
  - destruct (prototypeIsOnline gs) as [b'|]; split; try done.
    + by intros [= ->].
    + by intros (_ & _ & [= ->]).
    + by intros (_ & _ & ?).
  - split; [done|]. by intros (? & _).
Qed.

(** X8. A rejection answers a [toggle-ready] for one of four reasons, each
    in its own situation: the game has started; [gameState.players[uid]] is
    [undefined] for the sender (the [TypeError] of the status lookup);
    everybody seated is ready but fewer than two players are seated; or at
    least two are seated and the deck ran out during the deal.  The only
    other rejection is the [TypeError] of writing [isOnline] on a boolean: it
    answers a [connect-to-room], or a [disconnect-from-room] during the
    game, whose uid is "isOnline", not seated, once [Object.prototype] has
    been given that property (by a command with uid [__proto__]).  Every
    other command is answered with a broadcast. *)
Theorem rejections_are_classified o cc gs reason :
  (executeCommand o cc gs).2 = [rejection cc reason] →
  (prop "id" (command cc) = JsString "toggle-ready" ∧
   ((phase gs = ingame ∧ reason = "Game has already started") ∨
    (phase gs = pregame ∧ playersAt (player cc) gs = memberUndefined ∧
     reason = cannotRead "status") ∨
    (phase gs = pregame ∧ playersAt (player cc) gs ≠ memberUndefined ∧
     size (players gs) ≤ 1 ∧
     reason = "Need at least two players to start game") ∨
    (phase gs = pregame ∧ playersAt (player cc) gs ≠ memberUndefined ∧
     2 ≤ size (players gs) ∧
     reason = "Overdraw from draw pile"))) ∨
  (∃ b,
     player cc = "isOnline" ∧ players gs !! "isOnline" = None ∧
     prototypeIsOnline gs = Some b ∧
     reason = cannotCreate "isOnline" b ∧
     (prop "id" (command cc) = JsString "connect-to-room" ∨
      (prop "id" (command cc) = JsString "disconnect-from-room" ∧
       phase gs = ingame))).
Proof.
  unfold executeCommand.
  destruct (dispatch o (player cc) (command cc) gs) as [g [[]|message]] eqn:Hd;
    [done|].
  simpl. intros [= <-].
  assert (∀ b, players gs !! player cc = None →
               inherited (player cc) gs = memberBoolean b →
               player cc = "isOnline" ∧ players gs !! "isOnline" = None ∧
               prototypeIsOnline gs = Some b) as Hbool.
  { intros b Hp Hi.
    destruct (proj1 (playersAt_boolean (player cc) gs b)) as (E & Hno & Hb).
    - unfold playersAt. by rewrite Hp.
    - rewrite E in Hno. done. }
  destruct (decide (prop "id" (command cc) = JsString "connect-to-room")) as [Hc|Hc];
    [|destruct (decide (prop "id" (command cc) = JsString "disconnect-from-room"))
        as [Hdc|Hdc];
      [|destruct (decide (prop "id" (command cc) = JsString "toggle-ready"))
          as [Ht|Ht]]].
  - right. rewrite dispatch_connect in Hd by done.
    destruct (players gs !! player cc) eqn:Hp; [done|].
    destruct (inherited (player cc) gs) as [| |b|] eqn:Hi; [done|done| |].
    + destruct (Hbool b eq_refl eq_refl) as (? & ? & ?).
      exists b. injection Hd as _ <-. eauto 10.
    + case_decide; [|done]. by rewrite addPlayer_eq in Hd.
  - right. rewrite dispatch_disconnect in Hd by done.
    destruct (players gs !! player cc) eqn:Hp.
    { case_decide; [done|]. by rewrite removePlayer_eq in Hd. }
    destruct (inherited (player cc) gs) as [| |b|] eqn:Hi; [| | |done].
    1-2: case_decide; [done|]; by rewrite removePlayer_eq in Hd.
    case_decide as Hph; [|by rewrite removePlayer_eq in Hd].
    destruct (Hbool b eq_refl eq_refl) as (? & ? & ?).
    exists b. injection Hd as _ <-. eauto 10.
  - left. split; [done|]. rewrite dispatch_toggle in Hd by done.
    case_decide as Hph.
    { left. split; [done|]. by injection Hd as _ <-. }
    assert (phase gs = pregame) as Hpre by (by destruct (phase gs)).
    right.
    destruct (playersAt (player cc) gs) as [p| |b|] eqn:Hat.
    4: { left. split; [done|]. split; [done|]. by injection Hd as _ <-. }
    all: right; cbv zeta in Hd; destruct (everyReady _); [|done].
    all: apply startGame_throws in Hd; simpl in Hd; rewrite size_flipped in Hd.
    all: destruct Hd as [[? ->]|[? ->]]; [left|right]; repeat split; done.
  - by rewrite dispatch_other in Hd.
Qed.

Lemma rejections_are_classified_witness :
  let o := sampleOracle 10 in
  let gs := run initGameState [send o "__proto__" "connect-to-room"] in
  let cc := (send o "isOnline" "connect-to-room").2 in
  (executeCommand o cc gs).2 = [rejection cc (cannotCreate "isOnline" true)] ∧
  prototypeIsOnline gs = Some true.
Proof.
  intros o gs cc.
  assert ((executeCommand o cc gs).2 =
            [rejection cc (cannotCreate "isOnline" true)]) as H
    by (vm_compute; reflexivity).
  split; [exact H|].
  destruct (rejections_are_classified o cc gs _ H)
    as [[Hid _]|(b & _ & _ & Hb & Hr & _)].
  - exfalso. revert Hid. vm_compute. discriminate.
  - rewrite Hb. f_equal. revert Hr. destruct b; vm_compute; [reflexivity|discriminate].
Defined.

(** ** X9: when the start of the game succeeds *)

(** X9. When a command of the server takes the phase from [pregame] to
    [ingame], it is answered with a broadcast exactly when the generated deck
    has at least [4P + 1] cards, [P] being the number of seated players;
    with fewer cards it is rejected with "Overdraw from draw pile". *)
Theorem start_succeeds_iff_enough_cards o cc gs :
  let P := size (players gs) in
  let N := length (generateDeck o).1 in
  Reachable gs →
  phase gs = pregame →
  phase (executeCommand o cc gs).1 = ingame →
  ((∃ m, (executeCommand o cc gs).2 = [broadcastUpdate m]) ↔ 4 * P + 1 ≤ N) ∧
  (N < 4 * P + 1 →
   (executeCommand o cc gs).2 = [rejection cc "Overdraw from draw pile"]).
Proof.
  intros P N Hreach Hpre Hin.
  pose proof (Reachable_Inv gs Hreach) as HInv.
  destruct (start_inv o cc gs Hpre Hin) as (HP & Hdisp).
  assert (size (flipped (player cc) (players gs)) = P) as Hsz
    by apply size_flipped.
  assert (N < 4 * P + 1 →
          (executeCommand o cc gs).2 = [rejection cc "Overdraw from draw pile"])
    as Hfail.
  { intros HN.
    destruct (startGame o None
                (set_players (flipped (player cc) (players gs)) gs))
      as [g [[]|message]] eqn:Hs.
    - apply startGame_normal in Hs as [_ Hs]. simpl in Hs. rewrite Hsz in Hs.
      unfold CARDS_PER_HAND in Hs. fold N in Hs. lia.
    - rewrite (executeCommand_throw _ _ _ _ _ Hdisp).
      apply startGame_throws in Hs as [[Hs _]|[_ ->]]; [|done].
      simpl in Hs. rewrite Hsz in Hs. fold P in HP. lia. }
  split; [split|done].
  - intros [m Hm]. destruct (decide (4 * P + 1 ≤ N)) as [|Hlt]; [done|].
    rewrite Hfail in Hm by lia. done.
  - intros HN.
    destruct (start_result o cc gs HInv Hpre Hin HN)
      as (_ & g & _ & _ & Hok & _).
    rewrite (executeCommand_ok _ _ _ _ Hok). eauto.
Qed.

Lemma start_succeeds_iff_enough_cards_witness :
  let o := sampleOracle 3 in
  let gs := run sampleLobby [send o "B" "toggle-ready"] in
  let cc := (send o "A" "toggle-ready").2 in
  Reachable gs ∧
  phase gs = pregame ∧
  phase (executeCommand o cc gs).1 = ingame ∧
  length (generateDeck o).1 < 4 * size (players gs) + 1 ∧
  (executeCommand o cc gs).2 = [rejection cc "Overdraw from draw pile"].
Proof.
  intros o gs cc.
  assert (Reachable gs) as Hreach.
  { exists [send (sampleOracle 0) "A" "connect-to-room";
            send (sampleOracle 0) "B" "connect-to-room";
            send o "B" "toggle-ready"]. reflexivity. }
  assert (phase gs = pregame) as Hpre by (vm_compute; reflexivity).
  assert (phase (executeCommand o cc gs).1 = ingame) as Hin
    by (vm_compute; reflexivity).
  assert (length (generateDeck o).1 < 4 * size (players gs) + 1) as HN
    by (vm_compute; lia).
  split; [exact Hreach|]. split; [exact Hpre|]. split; [exact Hin|].
  split; [exact HN|].
  exact (proj2 (start_succeeds_iff_enough_cards o cc gs Hreach Hpre Hin) HN).
Defined.

(** ** X10: no card is lost or copied, whatever the deck *)

Lemma executeCommand_cardIds o cc gs :
  cardIds (executeCommand o cc gs).1 =
  cardIds (dispatch o (player cc) (command cc) gs).1.
Proof.
  unfold executeCommand.
  by destruct (dispatch o (player cc) (command cc) gs) as [g [[]|message]].
Qed.

Lemma start_conserves o cc gs :
  Inv gs →
  phase gs = pregame →
  phase (executeCommand o cc gs).1 = ingame →
  cardIds (executeCommand o cc gs).1 ≡ₚ cardId <$> (generateDeck o).1.
Proof.
  intros [_ Hu] Hpre Hin.
  destruct (start_inv o cc gs Hpre Hin) as (HP & Hdisp).
  destruct (Hu Hpre) as [Hdisc Hhands].
  destruct (startGame_dealing o None
              (set_players (flipped (player cc) (players gs)) gs))
    as (active & _ & Hstart).
  { simpl. by rewrite size_flipped. }
  set (gs2 := set_cardMap _ _) in Hstart.
  assert (conserved (cardId <$> (generateDeck o).1) (dom (players gs2)) gs2)
    as Hcons.
  { split; [|done]. unfold cardIds, cardsOf. simpl. rewrite Hdisc.
    rewrite handCards_empty; [by rewrite !app_nil_r|].
    intros u q (p & Hp & _ & -> & _)%flipped_lookup. by eapply Hhands. }
  apply dealing_conserved in Hcons as [Hperm _].
  by rewrite executeCommand_cardIds, Hdisp, Hstart.
Qed.

(** X10. When a command of the server takes the phase from [pregame] to
    [ingame], the identifiers found afterwards in the draw pile, the discard
    pile and the hands are those of the generated deck, each as often as in
    the deck; this holds also when the deck is too small and the command is
    rejected in the middle of the deal. *)
Theorem start_conserves_cards_even_on_overdraw o cc gs :
  Reachable gs →
  phase gs = pregame →
  phase (executeCommand o cc gs).1 = ingame →
  cardIds (executeCommand o cc gs).1 ≡ₚ cardId <$> (generateDeck o).1 ∧
  (NoDup (cardId <$> (generateDeck o).1) → NoDup (cardIds (executeCommand o cc gs).1)).
Proof.
  intros Hreach Hpre Hin.
  pose proof (start_conserves o cc gs (Reachable_Inv gs Hreach) Hpre Hin) as H.
  split; [done|]. intros Hnd. by rewrite H.
Qed.

Lemma start_conserves_cards_even_on_overdraw_witness :
  let o := sampleOracle 3 in
  let gs := run sampleLobby [send o "B" "toggle-ready"] in
  let cc := (send o "A" "toggle-ready").2 in
  Reachable gs ∧
  phase gs = pregame ∧
  phase (executeCommand o cc gs).1 = ingame ∧
  cardIds (executeCommand o cc gs).1 ≡ₚ cardId <$> (generateDeck o).1.
Proof.
  intros o gs cc.
  assert (Reachable gs) as Hreach.
  { exists [send (sampleOracle 0) "A" "connect-to-room";
            send (sampleOracle 0) "B" "connect-to-room";
            send o "B" "toggle-ready"]. reflexivity. }
  assert (phase gs = pregame) as Hpre by (vm_compute; reflexivity).
  assert (phase (executeCommand o cc gs).1 = ingame) as Hin
    by (vm_compute; reflexivity).
  split; [exact Hreach|]. split; [exact Hpre|]. split; [exact Hin|].
  exact (proj1 (start_conserves_cards_even_on_overdraw o cc gs Hreach Hpre Hin)).
Defined.

(** ** X11: what holds in every store the server reaches *)

Lemma sameTable_dom gs g : sameTable gs g → dom (players g) = dom (players gs).
Proof.
  intros (_ & _ & _ & _ & _ & Hps). apply (f_equal dom) in Hps.
  unfold ignoringOnline in Hps. by rewrite !dom_fmap_L in Hps.
Qed.

Lemma handCards_ignoringOnline ps : handCards (ignoringOnline ps) = handCards ps.
Proof.
  unfold handCards, ignoringOnline.
  by rewrite map_to_list_fmap, <-list_fmap_compose.
Qed.

Lemma sameTable_cardIds gs g : sameTable gs g → cardIds g = cardIds gs.
Proof.
  intros (_ & _ & _ & Hdisc & Hdraw & Hps). unfold cardIds, cardsOf.
  by rewrite Hdisc, Hdraw, <-(handCards_ignoringOnline (players g)), Hps,
             handCards_ignoringOnline.
Qed.

Lemma dealing_keeps a D :
  preserves (λ g, activePlayerUid g = a ∧ dom (players g) = D) dealing.
Proof.
  unfold dealing, dealRound, forEach, dealCard. preserves_walk; try done.
  all: match goal with H : _ ∧ _ |- _ => destruct H as [Ha HD] end.
  all: split; [done|]; simpl; by erewrite dom_insert_present.
Qed.

Lemma pristine_set_players gs ps :
  pristine gs →
  (∀ u p, ps !! u = Some p → hand p = [] ∧ isOnline p = true) →
  pristine (set_players ps gs).
Proof. intros (?&?&?&?&_) Hps. by repeat split; simpl; try eapply Hps. Qed.

Lemma phaseInv_pregame g : phase g = pregame → pristine g → phaseInv g.
Proof. intros Hph Hp. split; [done|congruence]. Qed.

Lemma phaseInv_builtinWritten uid v gs : phaseInv gs → phaseInv (builtinWritten uid v gs).
Proof. intros H. destruct (builtinWritten_eq uid v gs) as [w ->]. exact H. Qed.

Lemma removePlayer_phaseInv pl gs :
  phase gs = pregame → pristine gs → phaseInv (removePlayer pl gs).1.
Proof.
  intros Hph Hpre. pose proof Hpre as (_ & _ & _ & _ & Hps).
  apply phaseInv_pregame; [by rewrite removePlayer_eq|].
  assert (∀ u q, players (removePlayer pl gs).1 !! u = Some q →
                 hand q = [] ∧ isOnline q = true) as Hrem.
  { intros u q (j & q0 & _ & _ & Hq0 & ->)%removePlayer_lookup. simpl.
    by eapply Hps. }
  rewrite removePlayer_eq in *. by apply pristine_set_players.
Qed.

Lemma dispatch_phaseInv o pl c gs : phaseInv gs → phaseInv (dispatch o pl c gs).1.
Proof.
  intros HJ. pose proof HJ as [Hpre Hin]. destruct (phase gs) eqn:Hph.
  - specialize (Hpre eq_refl). clear Hin.
    pose proof Hpre as (_ & _ & _ & _ & Hps).
    destruct (decide (prop "id" c = JsString "connect-to-room")) as [Hc|Hc];
      [|destruct (decide (prop "id" c = JsString "disconnect-from-room"))
          as [Hdc|Hdc];
        [|destruct (decide (prop "id" c = JsString "toggle-ready")) as [Ht|Ht]]].
    + rewrite dispatch_connect by done.
      destruct (players gs !! pl) as [p|] eqn:Hp.
      * apply phaseInv_pregame; [done|]. apply pristine_set_players; [done|].
        intros u q [[_ <-]|[_ Hq]]%lookup_insert_Some; simpl; [|by eapply Hps].
        split; [by eapply Hps|done].
      * destruct (inherited pl gs);
          [by apply phaseInv_builtinWritten..|done|].
        rewrite decide_True by done. rewrite addPlayer_eq.
        apply phaseInv_pregame; [done|]. apply pristine_set_players; [done|].
        intros u q [[_ <-]|[_ Hq]]%lookup_insert_Some; simpl; [done|by eapply Hps].
    + rewrite dispatch_disconnect by done.
      pose proof (removePlayer_phaseInv pl gs Hph Hpre) as Hrem.
      destruct (players gs !! pl) as [p|] eqn:Hp.
      * by rewrite decide_False by congruence.
      * destruct (inherited pl gs); [by rewrite decide_False by congruence..|done].
    + rewrite dispatch_toggle by done. rewrite decide_False by congruence.
      set (gs1 := set_players (flipped pl (players gs)) gs).
      assert (pristine gs1) as Hp1.
      { apply pristine_set_players; [done|].
        intros u q (p & Hp & _ & -> & ->)%flipped_lookup. by eapply Hps. }
      assert (phaseInv (if everyReady gs1 then startGame o None gs1
                        else (gs1, Normal tt)).1) as Hgoal.
      { destruct (everyReady gs1); [|by apply phaseInv_pregame].
        destruct (decide (size (players gs1) ≤ 1)) as [Hfew|Hmany].
        { rewrite startGame_few by done. by apply phaseInv_pregame. }
        split; [rewrite startGame_ingame by lia; congruence|]. intros _.
        destruct (startGame_dealing o None gs1) as (active & Hact & Hstart); [lia|].
        destruct Hact as [[=]|[_ Hseated]]. rewrite Hstart.
        set (gs2 := set_cardMap _ _).
        destruct (dealing_keeps (Some active) (dom (players gs1)) gs2) as [Ha HD];
          [done|].
        split.
        - rewrite <-size_dom, HD, size_dom. lia.
        - exists active. split; [done|].
          apply elem_of_dom. rewrite HD. by apply elem_of_dom. }
      by destruct (playersAt pl gs).
    + rewrite dispatch_other by done. by apply phaseInv_pregame.
  - destruct (Hin eq_refl) as [Hsz (u & Hu & Hseated)].
    pose proof (dispatch_ingame_sameTable o pl c gs Hph) as Hs.
    pose proof (sameTable_dom _ _ Hs) as HD.
    destruct Hs as (Hph' & Ha & _).
    split; [congruence|]. intros _. split.
    + by rewrite <-size_dom, HD, size_dom.
    + exists u. split; [congruence|].
      apply elem_of_dom. rewrite HD. by apply elem_of_dom.
Qed.

Lemma step_phaseInv gs x : phaseInv gs → phaseInv (step gs x).
Proof.
  intros H. apply (dispatch_phaseInv x.1 (player x.2) (command x.2)) in H.
  unfold step, executeCommand.
  destruct (dispatch x.1 (player x.2) (command x.2) gs) as [g [[]|message]]; done.
Qed.

Lemma initGameState_phaseInv : phaseInv initGameState.
Proof.
  apply phaseInv_pregame; [done|]. repeat split; try done.
  all: intros u p; simpl; by rewrite lookup_empty.
Qed.

Lemma run_phaseInv gs xs : phaseInv gs → phaseInv (run gs xs).
Proof.
  revert gs. induction xs as [|x xs IH]; intros gs H; [done|].
  rewrite run_cons. by apply IH, step_phaseInv.
Qed.

(** X11. In every store the server reaches, after any commands with any
    decks, the positions are dense; while the phase is [pregame] no active
    player, card map or pile is set, every hand is empty and every seated
    player is online; and once it is [ingame] at least two players are
    seated and the active player is one of them. *)
Theorem reachable_store_invariants gs :
  Reachable gs →
  dense (players gs) ∧
  (phase gs = pregame → pristine gs) ∧
  (phase gs = ingame → 2 ≤ size (players gs) ∧ activeSeated gs).
Proof.
  intros Hreach. split; [by apply Reachable_Inv|].
  destruct Hreach as [xs ->]. apply run_phaseInv, initGameState_phaseInv.
Qed.

Lemma reachable_store_invariants_witness :
  Reachable sampleGame ∧
  phase sampleGame = ingame ∧
  2 ≤ size (players sampleGame) ∧
  activeSeated sampleGame.
Proof.
  assert (Reachable sampleGame) as Hreach.
  { exists [send (sampleOracle 0) "A" "connect-to-room";
            send (sampleOracle 0) "B" "connect-to-room";
            send (sampleOracle 10) "B" "toggle-ready";
            send (sampleOracle 10) "A" "toggle-ready"]. reflexivity. }
  assert (phase sampleGame = ingame) as Hph by (vm_compute; reflexivity).
  split; [exact Hreach|]. split; [exact Hph|].
  exact (proj2 (proj2 (reachable_store_invariants sampleGame Hreach)) Hph).
Defined.

(** ** X12: no identifier twice on the table *)

Lemma step_NoDup gs x :
  Inv gs → phaseInv gs → NoDup (cardIds gs) → distinctIds x →
  NoDup (cardIds (step gs x)).
Proof.
  intros HInv HJ Hnd Hx. destruct (phase gs) eqn:Hph.
  - destruct (phase (step gs x)) eqn:Hph'.
    + destruct (step_phaseInv gs x HJ) as [Hp _].
      destruct (Hp Hph') as (_ & _ & Hdraw & Hdisc & Hps).
      unfold cardIds, cardsOf. rewrite Hdraw, Hdisc, handCards_empty.
      * constructor.
      * intros u p Hu. by eapply Hps.
    + unfold step in *. by rewrite (start_conserves _ _ _ HInv Hph Hph').
  - by rewrite (sameTable_cardIds _ _ (step_ingame_sameTable gs x Hph)).
Qed.

(** X12. As long as every deck that [generateDeck] returns has pairwise
    distinct identifiers, no store the server reaches holds an identifier
    twice across the draw pile, the discard pile and the hands; rejected
    starts and commands sent during the game included. *)
Theorem reachable_table_has_no_duplicate_card xs :
  Forall distinctIds xs → NoDup (cardIds (run initGameState xs)).
Proof.
  intros Hxs.
  assert (∀ gs, Inv gs → phaseInv gs → NoDup (cardIds gs) →
                NoDup (cardIds (run gs xs))) as Hrun.
  { induction Hxs as [|x xs Hx Hxs IH]; intros gs HInv HJ Hnd; [done|].
    rewrite run_cons.
    apply IH; [by apply step_Inv|by apply step_phaseInv|by apply step_NoDup]. }
  apply Hrun; [apply initGameState_Inv|apply initGameState_phaseInv|constructor].
Qed.

Lemma reachable_table_has_no_duplicate_card_witness :
  Forall distinctIds
    [send (sampleOracle 0) "A" "connect-to-room";
     send (sampleOracle 0) "B" "connect-to-room";
     send (sampleOracle 10) "B" "toggle-ready";
     send (sampleOracle 10) "A" "toggle-ready"] ∧
  NoDup (cardIds sampleGame).
Proof.
  assert (Forall distinctIds
            [send (sampleOracle 0) "A" "connect-to-room";
             send (sampleOracle 0) "B" "connect-to-room";
             send (sampleOracle 10) "B" "toggle-ready";
             send (sampleOracle 10) "A" "toggle-ready"]) as Hxs.
  { repeat constructor; apply (bool_decide_unpack _); vm_compute; exact I. }
  split; [exact Hxs|].
  exact (reachable_table_has_no_duplicate_card _ Hxs).
Defined.

(** ** X13: what the view reveals *)

(** X13. The view shows the top of the discard pile with all the properties
    the stored card has and [orientation] forced to "up", or no card when
    the pile is empty.  A face-up hand card is shown as the entry the card
    map holds under its identifier, with [orientation] "up": what the hand
    card itself carries is not shown, and when the card map has no such
    entry the shown card has nothing but its orientation, not even an
    identifier. *)
Theorem evalClientState_reveals_from_cardMap (gs : GameState) (viewer : string) :
  let v := evalClientState gs viewer in
  topCard (ClientState.discardPile v) =
    (λ card, <["orientation" := JsString "up"]> card) <$> last (discardPile gs) ∧
  count (ClientState.discardPile v) = length (discardPile gs) ∧
  (∀ i s j card,
     playersArray gs !! i = Some s →
     hand (seated s) !! j = Some card →
     prop "orientation" card = JsString "up" →
     ∃ s', ClientState.players v !! i = Some s' ∧
           hand (seated s') !! j = Some (toFaceUp gs card)) ∧
  (∀ card entry,
     toCard gs card = Some entry →
     toFaceUp gs card = <["orientation" := JsString "up"]> entry) ∧
  (∀ card,
     toCard gs card = None →
     toFaceUp gs card = {[ "orientation" := JsString "up" ]} ∧
     prop "id" (toFaceUp gs card) = JsUndefined).
Proof.
  intros v. unfold v. rewrite view_discardPile.
  split; [done|]. split; [done|]. split; [|split].
  - intros i s j card Hs Hc Hup. rewrite view_players_lookup, Hs. simpl.
    eexists. split; [done|]. simpl. rewrite list_lookup_fmap, Hc. simpl.
    by rewrite decide_True.
  - intros card entry He. unfold toCard in He. unfold toFaceUp. by rewrite He.
  - intros card He. unfold toCard in He. unfold toFaceUp. rewrite He. simpl.
    split; [by rewrite insert_empty|done].
Qed.

Lemma evalClientState_reveals_from_cardMap_witness :
  let card : Card := {[ "id" := JsNumber 42; "orientation" := JsString "up" ]} in
  toCard sampleGame card = None ∧
  toFaceUp sampleGame card = {[ "orientation" := JsString "up" ]}.
Proof.
  intros card.
  assert (toCard sampleGame card = None) as H by (vm_compute; reflexivity).
  split; [exact H|].
  exact (proj1 (proj2 (proj2 (proj2 (proj2
           (evalClientState_reveals_from_cardMap sampleGame "A")))) card H)).
Defined.

(** ** X14: the players in the view *)

(** X14. The view lists every seated player exactly once, in non-decreasing
    order of position, each with the uid, status, position and connectivity
    flag the store holds and a hand of the same length, and it mirrors the
    phase and the active player, with an empty action queue. *)
Theorem evalClientState_lists_players (gs : GameState) (viewer : string) :
  let v := evalClientState gs viewer in
  ClientState.phase v = phase gs ∧
  ClientState.activePlayerUid v = activePlayerUid gs ∧
  ClientState.actionQueue v = [] ∧
  uid <$> ClientState.players v = uid <$> playersArray gs ∧
  NoDup (uid <$> ClientState.players v) ∧
  length (ClientState.players v) = size (players gs) ∧
  StronglySorted byPosition (ClientState.players v) ∧
  (∀ s, s ∈ ClientState.players v →
        ∃ p, players gs !! uid s = Some p ∧
             status (seated s) = status p ∧
             position (seated s) = position p ∧
             isOnline (seated s) = isOnline p ∧
             length (hand (seated s)) = length (hand p)) ∧
  (∀ u, is_Some (players gs !! u) → u ∈ uid <$> ClientState.players v).
Proof.
  intros v.
  assert (uid <$> ClientState.players v = uid <$> playersArray gs) as Huid.
  { simpl. rewrite <-list_fmap_compose. by apply list_fmap_ext. }
  split; [done|]. split; [done|]. split; [done|]. split; [done|].
  split; [rewrite Huid; apply NoDup_uid_roster|].
  split; [simpl; rewrite length_fmap; apply length_roster|].
  split; [|split].
  - simpl. apply (StronglySorted_fmap _ byPosition byPosition); [done|].
    apply sortByPosition_Sorted.
  - intros s Hs. simpl in Hs. apply list_elem_of_fmap in Hs as (s0 & -> & Hs0).
    apply elem_of_roster in Hs0. exists (seated s0). simpl.
    by rewrite length_fmap.
  - intros u [p Hp]. rewrite Huid.
    apply (list_elem_of_fmap_2 uid _ {| uid := u; seated := p |}).
    by apply elem_of_roster.
Qed.

Lemma evalClientState_lists_players_witness :
  is_Some (players sampleGame !! "B") ∧
  "B" ∈ uid <$> ClientState.players (evalClientState sampleGame "A").
Proof.
  assert (is_Some (players sampleGame !! "B")) as H by (vm_compute; eauto).
  split; [exact H|].
  exact (proj2 (proj2 (proj2 (proj2 (proj2 (proj2 (proj2 (proj2
           (evalClientState_lists_players sampleGame "A"))))))))
           "B" H).
Defined.

(** ** X15: what everybody is shown when the game starts *)

Lemma position_dealt deck P p : position (dealt deck P p) = position p.
Proof. unfold dealt. by rewrite !position_pushCard. Qed.

Lemma project_faceDown gs card :
  (if decide (prop "orientation" (faceDown card) = JsString "up")
   then toFaceUp gs (faceDown card) else toFaceDown (faceDown card)) =
  toFaceDown card.
Proof.
  rewrite faceDown_orientation, decide_False by done.
  unfold toFaceDown. by rewrite (faceDown_id card : prop "id" _ = _).
Qed.

(** X15. The view broadcast by the command that starts the game, with a deck
    of [N >= 4P + 1] cards, shows: phase [ingame]; one discarded card, deck
    card [N - 4P - 1], face up with its payload; a draw pile of
    [N - 4P - 1] cards whose top is reduced to identifier and orientation;
    and the [P] players in seating order, the one at position [i] with four
    cards that are each reduced to the identifier of deck card
    [N - 1 - (kP + i)] and orientation "down".  So the discarded card is the
    only payload anybody is shown. *)
Theorem evalClientState_after_start o cc gs viewer :
  let deck := (generateDeck o).1 in
  let P := size (players gs) in
  let N := length deck in
  let v := evalClientState (executeCommand o cc gs).1 viewer in
  Reachable gs →
  phase gs = pregame →
  phase (executeCommand o cc gs).1 = ingame →
  4 * P + 1 ≤ N →
  ClientState.phase v = ingame ∧
  ClientState.discardPile v =
    {| topCard := (λ card, <["orientation" := JsString "up"]> card)
                    <$> deck !! (N - 4 * P - 1);
       count := 1 |} ∧
  ClientState.drawPile v =
    {| topCard := toFaceDown <$> last (take (N - 4 * P - 1) deck);
       count := N - 4 * P - 1 |} ∧
  length (ClientState.players v) = P ∧
  ∀ i s, ClientState.players v !! i = Some s →
         position (seated s) = i ∧
         length (hand (seated s)) = 4 ∧
         ∀ k, k < 4 →
              hand (seated s) !! k =
              toFaceDown <$> deck !! (N - 1 - (k * P + i)).
Proof.
  intros deck P N v Hreach Hpre Hin HN.
  pose proof (Reachable_Inv gs Hreach) as HInv.
  destruct (start_result o cc gs HInv Hpre Hin HN)
    as (top & g & HP & Htop & Hdisp & Hdisc & Hdraw & _ & Hplayers).
  fold deck P N in Htop, Hdraw, Hplayers.
  destruct HInv as [Hd Hu]. destruct (Hu Hpre) as [_ Hhands].
  set (ps1 := flipped (player cc) (players gs)) in *.
  assert (dense ps1) as Hd1 by (by apply dense_flipped).
  assert (size ps1 = P) as Hsz1 by apply size_flipped.
  assert (∀ u q, ps1 !! u = Some q → hand q = []) as Hhands1.
  { intros u q (p & Hp & _ & -> & _)%flipped_lookup. by eapply Hhands. }
  assert (v = evalClientState g viewer) as ->.
  { unfold v. by rewrite (executeCommand_ok _ _ _ _ Hdisp). }
  split.
  { rewrite (executeCommand_ok _ _ _ _ Hdisp) in Hin. done. }
  rewrite view_discardPile, view_drawPile, Hdisc, Hdraw.
  split; [by rewrite Htop|].
  split; [f_equal; rewrite length_take; fold N; lia|].
  split.
  { simpl. rewrite length_fmap. unfold playersArray.
    by rewrite length_roster, Hplayers, map_size_fmap. }
  intros i s. rewrite view_players_lookup. unfold playersArray.
  rewrite Hplayers, roster_fmap by apply position_dealt.
  rewrite list_lookup_fmap.
  destruct (roster ps1 !! i) as [s0|] eqn:Hs0; [|done].
  simpl. intros [= <-]. simpl.
  apply (roster_lookup ps1 i s0 Hd1) in Hs0 as [Hq Hpos].
  assert (position (seated s0) < P) as Hlt
    by (rewrite <-Hsz1; by eapply dense_position_lt).
  destruct (dealt_hand deck P (seated s0) Hlt HN (Hhands1 _ _ Hq))
    as (Hposd & Hlen & Hcards).
  split; [by rewrite Hposd|]. split; [by rewrite length_fmap|].
  intros k Hk. rewrite list_lookup_fmap, (Hcards k Hk), Hpos. fold N.
  rewrite <-option_fmap_compose. apply option_fmap_ext. intros c.
  apply project_faceDown.
Qed.

Lemma evalClientState_after_start_witness :
  let o := sampleOracle 10 in
  let gs := run sampleLobby [send o "B" "toggle-ready"] in
  let cc := (send o "A" "toggle-ready").2 in
  Reachable gs ∧
  phase gs = pregame ∧
  phase (executeCommand o cc gs).1 = ingame ∧
  4 * size (players gs) + 1 ≤ length (generateDeck o).1 ∧
  length (ClientState.players
            (evalClientState (executeCommand o cc gs).1 "B")) = size (players gs).
Proof.
  intros o gs cc.
  assert (Reachable gs) as Hreach.
  { exists [send (sampleOracle 0) "A" "connect-to-room";
            send (sampleOracle 0) "B" "connect-to-room";
            send o "B" "toggle-ready"]. reflexivity. }
  assert (phase gs = pregame) as Hpre by (vm_compute; reflexivity).
  assert (phase (executeCommand o cc gs).1 = ingame) as Hin
    by (vm_compute; reflexivity).
  assert (4 * size (players gs) + 1 ≤ length (generateDeck o).1) as HN
    by (vm_compute; lia).
  split; [exact Hreach|]. split; [exact Hpre|]. split; [exact Hin|].
  split; [exact HN|].
  exact (proj1 (proj2 (proj2 (proj2
           (evalClientState_after_start o cc gs "B" Hreach Hpre Hin HN))))).
Defined.

(** ** X16: connecting or disconnecting twice *)

(** Removing a player who has just been removed changes nothing. *)
Lemma removePlayer_again u gs g :
  players g = players (removePlayer u gs).1 →
  players g !! u = None ∧ players (removePlayer u g).1 = players g.
Proof.
  intros Hg.
  assert (players g !! u = None) as Hno.
  { destruct (players g !! u) as [q|] eqn:Hq; [|done]. rewrite Hg in Hq.
    apply removePlayer_lookup in Hq as (_ & _ & _ & Hne & _). done. }
  split; [done|]. rewrite removePlayer_eq. simpl. rewrite delete_id by done.
  apply renumber_dense_id. rewrite Hg, removePlayer_eq. simpl.
  apply dense_renumbered.
Qed.

(** X16. On any store, processing [connect-to-room] twice for the same
    player leaves the players and the phase as after the first time, and so
    does processing [disconnect-from-room] twice: a repeated command changes
    nothing but the log. *)
Theorem connect_and_disconnect_are_idempotent gs x y :
  player y.2 = player x.2 →
  (isConnect x ∧ isConnect y) ∨
  (prop "id" (command x.2) = JsString "disconnect-from-room" ∧
   prop "id" (command y.2) = JsString "disconnect-from-room") →
  players (run gs [x; y]) = players (run gs [x]) ∧
  phase (run gs [x; y]) = phase (run gs [x]).
Proof.
  intros Hsame Hids. rewrite !run_cons. unfold run, foldl.
  set (g1 := step gs x).
  pose proof (step_inherited gs x) as Hinh. fold g1 in Hinh.
  destruct Hids as [[Hx Hy]|[Hx Hy]].
  - destruct (step_connect_players gs x Hx) as [Hph1 Hp1]. fold g1 in Hph1, Hp1.
    destruct (step_connect_players g1 y Hy) as [Hph2 Hp2].
    split; [|done]. rewrite Hp2, Hsame, Hph1, Hinh.
    destruct (players gs !! player x.2) as [p|] eqn:Hp.
    + rewrite Hp1, lookup_insert_eq. by rewrite insert_insert_eq.
    + destruct (inherited (player x.2) gs) eqn:Hi.
      1-3: by rewrite Hp1, Hp.
      destruct (decide (phase gs = pregame)) as [Hpre|Hin].
      * rewrite Hp1, lookup_insert_eq. by rewrite insert_insert_eq.
      * by rewrite Hp1, Hp.
  - destruct (step_disconnect_players gs x Hx) as [Hph1 Hp1]. fold g1 in Hph1, Hp1.
    destruct (step_disconnect_players g1 y Hy) as [Hph2 Hp2].
    split; [|done]. rewrite Hp2, Hsame, Hph1, Hinh.
    assert (players g1 = players (removePlayer (player x.2) gs).1 →
            match players g1 !! player x.2 with
            | Some p =>
                if decide (phase gs = ingame)
                then <[player x.2 := set_isOnline false p]> (players g1)
                else players (removePlayer (player x.2) g1).1
            | None =>
                match inherited (player x.2) gs with
                | memberUndefined => players g1
                | _ =>
                    if decide (phase gs = ingame)
                    then players g1
                    else players (removePlayer (player x.2) g1).1
                end
            end = players g1) as Hrem.
    { intros Hg. destruct (removePlayer_again _ _ _ Hg) as [-> ->].
      destruct (inherited (player x.2) gs); try done;
        by destruct (decide (phase gs = ingame)). }
    destruct (players gs !! player x.2) as [p|] eqn:Hp.
    + destruct (decide (phase gs = ingame)) as [Hin|Hpre]; [|by apply Hrem].
      rewrite Hp1, lookup_insert_eq. by rewrite insert_insert_eq.
    + destruct (inherited (player x.2) gs) eqn:Hi.
      4: by rewrite Hp1, Hp.
      all: destruct (decide (phase gs = ingame)) as [Hin|Hpre];
        [by rewrite Hp1, Hp|].
      all: by apply Hrem.
Qed.

Lemma connect_and_disconnect_are_idempotent_witness :
  let x := send (sampleOracle 0) "B" "disconnect-from-room" in
  players (run sampleLobby [x; x]) = players (run sampleLobby [x]).
Proof.
  intros x.
  exact (proj1 (connect_and_disconnect_are_idempotent sampleLobby x x eq_refl
                  (or_intror (conj eq_refl eq_refl)))).
Defined.

(** ** X17: the first writes of startGame stay *)

Lemma set_hand_app_nil p : set_hand (hand p ++ []) p = p.
Proof. destruct p. unfold set_hand. simpl. by rewrite app_nil_r. Qed.

Lemma dealing_started cm a ps0 : preserves (started cm a ps0) dealing.
Proof.
  unfold dealing, dealRound, forEach, dealCard. preserves_walk; try done.
  all: match goal with H : started _ _ _ _ |- _ =>
         destruct H as (Hph & Hcm & Ha & HD & Hps) end.
  all: match goal with Hp : players ?g !! ?u = Some ?q |- _ =>
         rename Hp into Hq end.
  all: split; [done|]; split; [done|]; split; [done|]; split;
    [simpl; by erewrite dom_insert_present|].
  all: intros v pv Hv; destruct (Hps v pv Hv) as [cards Hcards].
  all: simpl.
  all: match goal with
       | |- ∃ _, <[?u := _]> _ !! ?w = _ =>
           destruct (decide (w = u)) as [->|Hne];
           [rewrite lookup_insert_eq; rewrite Hcards in Hq; injection Hq as <-;
            eexists; simpl; by rewrite <-(assoc_L app)
           |rewrite lookup_insert_ne by done; eauto]
       end.
Qed.

(** X17. On any store with at least two players, [startGame] leaves the
    phase at [ingame], the generated card map installed and an active player
    set (the one asked for, or else a seated one), keeps the same players
    with their status, position and flag, and changes their hands only by
    adding cards at the end; and this is so whether it completes or throws
    in the middle of the deal. *)
Theorem startGame_first_writes_stay o startingPlayer gs :
  2 ≤ size (players gs) →
  ∃ active,
    (startingPlayer = Some active ∨
     (startingPlayer = None ∧ is_Some (players gs !! active))) ∧
    started (generateDeck o).2 (Some active) (players gs)
      (startGame o startingPlayer gs).1.
Proof.
  intros Hsz.
  destruct (startGame_dealing o startingPlayer gs Hsz) as (active & Hact & Hstart).
  exists active. split; [done|]. rewrite Hstart.
  apply dealing_started. repeat split; simpl.
  intros u p Hp. exists []. by rewrite set_hand_app_nil.
Qed.

Lemma startGame_first_writes_stay_witness :
  let gs := run sampleLobby [send (sampleOracle 3) "B" "toggle-ready"] in
  2 ≤ size (players gs) ∧
  phase (startGame (sampleOracle 3) (Some "B") gs).1 = ingame ∧
  (startGame (sampleOracle 3) (Some "B") gs).2 = Throw "Overdraw from draw pile".
Proof.
  intros gs.
  assert (2 ≤ size (players gs)) as Hsz by (vm_compute; lia).
  destruct (startGame_first_writes_stay (sampleOracle 3) (Some "B") gs Hsz)
    as (active & _ & Hph & _).
  split; [exact Hsz|]. split; [exact Hph|]. vm_compute. reflexivity.
Defined.

(** ** X18: what a broadcast carries *)

(** X18. Whenever a command is answered with a broadcast, the views are
    projected from the store as the command left it and go to exactly the
    players seated in that store: a player who has just joined is among the
    recipients, one who has just been removed from the lobby is not. *)
Theorem broadcast_shows_the_store_after_the_command o cc gs m :
  (executeCommand o cc gs).2 = [broadcastUpdate m] →
  dom m = dom (players (executeCommand o cc gs).1) ∧
  ∀ u, m !! u =
       (λ _, evalClientState (executeCommand o cc gs).1 u)
         <$> players (executeCommand o cc gs).1 !! u.
Proof.
  unfold executeCommand.
  destruct (dispatch o (player cc) (command cc) gs) as [g [[]|message]]; [|done].
  simpl. intros [= <-].
  assert (∀ u, clientStates g !! u = (λ _, evalClientState g u) <$> players g !! u)
    as Hm by apply clientStates_lookup.
  split; [|done].
  apply set_eq. intros u. rewrite !elem_of_dom, Hm. by rewrite fmap_is_Some.
Qed.

Lemma broadcast_shows_the_store_after_the_command_witness :
  let o := sampleOracle 0 in
  let cc := (send o "B" "disconnect-from-room").2 in
  (executeCommand o cc sampleLobby).2 =
    [broadcastUpdate (clientStates (executeCommand o cc sampleLobby).1)] ∧
  dom (clientStates (executeCommand o cc sampleLobby).1) = {[ "A" ]}.
Proof.
  intros o cc.
  assert ((executeCommand o cc sampleLobby).2 =
          [broadcastUpdate (clientStates (executeCommand o cc sampleLobby).1)])
    as H by (vm_compute; reflexivity).
  split; [exact H|].
  rewrite (proj1 (broadcast_shows_the_store_after_the_command
                    o cc sampleLobby _ H)).
  apply (bool_decide_unpack _). vm_compute. exact I.
Defined.
